(** * reactive-react: the dependency-tracking runtime of [reactive.ts]

    A shallow embedding of the reactive core (proxy traps, dependency graph,
    microtask batching, the two effect lifecycles) as state-passing functions
    over an explicit record of the module's globals, followed by the
    properties of the runtime's specification. *)

From Stdlib Require Import ZArith Lia.
From stdpp Require Import base decidable countable gmap strings list fin_maps.

Local Open Scope nat_scope.

(** ** Values and references *)

(** Property keys: [string | symbol].  Canonical array indices are kept apart
    from the other strings: [KIdx i] is the string [ToString(i)], [KStr s] is
    any other string. *)
Inductive key :=
  | KStr (s : string)
  | KIdx (i : nat)
  | KSym (n : nat).

(** Object references.  [Obj a] is a plain object or array at heap address
    [a].  [Prx id isArray t] is the [id]-th object made by [new Proxy(t, ...)]
    in [createState]; the handler closure's captured [isArray] and the proxy's
    immutable target slot are carried in the reference itself. *)
Inductive ref :=
  | Obj (a : nat)
  | Prx (id : nat) (isArray : bool) (t : ref).

(** Function values a property read can produce: an entry of
    [arrayInstrumentations], a member inherited by that record from
    [Object.prototype], or a native mutator found on [Array.prototype]. *)
Inductive func :=
  | FInstr (m : string)
  | FObjectProto (m : string)
  | FArrayProto (m : string).

Inductive value :=
  | VUndef
  | VNull
  | VBool (b : bool)
  | VNum (z : Z)
  | VNaN
  | VStr (s : string)
  | VRef (r : ref)
  | VFun (f : func).

Inductive exn :=
  | UsageError (msg : string)
  | TypeError
  | RangeError
  | UserError (v : value).

Inductive outcome (A : Type) :=
  | Normal (a : A)
  | Throw (e : exn).
Arguments Normal {A} a.
Arguments Throw {A} e.

Global Instance key_eq_dec : EqDecision key.
Proof. solve_decision. Defined.
Global Instance ref_eq_dec : EqDecision ref.
Proof. solve_decision. Defined.
Global Instance func_eq_dec : EqDecision func.
Proof. solve_decision. Defined.
Global Instance value_eq_dec : EqDecision value.
Proof. solve_decision. Defined.

Definition key_enc (k : key) : string + (nat + nat) :=
  match k with
  | KStr s => inl s
  | KIdx i => inr (inl i)
  | KSym n => inr (inr n)
  end.
Definition key_dec (x : string + (nat + nat)) : key :=
  match x with
  | inl s => KStr s
  | inr (inl i) => KIdx i
  | inr (inr n) => KSym n
  end.
Global Instance key_countable : Countable key.
Proof. by apply (inj_countable' key_enc key_dec); intros []. Defined.

Fixpoint ref_enc (r : ref) : list (nat * bool) * nat :=
  match r with
  | Obj a => ([], a)
  | Prx id b t => let '(l, a) := ref_enc t in ((id, b) :: l, a)
  end.
Fixpoint ref_dec_list (l : list (nat * bool)) (a : nat) : ref :=
  match l with
  | [] => Obj a
  | (id, b) :: l' => Prx id b (ref_dec_list l' a)
  end.
Definition ref_dec (x : list (nat * bool) * nat) : ref :=
  ref_dec_list (fst x) (snd x).
Lemma ref_dec_enc r : ref_dec (ref_enc r) = r.
Proof.
  induction r as [a | id b t IH]; [done |].
  unfold ref_dec in *. simpl. destruct (ref_enc t) as [l a]. simpl in *.
  by rewrite IH.
Qed.
Global Instance ref_countable : Countable ref.
Proof. apply (inj_countable' ref_enc ref_dec), ref_dec_enc. Defined.

(** [a === b] of JavaScript: primitives by value (with [NaN] unequal to
    itself), objects and functions by identity. *)
Definition strict_eq (a b : value) : bool :=
  match a, b with
  | VNaN, _ | _, VNaN => false
  | _, _ => bool_decide (a = b)
  end.

(** [value !== null && typeof value === "object"] *)
Definition as_object (v : value) : option ref :=
  match v with
  | VRef r => Some r
  | _ => None
  end.

(** ** Heap objects *)

(** A plain aggregate: a record, or an array whose ["length"] is an own
    property kept in step with its index keys as the array exotic object
    does. *)
Record obj := { is_array : bool; props : gmap key value }.

Definition empty_obj : obj := {| is_array := false; props := ∅ |}.

Definition array_mutators : list string :=
  ["push"; "pop"; "shift"; "unshift"; "splice"; "sort"; "reverse"].

Definition object_prototype_names : list string :=
  ["constructor"; "__defineGetter__"; "__defineSetter__"; "hasOwnProperty";
   "__lookupGetter__"; "__lookupSetter__"; "isPrototypeOf";
   "propertyIsEnumerable"; "toString"; "valueOf"; "__proto__";
   "toLocaleString"].

Definition array_length (o : obj) : nat :=
  match props o !! KStr "length" with
  | Some (VNum n) => Z.to_nat n
  | _ => 0
  end.

(** An array index is a canonical numeric key below [2^32 - 1]; a larger one
    is an ordinary key of the array. *)
Definition is_array_index (i : nat) : bool :=
  bool_decide (Z.of_nat i < 4294967295)%Z.

Definition below_length (n : Z) (k : key) : bool :=
  match k with
  | KIdx i => negb (is_array_index i) || bool_decide (Z.of_nat i < n)%Z
  | _ => true
  end.

(** The length a value written to an array's ["length"] stands for, when it
    is a valid one: [ToNumber] of a primitive, within [0 .. 2^32 - 1].  A
    string or an object is coerced by the host ([StringToNumber],
    [ToPrimitive]); these coercions are outside this model, which takes such
    a value as an invalid length. *)
Definition to_array_length (v : value) : option Z :=
  match v with
  | VNum n => if decide (0 ≤ n ≤ 4294967295)%Z then Some n else None
  | VNull => Some 0%Z
  | VBool b => Some (if b then 1 else 0)%Z
  | _ => None
  end.

(** [[DefineOwnProperty]] of a data property, with the array exotic
    behaviour: an array index at or past the length extends the length, a
    write to ["length"] stores the number and truncates (and raises
    [RangeError] on an invalid length). *)
Definition define_own (k : key) (v : value) (o : obj) : outcome obj :=
  let plain := {| is_array := is_array o; props := <[k := v]> (props o) |} in
  if is_array o then
    match k with
    | KIdx i =>
        if decide (array_length o ≤ i ∧ is_array_index i = true)
        then Normal {| is_array := true;
                       props := <[KStr "length" := VNum (Z.of_nat (S i))]>
                                  (<[k := v]> (props o)) |}
        else Normal plain
    | KStr s =>
        if decide (s = "length")
        then match to_array_length v with
             | Some n =>
                 Normal {| is_array := true;
                           props := <[k := VNum n]>
                             (filter (λ kv, below_length n kv.1 = true)
                                     (props o)) |}
             | None => Throw RangeError
             end
        else Normal plain
    | KSym _ => Normal plain
    end
  else Normal plain.

(** ** Client code *)

(** What an instrumented native array method does to its receiver: a tree of
    [[Get]], [[Set]], [[Delete]] and [[HasProperty]] operations on [this]. *)
Inductive nprog :=
  | NRet (v : value)
  | NThrow (e : exn)
  | NGet (k : key) (cont : value → nprog)
  | NSet (k : key) (v : value) (cont : nprog)
  | NDelete (k : key) (cont : nprog)
  | NHas (k : key) (cont : bool → nprog).

(** Subscribers are functions; a function's identity is the index at which
    its closure was allocated. *)
Abbreviation sub := nat (only parsing).

(** The disposer returned by [effect]: closes over the effect's [execute]. *)
Inductive disposer := Disposer (e : sub).

(** Bodies handed to [effect] and [createEffect], and top-level client code:
    the library operations they may perform, with host-level continuations.
    A body ends by returning nothing, returning a cleanup callback, or
    throwing. *)
Inductive prog :=
  | PRet
  | PRetCleanup (c : prog)
  | PThrow (e : exn)
  | PGet (o : ref) (k : key) (cont : value → prog)
  | PSet (o : ref) (k : key) (v : value) (cont : prog)
  | PDelete (o : ref) (k : key) (cont : prog)
  | PCall (o : ref) (m : string) (args : list value) (cont : value → prog)
  | PCreateState (o : ref) (parent : option ref) (k : option key)
                 (cont : ref → prog)
  | PEffect (fn : prog) (cont : disposer → prog)
  | PDispose (d : disposer) (cont : prog)
  | PCreateEffect (fn : prog) (cont : prog)
  | PTry (body : prog) (cont : option exn → prog).

(** The two kinds of subscriber closure: [execute] of [effect(fn)], and
    [effectRunner] of a mounted [createEffect(fn)] with its captured
    [cleanup] variable. *)
Inductive closure :=
  | CExecute (fn : prog)
  | CRunner (fn : prog) (cleanup : option prog).

(** Ghost events: a subscriber function was invoked; a proxy [get] trap
    reached [track] while [active] was the active effect; a subscriber was
    handed to [queueEffect]. *)
Inductive event :=
  | ERun (e : sub)
  | ERead (active : option sub) (target : ref) (k : key)
  | EQueue (e : sub).

Global Instance event_eq_dec : EqDecision event.
Proof. solve_decision. Defined.

(** ** Module state *)

Record state := {
  heap : gmap nat obj;
  next_id : nat;
  activeEffect : option sub;
  targetMap : gmap ref (gmap key (list sub));
  effectDepsMap : gmap sub (list (ref * key));
  proxyCache : gmap ref ref;
  proxyParentMap : gmap ref (ref * key);
  pendingEffects : list sub;
  isFlushPending : bool;
  microtasks : nat;
  activeComponentEffects : option (list prog);
  closures : gmap sub closure;
  next_sub : nat;
  trace : list event
}.

Definition set_heap (x : gmap nat obj) (st : state) : state :=
  {| heap := x; next_id := next_id st; activeEffect := activeEffect st;
     targetMap := targetMap st; effectDepsMap := effectDepsMap st;
     proxyCache := proxyCache st; proxyParentMap := proxyParentMap st;
     pendingEffects := pendingEffects st; isFlushPending := isFlushPending st;
     microtasks := microtasks st;
     activeComponentEffects := activeComponentEffects st;
     closures := closures st; next_sub := next_sub st; trace := trace st |}.

Definition set_activeEffect (x : option sub) (st : state) : state :=
  {| heap := heap st; next_id := next_id st; activeEffect := x;
     targetMap := targetMap st; effectDepsMap := effectDepsMap st;
     proxyCache := proxyCache st; proxyParentMap := proxyParentMap st;
     pendingEffects := pendingEffects st; isFlushPending := isFlushPending st;
     microtasks := microtasks st;
     activeComponentEffects := activeComponentEffects st;
     closures := closures st; next_sub := next_sub st; trace := trace st |}.

Definition set_graph (tm : gmap ref (gmap key (list sub)))
    (ed : gmap sub (list (ref * key))) (st : state) : state :=
  {| heap := heap st; next_id := next_id st; activeEffect := activeEffect st;
     targetMap := tm; effectDepsMap := ed;
     proxyCache := proxyCache st; proxyParentMap := proxyParentMap st;
     pendingEffects := pendingEffects st; isFlushPending := isFlushPending st;
     microtasks := microtasks st;
     activeComponentEffects := activeComponentEffects st;
     closures := closures st; next_sub := next_sub st; trace := trace st |}.

Definition set_proxies (n : nat) (pc : gmap ref ref)
    (pp : gmap ref (ref * key)) (st : state) : state :=
  {| heap := heap st; next_id := n; activeEffect := activeEffect st;
     targetMap := targetMap st; effectDepsMap := effectDepsMap st;
     proxyCache := pc; proxyParentMap := pp;
     pendingEffects := pendingEffects st; isFlushPending := isFlushPending st;
     microtasks := microtasks st;
     activeComponentEffects := activeComponentEffects st;
     closures := closures st; next_sub := next_sub st; trace := trace st |}.

Definition set_scheduler (pe : list sub) (fp : bool) (mt : nat)
    (st : state) : state :=
  {| heap := heap st; next_id := next_id st; activeEffect := activeEffect st;
     targetMap := targetMap st; effectDepsMap := effectDepsMap st;
     proxyCache := proxyCache st; proxyParentMap := proxyParentMap st;
     pendingEffects := pe; isFlushPending := fp; microtasks := mt;
     activeComponentEffects := activeComponentEffects st;
     closures := closures st; next_sub := next_sub st; trace := trace st |}.

Definition set_activeComponentEffects (x : option (list prog))
    (st : state) : state :=
  {| heap := heap st; next_id := next_id st; activeEffect := activeEffect st;
     targetMap := targetMap st; effectDepsMap := effectDepsMap st;
     proxyCache := proxyCache st; proxyParentMap := proxyParentMap st;
     pendingEffects := pendingEffects st; isFlushPending := isFlushPending st;
     microtasks := microtasks st; activeComponentEffects := x;
     closures := closures st; next_sub := next_sub st; trace := trace st |}.

Definition set_closures (c : gmap sub closure) (n : nat)
    (st : state) : state :=
  {| heap := heap st; next_id := next_id st; activeEffect := activeEffect st;
     targetMap := targetMap st; effectDepsMap := effectDepsMap st;
     proxyCache := proxyCache st; proxyParentMap := proxyParentMap st;
     pendingEffects := pendingEffects st; isFlushPending := isFlushPending st;
     microtasks := microtasks st;
     activeComponentEffects := activeComponentEffects st;
     closures := c; next_sub := n; trace := trace st |}.

Definition set_trace (t : list event) (st : state) : state :=
  {| heap := heap st; next_id := next_id st; activeEffect := activeEffect st;
     targetMap := targetMap st; effectDepsMap := effectDepsMap st;
     proxyCache := proxyCache st; proxyParentMap := proxyParentMap st;
     pendingEffects := pendingEffects st; isFlushPending := isFlushPending st;
     microtasks := microtasks st;
     activeComponentEffects := activeComponentEffects st;
     closures := closures st; next_sub := next_sub st; trace := t |}.

(** Ghost updates of the trace. *)
Definition log_run (e : sub) (st : state) : state :=
  set_trace (trace st ++ [ERun e]) st.
Definition log_read (target : ref) (k : key) (st : state) : state :=
  set_trace (trace st ++ [ERead (activeEffect st) target k]) st.
Definition log_queue (e : sub) (st : state) : state :=
  set_trace (trace st ++ [EQueue e]) st.

(** A new function object for a subscriber closure. *)
Definition alloc_sub (c : closure) (st : state) : state :=
  set_closures (<[next_sub st := c]> (closures st)) (S (next_sub st)) st.

(** ** Raw property access on plain objects *)

Definition get_obj (a : nat) (st : state) : obj :=
  default empty_obj (heap st !! a).

(** [[Get]] on a plain object: own data properties, and for arrays the native
    mutators found on [Array.prototype]; anything else is [undefined].  The
    rest of the prototype chain is not in the heap; [ordinary_key] below
    names the keys at which this is what the code reads. *)
Definition raw_get (a : nat) (k : key) (st : state) : value :=
  let o := get_obj a st in
  match props o !! k with
  | Some v => v
  | None =>
      match k with
      | KStr s =>
          if is_array o && bool_decide (s ∈ array_mutators)
          then VFun (FArrayProto s) else VUndef
      | _ => VUndef
      end
  end.

Definition raw_set (a : nat) (k : key) (v : value) (st : state)
    : outcome bool * state :=
  match define_own k v (get_obj a st) with
  | Normal o => (Normal true, set_heap (<[a := o]> (heap st)) st)
  | Throw e => (Throw e, st)
  end.

(** [[Delete]]: an array's ["length"] is not configurable. *)
Definition raw_delete (a : nat) (k : key) (st : state) : bool * state :=
  let o := get_obj a st in
  if is_array o && bool_decide (k = KStr "length") then (false, st)
  else (true, set_heap (<[a := {| is_array := is_array o;
                                  props := delete k (props o) |}]> (heap st))
                       st).

Definition raw_has (a : nat) (k : key) (st : state) : bool :=
  match raw_get a k st with
  | VUndef => bool_decide (is_Some (props (get_obj a st) !! k))
  | _ => true
  end.

(** ** Dependency tracking system *)

(** [Set.prototype.add] and [delete] on an insertion-ordered set. *)
Definition set_add (e : sub) (l : list sub) : list sub :=
  if decide (e ∈ l) then l else l ++ [e].
Definition set_delete (e : sub) (l : list sub) : list sub :=
  filter (λ x, x ≠ e) l.

(** The forward index at (target, key): the subscribers a trigger of that
    edge would reach. *)
Definition lookup_deps (tm : gmap ref (gmap key (list sub))) (target : ref)
    (k : key) : list sub :=
  default [] (tm !! target ≫= (.!! k)).
Definition forward (st : state) (target : ref) (k : key) : list sub :=
  lookup_deps (targetMap st) target k.

(** The reverse index of a subscriber. *)
Definition reverse (st : state) (e : sub) : list (ref * key) :=
  default [] (effectDepsMap st !! e).

Definition queueEffect (e : sub) (st : state) : state :=
  let st0 := log_queue e st in
  let pe := set_add e (pendingEffects st0) in
  if isFlushPending st0
  then set_scheduler pe true (microtasks st0) st0
  else set_scheduler pe true (S (microtasks st0)) st0.

Definition track (target : ref) (k : key) (st : state) : state :=
  match activeEffect st with
  | None => st
  | Some e =>
      let depsMap := default ∅ (targetMap st !! target) in
      let deps := default [] (depsMap !! k) in
      let effectDeps := default [] (effectDepsMap st !! e) in
      set_graph
        (<[target := <[k := set_add e deps]> depsMap]> (targetMap st))
        (<[e := effectDeps ++ [(target, k)]]> (effectDepsMap st))
        st
  end.

Definition trigger (target : ref) (k : key) (st : state) : state :=
  match targetMap st !! target with
  | None => st
  | Some depsMap =>
      match depsMap !! k with
      | None => st
      | Some deps => foldl (λ s e, queueEffect e s) st deps
      end
  end.

(** The body of the [forEach] loops that unsubscribe: delete [e] from the
    forward set at one (target, key), when that set exists. *)
Definition remove_dep (e : sub) (tm : gmap ref (gmap key (list sub)))
    (d : ref * key) : gmap ref (gmap key (list sub)) :=
  match tm !! d.1 with
  | None => tm
  | Some depsMap =>
      match depsMap !! d.2 with
      | None => tm
      | Some targetDeps =>
          <[d.1 := <[d.2 := set_delete e targetDeps]> depsMap]> tm
      end
  end.

(** [cleanup] of [effect]: remove [execute] from every forward set its
    reverse entry lists, then clear the reverse entry. *)
Definition cleanup (e : sub) (st : state) : state :=
  match effectDepsMap st !! e with
  | None => st
  | Some deps =>
      set_graph (foldl (remove_dep e) (targetMap st) deps)
                (<[e := []]> (effectDepsMap st)) st
  end.

(** The disposer returned by [effect]. *)
Definition dispose (d : disposer) (st : state) : state :=
  let 'Disposer e := d in
  let st1 := cleanup e st in
  set_graph (targetMap st1) (delete e (effectDepsMap st1)) st1.

(** ** The keys and writes the heap model covers

    Objects are plain data with the default prototypes, and the prototype
    chain is not part of the heap: [raw_get] answers [undefined] for a key
    that is not an own property (but for the native mutators of an array).
    That is what the code reads at an ordinary key: an own property, or a
    key that neither [Object.prototype] nor [Array.prototype] defines.  On a
    record these are all keys but the names of [Object.prototype]; on an
    array, whose prototype's names depend on the host, the own properties
    and the numeric keys. *)
Definition ordinary_key (o : obj) (k : key) : bool :=
  bool_decide (is_Some (props o !! k)) ||
  match k with
  | KIdx _ => true
  | KStr s => negb (is_array o) && bool_decide (s ∉ object_prototype_names)
  | KSym _ => negb (is_array o)
  end.

(** A write that stores the value as it is given: any but a write to an
    array's ["length"], which stores a number, of something that is not
    one. *)
Definition stored_as_written (o : obj) (k : key) (v : value) : bool :=
  negb (is_array o && bool_decide (k = KStr "length")) ||
  match v with
  | VNum _ => true
  | _ => false
  end.

(** ** State interception layer *)

(** [Array.isArray], which looks through proxies. *)
Definition isArray (r : ref) (st : state) : bool :=
  match r with
  | Obj a => is_array (get_obj a st)
  | Prx _ b _ => b
  end.

(** [typeof key === 'string' && key in arrayInstrumentations]: the seven own
    entries, and what the record literal inherits from [Object.prototype]. *)
Definition in_arrayInstrumentations (k : key) : bool :=
  match k with
  | KStr s => bool_decide (s ∈ array_mutators ++ object_prototype_names)
  | _ => false
  end.

(** [arrayInstrumentations[key]] *)
Definition arrayInstrumentations (k : key) : value :=
  match k with
  | KStr s =>
      if bool_decide (s ∈ array_mutators) then VFun (FInstr s)
      else if bool_decide (s ∈ object_prototype_names)
           then VFun (FObjectProto s) else VUndef
  | _ => VUndef
  end.

Definition createState (o : ref) (parent : option ref) (k : option key)
    (st : state) : ref * state :=
  match proxyCache st !! o with
  | Some existingProxy => (existingProxy, st)
  | None =>
      let proxy := Prx (next_id st) (isArray o st) o in
      let pc := <[o := proxy]> (proxyCache st) in
      let pp := match parent, k with
                | Some pa, Some ke => <[proxy := (pa, ke)]> (proxyParentMap st)
                | _, _ => proxyParentMap st
                end in
      (proxy, set_proxies (S (next_id st)) pc pp st)
  end.

(** [[Get]] on any reference.  On a proxy this is the [get] trap;
    [Reflect.get(target, key, receiver)] is the recursive call (the receiver
    only matters to accessors, which plain data does not have). *)
Fixpoint js_get (r : ref) (k : key) (st : state) : value * state :=
  match r with
  | Obj a => (raw_get a k st, st)
  | Prx _ isArr target =>
      if isArr && in_arrayInstrumentations k
      then (arrayInstrumentations k, st)
      else
        let '(v, st1) := js_get target k st in
        let st2 := track target k (log_read target k st1) in
        match as_object v with
        | Some o =>
            let '(p, st3) := createState o (Some target) (Some k) st2 in
            (VRef p, st3)
        | None => (v, st2)
        end
  end.

(** [[Set]] on any reference.  On a proxy this is the [set] trap. *)
Fixpoint js_set (r : ref) (k : key) (v : value) (st : state)
    : outcome bool * state :=
  match r with
  | Obj a => raw_set a k v st
  | Prx _ _ target =>
      let '(oldValue, st1) := js_get target k st in
      match js_set target k v st1 with
      | (Normal result, st2) =>
          (Normal result,
           if strict_eq oldValue v then st2 else trigger target k st2)
      | (Throw e, st2) => (Throw e, st2)
      end
  end.

(** [[Delete]] and [[HasProperty]]: the handler has no [deleteProperty] or
    [has] trap, so a proxy forwards both to its target. *)
Fixpoint js_delete (r : ref) (k : key) (st : state) : bool * state :=
  match r with
  | Obj a => raw_delete a k st
  | Prx _ _ target => js_delete target k st
  end.

Fixpoint js_has (r : ref) (k : key) (st : state) : bool :=
  match r with
  | Obj a => raw_has a k st
  | Prx _ _ target => js_has target k st
  end.

(** The plain object at the bottom of a chain of proxies. *)
Fixpoint base (r : ref) : nat :=
  match r with
  | Obj a => a
  | Prx _ _ target => base target
  end.

(** Strict-mode assignment and [delete]: a [false] result raises. *)
Definition assign (r : ref) (k : key) (v : value) (st : state)
    : outcome unit * state :=
  match js_set r k v st with
  | (Normal true, st1) => (Normal tt, st1)
  | (Normal false, st1) => (Throw TypeError, st1)
  | (Throw e, st1) => (Throw e, st1)
  end.

Definition delete_property (r : ref) (k : key) (st : state)
    : outcome unit * state :=
  match js_delete r k st with
  | (true, st1) => (Normal tt, st1)
  | (false, st1) => (Throw TypeError, st1)
  end.

(** [createEffect]: registration only; the closure pushed is
    [reactiveEffectFn], determined by [fn]. *)
Definition createEffect (fn : prog) (st : state) : outcome unit * state :=
  match activeComponentEffects st with
  | None =>
      (Throw (UsageError
         "createEffect can only be called inside a reactive component setup"),
       st)
  | Some effects =>
      (Normal tt, set_activeComponentEffects (Some (effects ++ [fn])) st)
  end.

(** [execute] of [effect], over the evaluation of its body. *)
Definition execute {A} (run : state → outcome A * state) (e : sub)
    (st : state) : outcome unit * state :=
  let st1 := cleanup e st in
  let st2 := set_activeEffect (Some e) st1 in
  match run st2 with
  | (Normal _, st3) => (Normal tt, set_activeEffect None st3)
  | (Throw x, st3) => (Throw x, set_activeEffect None st3)
  end.

(** [effect(fn)]: allocate [execute], call it once, return the disposer. *)
Definition effect {A} (run : state → outcome A * state) (fn : prog)
    (st : state) : outcome disposer * state :=
  let e := next_sub st in
  match execute run e (log_run e (alloc_sub (CExecute fn) st)) with
  | (Normal _, st1) => (Normal (Disposer e), st1)
  | (Throw x, st1) => (Throw x, st1)
  end.

Section Runtime.

(** [Array.prototype[method]] applied to receiver [this] and [args]: host
    code, given by the property operations it performs on its receiver. *)
Variable native : string → ref → list value → nprog.

Fixpoint run_nprog (this : ref) (p : nprog) (st : state)
    : outcome value * state :=
  match p with
  | NRet v => (Normal v, st)
  | NThrow e => (Throw e, st)
  | NGet k cont =>
      let '(v, st1) := js_get this k st in run_nprog this (cont v) st1
  | NSet k v cont =>
      match assign this k v st with
      | (Normal _, st1) => run_nprog this cont st1
      | (Throw e, st1) => (Throw e, st1)
      end
  | NDelete k cont =>
      match delete_property this k st with
      | (Normal _, st1) => run_nprog this cont st1
      | (Throw e, st1) => (Throw e, st1)
      end
  | NHas k cont => run_nprog this (cont (js_has this k st)) st
  end.

(** [arrayInstrumentations[method]] called with receiver [this]. *)
Definition instrumented (method : string) (this : ref) (args : list value)
    (st : state) : outcome value * state :=
  let prevEffect := activeEffect st in
  let st1 := set_activeEffect None st in
  match run_nprog this (native method this args) st1 with
  | (Throw e, st2) => (Throw e, st2)
  | (Normal result, st2) =>
      let st3 := set_activeEffect prevEffect st2 in
      let st4 := trigger this (KStr method) st3 in
      let st5 := trigger this (KStr "length") st4 in
      let st6 := match proxyParentMap st5 !! this with
                 | Some (parent, k) => trigger parent k st5
                 | None => st5
                 end in
      (Normal result, st6)
  end.

(** Calling the value a method lookup produced: an instrumented method, or
    a native mutator found on a raw array.  No other value is callable in
    this model. *)
Definition call_function (f : value) (this : ref) (args : list value)
    (st : state) : outcome value * state :=
  match f with
  | VFun (FInstr m) => instrumented m this args st
  | VFun (FArrayProto m) => run_nprog this (native m this args) st
  | _ => (Throw TypeError, st)
  end.

Fixpoint run_prog (p : prog) (st : state) : outcome (option prog) * state :=
  match p with
  | PRet => (Normal None, st)
  | PRetCleanup c => (Normal (Some c), st)
  | PThrow e => (Throw e, st)
  | PGet o k cont =>
      let '(v, st1) := js_get o k st in run_prog (cont v) st1
  | PSet o k v cont =>
      match assign o k v st with
      | (Normal _, st1) => run_prog cont st1
      | (Throw e, st1) => (Throw e, st1)
      end
  | PDelete o k cont =>
      match delete_property o k st with
      | (Normal _, st1) => run_prog cont st1
      | (Throw e, st1) => (Throw e, st1)
      end
  | PCall o m args cont =>
      let '(f, st1) := js_get o (KStr m) st in
      match call_function f o args st1 with
      | (Normal v, st2) => run_prog (cont v) st2
      | (Throw e, st2) => (Throw e, st2)
      end
  | PCreateState o parent k cont =>
      let '(p, st1) := createState o parent k st in run_prog (cont p) st1
  | PEffect fn cont =>
      match effect (run_prog fn) fn st with
      | (Normal d, st1) => run_prog (cont d) st1
      | (Throw e, st1) => (Throw e, st1)
      end
  | PDispose d cont => run_prog cont (dispose d st)
  | PCreateEffect fn cont =>
      match createEffect fn st with
      | (Normal _, st1) => run_prog cont st1
      | (Throw e, st1) => (Throw e, st1)
      end
  | PTry body cont =>
      match run_prog body st with
      | (Normal _, st1) => run_prog (cont None) st1
      | (Throw e, st1) => run_prog (cont (Some e)) st1
      end
  end.

(** ** Scheduler *)

(** [if (cleanup && typeof cleanup === "function") cleanup()] *)
Definition run_cleanup (c : option prog) (st : state)
    : outcome unit * state :=
  match c with
  | None => (Normal tt, st)
  | Some p =>
      match run_prog p st with
      | (Normal _, st1) => (Normal tt, st1)
      | (Throw e, st1) => (Throw e, st1)
      end
  end.

(** Assignment to the [cleanup] variable captured by [effectRunner]. *)
Definition set_cleanup (r : sub) (fn : prog) (c : option prog)
    (st : state) : state :=
  set_closures (<[r := CRunner fn c]> (closures st)) (next_sub st) st.

(** [effectRunner] of a mounted scoped effect. *)
Definition effectRunner (r : sub) (fn : prog) (c : option prog)
    (st : state) : outcome unit * state :=
  match run_cleanup c st with
  | (Throw e, st1) => (Throw e, st1)
  | (Normal _, st1) =>
      match run_prog fn st1 with
      | (Normal c', st2) => (Normal tt, set_cleanup r fn c' st2)
      | (Throw e, st2) => (Throw e, st2)
      end
  end.

(** Calling a subscriber function. *)
Definition call_sub (e : sub) (st : state) : outcome unit * state :=
  let st0 := log_run e st in
  match closures st0 !! e with
  | Some (CExecute fn) => execute (run_prog fn) e st0
  | Some (CRunner fn c) => effectRunner e fn c st0
  | None => (Normal tt, st0)
  end.

(** [effects.forEach((effect) => effect())]: an exception ends the loop. *)
Fixpoint run_batch (effects : list sub) (st : state)
    : outcome unit * state :=
  match effects with
  | [] => (Normal tt, st)
  | e :: rest =>
      match call_sub e st with
      | (Normal _, st1) => run_batch rest st1
      | (Throw x, st1) => (Throw x, st1)
      end
  end.

Definition flushEffects (st : state) : outcome unit * state :=
  let effects := pendingEffects st in
  run_batch effects (set_scheduler [] false (microtasks st) st).

(** One scheduling turn: the host takes the queued [flushEffects] microtask
    and runs it. *)
Definition run_microtask (st : state) : option (outcome unit * state) :=
  match microtasks st with
  | 0 => None
  | S n =>
      Some (flushEffects
              (set_scheduler (pendingEffects st) (isFlushPending st) n st))
  end.

(** ** Scoped effects *)

(** The subscription loop of [reactiveEffectFn]. *)
Definition subscribe (r : sub) (tm : gmap ref (gmap key (list sub)))
    (d : ref * key) : gmap ref (gmap key (list sub)) :=
  let depsMap := default ∅ (tm !! d.1) in
  let targetDeps := default [] (depsMap !! d.2) in
  <[d.1 := <[d.2 := set_add r targetDeps]> depsMap]> tm.

(** [reactiveEffectFn] (the host calls it on mount): returns what its
    unmount closure captures, the runner and [trackedDeps]. *)
Definition reactiveEffectFn (fn : prog) (st : state)
    : outcome (sub * list (ref * key)) * state :=
  let r := next_sub st in
  let st0 := alloc_sub (CRunner fn None) st in
  let prevEffect := activeEffect st0 in
  let st1 := set_activeEffect (Some r) st0 in
  match run_prog fn st1 with
  | (Throw e, st2) => (Throw e, set_activeEffect prevEffect st2)
  | (Normal c, st2) =>
      let st3 := set_cleanup r fn c st2 in
      let trackedDeps := default [] (effectDepsMap st3 !! r) in
      let st4 := set_activeEffect prevEffect st3 in
      (Normal (r, trackedDeps),
       set_graph (foldl (subscribe r) (targetMap st4) trackedDeps)
                 (effectDepsMap st4) st4)
  end.

(** The closure [reactiveEffectFn] returns (the host calls it on unmount). *)
Definition unmount (r : sub) (trackedDeps : list (ref * key)) (st : state)
    : outcome unit * state :=
  let c := match closures st !! r with
           | Some (CRunner _ c) => c
           | _ => None
           end in
  match run_cleanup c st with
  | (Throw e, st1) => (Throw e, st1)
  | (Normal _, st1) =>
      (Normal tt,
       set_graph (foldl (remove_dep r) (targetMap st1) trackedDeps)
                 (delete r (effectDepsMap st1)) st1)
  end.

(** The host adapter's registration context around a component's setup code:
    [activeComponentEffects = componentEffects; try { setup(...) } finally
    { activeComponentEffects = null }].  The registered list is handed back
    to the host. *)
Definition with_registration (p : prog) (st : state)
    : (outcome (option prog) * list prog) * state :=
  let '(o, st1) := run_prog p (set_activeComponentEffects (Some []) st) in
  ((o, default [] (activeComponentEffects st1)),
   set_activeComponentEffects None st1).

(** The mount callback the host adapter hands to [useEffect]:
    [effectsRef.current.forEach((effectFn) => { cleanups.push(effectFn()) })].
    An exception ends the loop, and with it the [cleanups] array. *)
Fixpoint mount_effects (effects : list prog) (st : state)
    : outcome (list (sub * list (ref * key))) * state :=
  match effects with
  | [] => (Normal [], st)
  | effectFn :: rest =>
      match reactiveEffectFn effectFn st with
      | (Throw e, st1) => (Throw e, st1)
      | (Normal cleanup, st1) =>
          match mount_effects rest st1 with
          | (Throw e, st2) => (Throw e, st2)
          | (Normal cleanups, st2) => (Normal (cleanup :: cleanups), st2)
          end
      end
  end.

(** The function that callback returns:
    [cleanups.forEach((cleanup) => { if (cleanup) cleanup() })]. *)
Fixpoint unmount_effects (cleanups : list (sub * list (ref * key)))
    (st : state) : outcome unit * state :=
  match cleanups with
  | [] => (Normal tt, st)
  | (r, trackedDeps) :: rest =>
      match unmount r trackedDeps st with
      | (Throw e, st1) => (Throw e, st1)
      | (Normal _, st1) => unmount_effects rest st1
      end
  end.

End Runtime.

(** ** Shallow comparison *)

(** Whether an own property shows up in [Object.keys]: string keys only,
    and not an array's ["length"], which is not enumerable. *)
Definition enumerable (o : obj) (k : key) : bool :=
  match k with
  | KSym _ => false
  | KIdx _ => true
  | KStr s => negb (is_array o && bool_decide (s = "length"))
  end.

(** [Object.keys(r)]; the handler has no [ownKeys] trap, so a proxy lists its
    target's keys.  The keys come in the order of the property map, which is
    not JavaScript's property order: the boolean [shallowEqual] returns does
    not depend on the order, the reads it makes through a proxy before an
    early exit do. *)
Definition object_keys (r : ref) (st : state) : list key :=
  let o := get_obj (base r) st in
  filter (λ k, enumerable o k = true) (map_to_list (props o)).*1.

(** [Object.prototype.hasOwnProperty.call(r, key)] *)
Definition has_own (r : ref) (k : key) (st : state) : bool :=
  bool_decide (is_Some (props (get_obj (base r) st) !! k)).

(** The [for (const key of keysA)] loop of [shallowEqual]. *)
Fixpoint shallow_loop (objA objB : ref) (keys : list key) (st : state)
    : bool * state :=
  match keys with
  | [] => (true, st)
  | k :: rest =>
      if negb (has_own objB k st) then (false, st)
      else
        let '(va, st1) := js_get objA k st in
        let '(vb, st2) := js_get objB k st1 in
        if strict_eq va vb then shallow_loop objA objB rest st2
        else (false, st2)
  end.

(** [shallowEqual(objA, objB)] *)
Definition shallowEqual (objA objB : value) (st : state) : bool * state :=
  if strict_eq objA objB then (true, st)
  else
    match as_object objA, as_object objB with
    | Some a, Some b =>
        let keysA := object_keys a st in
        let keysB := object_keys b st in
        if decide (length keysA ≠ length keysB) then (false, st)
        else shallow_loop a b keysA st
    | _, _ => (false, st)
    end.

(** The module's initial state over a heap of caller-owned objects. *)
Definition init (h : gmap nat obj) : state :=
  {| heap := h; next_id := 0; activeEffect := None; targetMap := ∅;
     effectDepsMap := ∅; proxyCache := ∅; proxyParentMap := ∅;
     pendingEffects := []; isFlushPending := false; microtasks := 0;
     activeComponentEffects := None; closures := ∅; next_sub := 0;
     trace := [] |}.

(** ** Reachable states

    What the host and client code can do between scheduling turns: run client
    code, run a component's setup, let the queued flush run, mount a
    registered scoped effect, unmount a mounted one.  With [avoid = Some e]
    the states are those reached without calling an unmount closure for [e],
    as is the case for every subscriber that is not a scoped effect's
    runner. *)
Inductive reachable (native : string → ref → list value → nprog)
    (avoid : option sub) : state → Prop :=
  | reach_init h : reachable native avoid (init h)
  | reach_client st p :
      reachable native avoid st →
      reachable native avoid (run_prog native p st).2
  | reach_setup st p :
      reachable native avoid st →
      reachable native avoid (with_registration native p st).2
  | reach_turn st o st' :
      reachable native avoid st → run_microtask native st = Some (o, st') →
      reachable native avoid st'
  | reach_mount st fn :
      reachable native avoid st →
      reachable native avoid (reactiveEffectFn native fn st).2
  | reach_unmount st r deps :
      avoid ≠ Some r → reachable native avoid st →
      reachable native avoid (unmount native r deps st).2.

(** ** Observations on states and traces *)

(** The subscriber invocations recorded in a stretch of trace, in order. *)
Definition runs (ev : list event) : list sub :=
  omap (λ x, match x with ERun e => Some e | _ => None end) ev.

(** Those among them of subscribers that existed before the stretch began. *)
Definition old_runs (bound : nat) (ev : list event) : list sub :=
  filter (λ e, e < bound) (runs ev).

(** How often a subscriber was invoked in a stretch of trace. *)
Definition run_count (e : sub) (ev : list event) : nat :=
  length (filter (λ x, x = e) (runs ev)).

(** Every forward edge of [e] is mirrored in its reverse entry. *)
Definition mirror (st : state) (e : sub) : Prop :=
  ∀ target k, e ∈ forward st target k → (target, k) ∈ reverse st e.

(** A pending flush has its microtask queued. *)
Definition sched_ok (st : state) : Prop :=
  isFlushPending st = true → 0 < microtasks st.

(** Subscribers known to the graph, the batch and the active slot are
    allocated functions. *)
Definition subs_allocated (st : state) : Prop :=
  (∀ e, e ∈ pendingEffects st → e < next_sub st) ∧
  (∀ target k e, e ∈ forward st target k → e < next_sub st) ∧
  (∀ e, activeEffect st = Some e → e < next_sub st).

(** A reference together with the targets below it. *)
Fixpoint chain (r : ref) : list ref :=
  match r with
  | Obj a => [r]
  | Prx _ _ target => r :: chain target
  end.

(** Top-level client code performing a list of assignments in sequence. *)
Fixpoint writes (ws : list (ref * key * value)) : prog :=
  match ws with
  | [] => PRet
  | (o, k, v) :: rest => PSet o k v (writes rest)
  end.

(** Client code only ever invokes subscriber functions it has just
    allocated: the trace grows by runs of fresh subscribers, each once. *)
Definition grows (st st' : state) : Prop :=
  next_sub st ≤ next_sub st' ∧
  ∃ ev, trace st' = trace st ++ ev ∧ NoDup (runs ev) ∧
        ∀ e, e ∈ runs ev → next_sub st ≤ e < next_sub st'.

(** A non-empty pending set has its flush scheduled. *)
Definition batch_scheduled (st : state) : Prop :=
  (pendingEffects st ≠ [] → isFlushPending st = true) ∧ sched_ok st.

(** Nothing is dropped from the pending set, whatever is handed to
    [queueEffect] ends up in it, and it stays duplicate-free. *)
Definition kept (st st' : state) : Prop :=
  ∃ ev, trace st' = trace st ++ ev ∧
        (∀ e, e ∈ pendingEffects st → e ∈ pendingEffects st') ∧
        (∀ e, EQueue e ∈ ev → e ∈ pendingEffects st') ∧
        (NoDup (pendingEffects st) → NoDup (pendingEffects st')) ∧
        (batch_scheduled st → batch_scheduled st').

(** The forward edges of [e] only grow by reads tracked for [e]. *)
Definition tracked (e : sub) (st st' : state) : Prop :=
  ∃ ev, trace st' = trace st ++ ev ∧
        ∀ target k, e ∈ forward st' target k →
                    e ∈ forward st target k ∨ ERead (Some e) target k ∈ ev.

(** Only the scheduler's variables (and the ghost trace) differ. *)
Definition sched_only (st st' : state) : Prop :=
  ∃ pe fp mt tr, st' = set_scheduler pe fp mt (set_trace tr st).

(** No subscriber is allocated or invoked, and known subscribers stay
    allocated. *)
Definition quiet (st st' : state) : Prop :=
  next_sub st' = next_sub st ∧ runs (trace st') = runs (trace st) ∧
  (subs_allocated st → subs_allocated st').

(** Subscribers stay allocated, and none is deallocated. *)
Definition allocs (st st' : state) : Prop :=
  next_sub st ≤ next_sub st' ∧ (subs_allocated st → subs_allocated st').

(** A state predicate carried from one state to a later one. *)
Definition keeps (P : state → Prop) (st st' : state) : Prop := P st → P st'.

(** Setup code that registers a list of scoped effects, in order. *)
Definition registrations (fns : list prog) : prog :=
  foldr PCreateEffect PRet fns.

(** One flush is queued while the flag is up, none otherwise, and the flag is
    up exactly while something is pending. *)
Definition one_flush (st : state) : Prop :=
  microtasks st = (if isFlushPending st then 1 else 0) ∧
  (isFlushPending st = true ↔ pendingEffects st ≠ []).

(** Every edge listed in the reverse entry of [e] is in the forward index. *)
Definition mirror_back (st : state) (e : sub) : Prop :=
  ∀ target k, (target, k) ∈ reverse st e → e ∈ forward st target k.

(** The cache maps a target to a proxy made over that very target, under an
    identifier that has been handed out. *)
Definition cache_wf (st : state) : Prop :=
  ∀ o p, proxyCache st !! o = Some p →
         ∃ id b, p = Prx id b o ∧ id < next_id st.

(** The active-subscriber slot is what it was, or empty. *)
Definition slot_rel (st st' : state) : Prop :=
  activeEffect st' = activeEffect st ∨ activeEffect st' = None.

(** No read is tracked for [r] and [r] does not become the active
    subscriber, when it is an allocated function that is not active. *)
Definition unread (r : sub) (st st' : state) : Prop :=
  next_sub st ≤ next_sub st' ∧
  (r < next_sub st → activeEffect st ≠ Some r →
   activeEffect st' ≠ Some r ∧
   ∃ ev, trace st' = trace st ++ ev ∧ ∀ t k, ERead (Some r) t k ∉ ev).

(** [r] is the [effectRunner] of a mounted scoped effect. *)
Definition is_runner (r : sub) (st : state) : Prop :=
  ∃ fn c, closures st !! r = Some (CRunner fn c).

(** An allocated [effectRunner] stays one. *)
Definition runner_kept (r : sub) (st st' : state) : Prop :=
  next_sub st ≤ next_sub st' ∧
  (r < next_sub st → is_runner r st → is_runner r st').

(** A mounted scoped effect whose unmount closure captured [deps]: its runner
    is an allocated function, is not the active subscriber, and is filed
    under no edge outside [deps]. *)
Definition scoped (r : sub) (deps : list (ref * key)) (st : state) : Prop :=
  r < next_sub st ∧ activeEffect st ≠ Some r ∧ is_runner r st ∧
  ∀ t k, r ∈ forward st t k → (t, k) ∈ deps.

(** With no active subscriber the slot stays empty and the graph stays as it
    is. *)
Definition paused (st st' : state) : Prop :=
  activeEffect st = None →
  activeEffect st' = None ∧ targetMap st' = targetMap st ∧
  effectDepsMap st' = effectDepsMap st.

(** A disposed effect that is out of the runtime's reach: an allocated
    function that is not the active subscriber, is not pending and is in no
    forward set. *)
Definition disposed (e : sub) (st : state) : Prop :=
  e < next_sub st ∧ activeEffect st ≠ Some e ∧ (e ∉ pendingEffects st) ∧
  (∀ t k, e ∉ forward st t k).

(** Two objects with the same enumerable properties, the values pairwise
    [===]. *)
Definition same_props (oa ob : obj) : Prop :=
  ∀ k, enumerable oa k = true →
       match props oa !! k, props ob !! k with
       | Some x, Some y => strict_eq x y = true
       | None, None => True
       | _, _ => False
       end.

(** ** Host natives and scenarios used by the examples *)

(** [ToLength(Get(O, "length"))] *)
Definition to_length (v : value) : nat :=
  match v with
  | VNum n => Z.to_nat n
  | _ => 0
  end.

(** [Array.prototype.push], [pop], [shift], [unshift] and [reverse] as
    ECMAScript specifies them. *)
Fixpoint es_push_items (len : nat) (items : list value) : nprog :=
  match items with
  | [] =>
      NSet (KStr "length") (VNum (Z.of_nat len)) (NRet (VNum (Z.of_nat len)))
  | x :: rest => NSet (KIdx len) x (es_push_items (S len) rest)
  end.

Definition es_push (items : list value) : nprog :=
  NGet (KStr "length") (λ v, es_push_items (to_length v) items).

Definition es_pop : nprog :=
  NGet (KStr "length") (λ v,
    match to_length v with
    | 0 => NSet (KStr "length") (VNum 0) (NRet VUndef)
    | S newLen =>
        NGet (KIdx newLen) (λ element,
          NDelete (KIdx newLen)
            (NSet (KStr "length") (VNum (Z.of_nat newLen)) (NRet element)))
    end).

Fixpoint es_shift_loop (n k : nat) (cont : nprog) : nprog :=
  match n with
  | 0 => cont
  | S n' =>
      NHas (KIdx k) (λ fromPresent,
        if fromPresent
        then NGet (KIdx k) (λ fromVal,
               NSet (KIdx (k - 1)) fromVal (es_shift_loop n' (S k) cont))
        else NDelete (KIdx (k - 1)) (es_shift_loop n' (S k) cont))
  end.

Definition es_shift : nprog :=
  NGet (KStr "length") (λ v,
    match to_length v with
    | 0 => NSet (KStr "length") (VNum 0) (NRet VUndef)
    | S n =>
        NGet (KIdx 0) (λ first,
          es_shift_loop n 1
            (NDelete (KIdx n)
               (NSet (KStr "length") (VNum (Z.of_nat n)) (NRet first))))
    end).

Definition get_if (present : bool) (k : key) (cont : value → nprog)
    : nprog :=
  if present then NGet k cont else cont VUndef.

Fixpoint es_reverse_loop (n lower len : nat) (this : ref) : nprog :=
  match n with
  | 0 => NRet (VRef this)
  | S n' =>
      let upper := len - lower - 1 in
      let next := es_reverse_loop n' (S lower) len this in
      NHas (KIdx lower) (λ lowerExists,
        get_if lowerExists (KIdx lower) (λ lowerValue,
          NHas (KIdx upper) (λ upperExists,
            get_if upperExists (KIdx upper) (λ upperValue,
              match lowerExists, upperExists with
              | true, true =>
                  NSet (KIdx lower) upperValue
                    (NSet (KIdx upper) lowerValue next)
              | false, true =>
                  NSet (KIdx lower) upperValue (NDelete (KIdx upper) next)
              | true, false =>
                  NDelete (KIdx lower) (NSet (KIdx upper) lowerValue next)
              | false, false => next
              end))))
  end.

Definition es_reverse (this : ref) : nprog :=
  NGet (KStr "length") (λ v,
    es_reverse_loop (to_length v / 2) 0 (to_length v) this).

Fixpoint es_unshift_loop (k argCount : nat) (cont : nprog) : nprog :=
  match k with
  | 0 => cont
  | S from =>
      NHas (KIdx from) (λ fromPresent,
        if fromPresent
        then NGet (KIdx from) (λ fromValue,
               NSet (KIdx (from + argCount)) fromValue
                 (es_unshift_loop from argCount cont))
        else NDelete (KIdx (from + argCount))
               (es_unshift_loop from argCount cont))
  end.

Fixpoint es_unshift_items (j : nat) (items : list value) (cont : nprog)
    : nprog :=
  match items with
  | [] => cont
  | x :: rest => NSet (KIdx j) x (es_unshift_items (S j) rest cont)
  end.

Definition es_unshift (items : list value) : nprog :=
  NGet (KStr "length") (λ v,
    let len := to_length v in
    let argCount := length items in
    let finish :=
      NSet (KStr "length") (VNum (Z.of_nat (len + argCount)))
        (NRet (VNum (Z.of_nat (len + argCount)))) in
    match items with
    | [] => finish
    | _ =>
        if decide (2 ^ 53 - 1 < Z.of_nat len + Z.of_nat argCount)%Z
        then NThrow TypeError
        else es_unshift_loop len argCount (es_unshift_items 0 items finish)
    end).

(** The host of the scenarios: the mutators that work on the receiver alone.
    [splice], which allocates its result array, and [sort], which calls a
    comparator, are not given; no scenario calls them, and the properties of
    the runtime are stated for every host. *)
Definition host_native (m : string) (this : ref) (args : list value)
    : nprog :=
  if decide (m = "push") then es_push args
  else if decide (m = "pop") then es_pop
  else if decide (m = "shift") then es_shift
  else if decide (m = "unshift") then es_unshift args
  else if decide (m = "reverse") then es_reverse this
  else NThrow TypeError.

Definition array_of (l : list value) : obj :=
  {| is_array := true;
     props := <[KStr "length" := VNum (Z.of_nat (length l))]>
                (list_to_map (imap (λ i v, (KIdx i, v)) l)) |}.

Definition record_of (l : list (string * value)) : obj :=
  {| is_array := false;
     props := list_to_map (map (λ kv, (KStr kv.1, kv.2)) l) |}.

(** The heap is the same and the proxy cache has only grown. *)
Definition extends (st st' : state) : Prop :=
  heap st' = heap st ∧
  ∀ o p, proxyCache st !! o = Some p → proxyCache st' !! o = Some p.

(** Every proxy in the reference was made before the [n]-th. *)
Fixpoint allocated (n : nat) (r : ref) : Prop :=
  match r with
  | Obj _ => True
  | Prx id _ t => id < n ∧ allocated n t
  end.

(** An existing reference without parent linkage stays without. *)
Definition unlinked (p : ref) (st st' : state) : Prop :=
  next_id st ≤ next_id st' ∧
  (allocated (next_id st) p → proxyParentMap st !! p = None →
   proxyParentMap st' !! p = None).

(** The parent linkage of an existing reference does not change. *)
Definition linkage_kept (p : ref) (st st' : state) : Prop :=
  next_id st ≤ next_id st' ∧
  (allocated (next_id st) p →
   proxyParentMap st' !! p = proxyParentMap st !! p).

(** Every subscriber held in some forward set. *)
Definition graph_subs (st : state) : list sub :=
  mjoin ((λ td, mjoin ((λ kl, kl.2) <$> map_to_list td.2))
           <$> map_to_list (targetMap st)).

(** *** Scenario: one record, free-standing effects reading [.a] *)

Definition ka : key := KStr "a".
Definition kb : key := KStr "b".
Definition kc : key := KStr "c".
Definition kflag : key := KStr "flag".
Definition kitems : key := KStr "items".
Definition klength : key := KStr "length".

Definition heap_a : gmap nat obj := {[ 0 := record_of [("a", VNum 1)] ]}.

(** The wrapper [createState] makes first in a fresh module state, for a
    record at address 0. *)
Definition w0 : ref := Prx 0 false (Obj 0).

(** [() => { state.a }] *)
Definition read_a (w : ref) : prog := PGet w ka (λ _, PRet).

(** [() => { if (state.a !== 1) throw "boom" }] *)
Definition guard_a (w : ref) : prog :=
  PGet w ka (λ v,
    if strict_eq v (VNum 1) then PRet else PThrow (UserError (VStr "boom"))).

(** [const state = createState({a: 1}); effect(() => { state.a })] *)
Definition st_one : state :=
  (run_prog host_native
     (PCreateState (Obj 0) None None (λ w, PEffect (read_a w) (λ _, PRet)))
     (init heap_a)).2.

(** [state.a = 2] performed at top level on [st_one]. *)
Definition st_one_written : state :=
  (run_prog host_native (PSet w0 ka (VNum 2) PRet) st_one).2.

(** The same with a throwing effect created first: subscriber 0 guards,
    subscriber 1 reads. *)
Definition st_two : state :=
  (run_prog host_native
     (PCreateState (Obj 0) None None (λ w,
        PEffect (guard_a w) (λ _, PEffect (read_a w) (λ _, PRet))))
     (init heap_a)).2.

(** [state.a = 2] performed at top level on [st_two]. *)
Definition st_two_written : state :=
  (run_prog host_native (PSet w0 ka (VNum 2) PRet) st_two).2.

(** *** Scenario: three properties read by one effect *)

Definition heap_abc : gmap nat obj :=
  {[ 0 := record_of [("a", VNum 1); ("b", VNum 2); ("c", VNum 3)] ]}.

Definition read_abc (w : ref) : prog :=
  PGet w ka (λ _, PGet w kb (λ _, PGet w kc (λ _, PRet))).

Definition st_abc : state :=
  (run_prog host_native
     (PCreateState (Obj 0) None None (λ w, PEffect (read_abc w) (λ _, PRet)))
     (init heap_abc)).2.

Definition three_writes : list (ref * key * value) :=
  [(w0, ka, VNum 10); (w0, kb, VNum 20); (w0, kc, VNum 30)].

(** *** Scenario: an effect whose reads depend on a flag *)

Definition heap_flag : gmap nat obj :=
  {[ 0 := record_of [("flag", VBool true); ("a", VNum 1); ("b", VNum 2)] ]}.

(** [() => { state.flag ? state.a : state.b }] *)
Definition read_by_flag (w : ref) : prog :=
  PGet w kflag (λ f,
    match f with
    | VBool true => PGet w ka (λ _, PRet)
    | _ => PGet w kb (λ _, PRet)
    end).

(** The effect has run once with the flag set, then [state.flag = false]. *)
Definition st_flag : state :=
  (run_prog host_native
     (PCreateState (Obj 0) None None (λ w,
        PEffect (read_by_flag w) (λ _, PSet w kflag (VBool false) PRet)))
     (init heap_flag)).2.

(** *** Scenario: the same body as a scoped effect

    [const state = createState({flag: true, a: 1, b: 2})], the scoped effect
    [createEffect(() => { state.flag ? state.a : state.b })] mounted, then
    [state.flag = false]. *)
Definition st_flag_mounted : state :=
  (reactiveEffectFn host_native (read_by_flag w0)
     (run_prog host_native (PCreateState (Obj 0) None None (λ _, PRet))
        (init heap_flag)).2).2.

Definition st_flag_flipped : state :=
  (run_prog host_native (PSet w0 kflag (VBool false) PRet) st_flag_mounted).2.

(** *** Scenario: a root array watched through its length *)

Definition heap_seq : gmap nat obj :=
  {[ 0 := array_of [VNum 1; VNum 2; VNum 3] ]}.

Definition wseq : ref := Prx 0 true (Obj 0).

(** [const list = createState([1, 2, 3]); effect(() => { list.length })] *)
Definition st_seq : state :=
  (run_prog host_native
     (PCreateState (Obj 0) None None (λ w,
        PEffect (PGet w klength (λ _, PRet)) (λ _, PRet)))
     (init heap_seq)).2.

(** [list.push(4)] at top level. *)
Definition st_seq_pushed : state :=
  (run_prog host_native (PCall wseq "push" [VNum 4] (λ _, PRet)) st_seq).2.

(** *** Scenario: an array wrapped as a root, then reached through a record *)

Definition heap_items : gmap nat obj :=
  {[ 0 := array_of [VNum 1; VNum 2];
     1 := record_of [("items", VRef (Obj 0))] ]}.

Definition wrec : ref := Prx 1 false (Obj 1).

(** [const list = createState(arr); const state = createState({items: arr});
    effect(() => { state.items })] *)
Definition st_root_first : state :=
  (run_prog host_native
     (PCreateState (Obj 0) None None (λ _,
        PCreateState (Obj 1) None None (λ s,
          PEffect (PGet s kitems (λ _, PRet)) (λ _, PRet))))
     (init heap_items)).2.

(** *** Scenario: an effect created inside another effect's body *)

(** [effect(() => { effect(() => {}); state.a })] *)
Definition st_nested : state :=
  (run_prog host_native
     (PCreateState (Obj 0) None None (λ w,
        PEffect (PEffect PRet (λ _, read_a w)) (λ _, PRet)))
     (init heap_a)).2.

(** *** Scenario: an array first reached through a record *)

(** [const state = createState({items: [1, 2]}); effect(() => { state.items })]:
    the record's wrapper is proxy 0, the nested array's is proxy 1. *)
Definition st_nested_first : state :=
  (run_prog host_native
     (PCreateState (Obj 1) None None (λ s,
        PEffect (PGet s kitems (λ _, PRet)) (λ _, PRet)))
     (init heap_items)).2.

Definition witems : ref := Prx 1 true (Obj 0).

(** *** Scenario: a scoped effect reading [.a], mounted *)

(** [const state = createState({a: 1})] *)
Definition st_wrapped : state :=
  (run_prog host_native (PCreateState (Obj 0) None None (λ _, PRet))
     (init heap_a)).2.

(** The scoped effect [createEffect(() => { state.a })] after its mount. *)
Definition st_mounted : state :=
  (reactiveEffectFn host_native (read_a w0) st_wrapped).2.

(** [const state = createState({items: [1, 2]})], nothing read yet. *)
Definition st_items_wrapped : state :=
  (run_prog host_native (PCreateState (Obj 1) None None (λ _, PRet))
     (init heap_items)).2.

(** [state.a = 2] at top level after the mount. *)
Definition st_mounted_written : state :=
  (run_prog host_native (PSet w0 ka (VNum 2) PRet) st_mounted).2.

(** The record's wrapper in [st_nested_first]. *)
Definition wrec_first : ref := Prx 0 false (Obj 1).

(** A native method that throws, as [sort] does when its comparator
    throws. *)
Definition throwing_native (m : string) (this : ref) (args : list value)
    : nprog :=
  NThrow (UserError (VStr "compare")).

(** *** Scenario: objects to compare *)

(** Two records [{a: 1, b: 2}], the array-like record [{0: "x", length: 2}]
    and the array [["x", "y"]]. *)
Definition heap_pair : gmap nat obj :=
  {[ 0 := record_of [("a", VNum 1); ("b", VNum 2)];
     1 := record_of [("a", VNum 1); ("b", VNum 2)];
     2 := {| is_array := false;
             props := {[ KIdx 0 := VStr "x"; KStr "length" := VNum 2 ]} |};
     3 := array_of [VStr "x"; VStr "y"] ]}.

(** * Properties *)

(** ** Insertion-ordered sets and the forward index *)

Lemma elem_of_set_add e x l : x ∈ set_add e l ↔ x = e ∨ x ∈ l.
Proof.
  unfold set_add. destruct (decide (e ∈ l)).
  - split; [auto | intros [-> |]; auto].
  - rewrite elem_of_app, list_elem_of_singleton. tauto.
Qed.

Lemma NoDup_set_add e l : NoDup l → NoDup (set_add e l).
Proof.
  intros H. unfold set_add. destruct (decide (e ∈ l)); [done |].
  apply NoDup_app. split_and!; [done | | apply NoDup_singleton].
  intros x Hx Hx'. apply list_elem_of_singleton in Hx'. by subst.
Qed.

Lemma set_add_prefix e l : l `prefix_of` set_add e l.
Proof.
  unfold set_add. destruct (decide (e ∈ l)); [done |]. by apply prefix_app_r.
Qed.

Lemma elem_of_set_delete e x l : x ∈ set_delete e l ↔ x ≠ e ∧ x ∈ l.
Proof. unfold set_delete. by rewrite list_elem_of_filter. Qed.

Lemma lookup_deps_insert tm t k l dm t' k' :
  dm = default ∅ (tm !! t) →
  lookup_deps (<[t := <[k := l]> dm]> tm) t' k' =
  if decide ((t, k) = (t', k')) then l else lookup_deps tm t' k'.
Proof.
  intros ->. unfold lookup_deps. destruct (decide (t = t')) as [-> | Ht].
  - rewrite lookup_insert_eq. simpl. destruct (decide (k = k')) as [-> | Hk].
    + rewrite lookup_insert_eq. by rewrite decide_True.
    + rewrite lookup_insert_ne by done. rewrite decide_False by congruence.
      by destruct (tm !! t').
  - rewrite lookup_insert_ne by done. by rewrite decide_False by congruence.
Qed.

Lemma lookup_deps_remove_dep e tm d t k :
  lookup_deps (remove_dep e tm d) t k =
  if decide (d = (t, k)) then set_delete e (lookup_deps tm t k)
  else lookup_deps tm t k.
Proof.
  destruct d as [t0 k0]. unfold remove_dep. simpl.
  destruct (tm !! t0) as [dm |] eqn:Et.
  - destruct (dm !! k0) as [l |] eqn:Ek.
    + rewrite lookup_deps_insert by by rewrite Et.
      case_decide as Hd; [| done].
      injection Hd as <- <-. unfold lookup_deps. by rewrite Et; simpl; rewrite Ek.
    + case_decide as Hd; [| done]. injection Hd as <- <-.
      unfold lookup_deps. by rewrite Et; simpl; rewrite Ek.
  - case_decide as Hd; [| done]. injection Hd as <- <-.
    unfold lookup_deps. by rewrite Et.
Qed.

Lemma lookup_deps_subscribe r tm d t k :
  lookup_deps (subscribe r tm d) t k =
  if decide (d = (t, k)) then set_add r (lookup_deps tm t k)
  else lookup_deps tm t k.
Proof.
  destruct d as [t0 k0]. unfold subscribe. simpl.
  rewrite lookup_deps_insert by done. case_decide as Hd; [| done].
  injection Hd as <- <-. unfold lookup_deps. by destruct (tm !! t0).
Qed.

Lemma elem_of_foldl_remove_dep e deps tm t k x :
  x ∈ lookup_deps (foldl (remove_dep e) tm deps) t k ↔
  x ∈ lookup_deps tm t k ∧ (x ≠ e ∨ (t, k) ∉ deps).
Proof.
  revert tm. induction deps as [| d deps IH]; intros tm; simpl.
  - split; [intros H; split; [done | right; apply not_elem_of_nil] | tauto].
  - rewrite IH, lookup_deps_remove_dep, not_elem_of_cons.
    case_decide as Hd.
    + rewrite elem_of_set_delete. subst d. tauto.
    + assert ((t, k) ≠ d) by congruence. tauto.
Qed.

Lemma forward_track t k st e t' k' :
  activeEffect st = Some e →
  forward (track t k st) t' k' =
  if decide ((t, k) = (t', k')) then set_add e (forward st t k)
  else forward st t' k'.
Proof.
  intros Ha. unfold track, forward. rewrite Ha. simpl.
  rewrite lookup_deps_insert by done. case_decide; [| done].
  unfold lookup_deps. by destruct (targetMap st !! t).
Qed.

Lemma track_inactive t k st : activeEffect st = None → track t k st = st.
Proof. intros Ha. unfold track. by rewrite Ha. Qed.

Lemma elem_of_forward_cleanup e st t k x :
  x ∈ forward (cleanup e st) t k ↔
  x ∈ forward st t k ∧ (x ≠ e ∨ (t, k) ∉ reverse st e).
Proof.
  unfold cleanup, forward, reverse.
  destruct (effectDepsMap st !! e) as [deps |]; simpl.
  - apply elem_of_foldl_remove_dep.
  - split; [intros H; split; [done | right; apply not_elem_of_nil] | tauto].
Qed.

Lemma reverse_cleanup e st e' :
  reverse (cleanup e st) e' = if decide (e = e') then [] else reverse st e'.
Proof.
  unfold cleanup, reverse.
  destruct (effectDepsMap st !! e) as [deps |] eqn:E; simpl.
  - case_decide as Hd; [subst; by rewrite lookup_insert_eq |].
    by rewrite lookup_insert_ne.
  - case_decide as Hd; [subst; by rewrite E | done].
Qed.

Lemma runs_app ev1 ev2 : runs (ev1 ++ ev2) = runs ev1 ++ runs ev2.
Proof. apply omap_app. Qed.

(** [trigger] hands the forward set at (target, key) to [queueEffect], in
    order. *)
Lemma trigger_forward t k st :
  trigger t k st = foldl (λ s e, queueEffect e s) st (forward st t k).
Proof.
  unfold trigger, forward, lookup_deps.
  destruct (targetMap st !! t) as [dm |]; simpl; [| done].
  by destruct (dm !! k).
Qed.

Lemma createState_cases o pa k st :
  (createState o pa k st).2 = st ∨
  ∃ n pc pp, (createState o pa k st).2 = set_proxies n pc pp st.
Proof.
  unfold createState. destruct (proxyCache st !! o); simpl; eauto.
Qed.

Lemma createState_respects (R : state → state → Prop) :
  (∀ st, R st st) → (∀ n pc pp st, R st (set_proxies n pc pp st)) →
  ∀ o pa k st, R st (createState o pa k st).2.
Proof.
  intros Hrefl Hp o pa k st.
  destruct (createState_cases o pa k st) as [-> | (n & pc & pp & ->)]; auto.
Qed.

Lemma trigger_respects (R : state → state → Prop) :
  (∀ st, R st st) → (∀ st1 st2 st3, R st1 st2 → R st2 st3 → R st1 st3) →
  (∀ e st, R st (queueEffect e st)) →
  ∀ t k st, R st (trigger t k st).
Proof.
  intros Hrefl Htrans Hq t k st. rewrite trigger_forward.
  generalize (forward st t k). intros l. revert st.
  induction l as [| e l IH]; intros st; simpl; [done |].
  eapply Htrans; [apply Hq | apply IH].
Qed.

Section Properties.

Variable native : string → ref → list value → nprog.

(** ** Stepwise relations are preserved by client code

    A preorder on states that every elementary update respects relates the
    state before any library call, and any client program, to the state
    after it. *)
Section Preserve.

Variable R : state → state → Prop.
Hypothesis R_refl : ∀ st, R st st.
Hypothesis R_trans : ∀ st1 st2 st3, R st1 st2 → R st2 st3 → R st1 st3.
Hypothesis R_heap : ∀ h st, R st (set_heap h st).
Hypothesis R_read : ∀ t k st, R st (track t k (log_read t k st)).
Hypothesis R_trigger : ∀ t k st, R st (trigger t k st).
Hypothesis R_create : ∀ o pa k st, R st (createState o pa k st).2.
Hypothesis R_none : ∀ st, R st (set_activeEffect None st).
Hypothesis R_restore : ∀ st st2,
  R (set_activeEffect None st) st2 →
  R st (set_activeEffect (activeEffect st) st2).
Hypothesis R_dispose : ∀ d st, R st (dispose d st).
Hypothesis R_begin : ∀ c st,
  R st (set_activeEffect (Some (next_sub st))
          (cleanup (next_sub st)
             (log_run (next_sub st) (alloc_sub c st)))).
Hypothesis R_register : ∀ x st, R st (set_activeComponentEffects x st).

Lemma R_js_get r k st : R st (js_get r k st).2.
Proof using R_refl R_trans R_create R_read.
  revert st. induction r as [a | id b t IH]; intros st; simpl; [done |].
  destruct (b && in_arrayInstrumentations k); simpl; [done |].
  specialize (IH st). destruct (js_get t k st) as [v st1]. simpl in IH.
  pose proof (R_read t k st1) as Hr.
  destruct (as_object v) as [o |]; simpl.
  - pose proof (R_create o (Some t) (Some k)
                  (track t k (log_read t k st1))) as Hc.
    destruct (createState o (Some t) (Some k) _) as [p st3]. simpl in *.
    eauto.
  - eauto.
Qed.

Lemma R_raw_set a k v st : R st (raw_set a k v st).2.
Proof using R_refl R_heap.
  unfold raw_set. destruct (define_own k v _); simpl; [apply R_heap | done].
Qed.

Lemma R_js_set r k v st : R st (js_set r k v st).2.
Proof using R_refl R_trans R_create R_read R_heap R_trigger.
  revert st. induction r as [a | id b t IH]; intros st; simpl.
  - apply R_raw_set.
  - pose proof (R_js_get t k st) as Hg.
    destruct (js_get t k st) as [old st1]. simpl in Hg.
    specialize (IH st1).
    destruct (js_set t k v st1) as [[res | e] st2]; simpl in *; [| eauto].
    destruct (strict_eq old v); [eauto |].
    eauto.
Qed.

Lemma R_assign r k v st : R st (assign r k v st).2.
Proof using R_refl R_trans R_create R_read R_heap R_trigger.
  unfold assign. pose proof (R_js_set r k v st) as H.
  destruct (js_set r k v st) as [[[|] | e] st1]; done.
Qed.

Lemma R_js_delete r k st : R st (js_delete r k st).2.
Proof using R_refl R_heap.
  induction r as [a | id b t IH]; simpl; [| done].
  unfold raw_delete. destruct (_ && _); simpl; [done | apply R_heap].
Qed.

Lemma R_delete_property r k st : R st (delete_property r k st).2.
Proof using R_refl R_heap.
  unfold delete_property. pose proof (R_js_delete r k st) as H.
  destruct (js_delete r k st) as [[|] st1]; done.
Qed.

Lemma R_run_nprog this p st : R st (run_nprog this p st).2.
Proof using R_refl R_trans R_create R_read R_heap R_trigger.
  revert st. induction p as [v | e | k cont IH | k v cont IH | k cont IH
                             | k cont IH]; intros st; simpl; try done.
  - pose proof (R_js_get this k st) as Hg.
    destruct (js_get this k st) as [v st1]. simpl in Hg.
    eapply R_trans; [exact Hg | apply IH].
  - pose proof (R_assign this k v st) as Hs.
    destruct (assign this k v st) as [[u | e] st1]; simpl in *; [| done].
    eapply R_trans; [exact Hs | apply IH].
  - pose proof (R_delete_property this k st) as Hd.
    destruct (delete_property this k st) as [[u | e] st1]; simpl in *;
      [| done].
    eapply R_trans; [exact Hd | apply IH].
Qed.

Lemma R_instrumented m this args st :
  R st (instrumented native m this args st).2.
Proof using R_refl R_trans R_create R_read R_heap R_trigger R_none R_restore.
  unfold instrumented.
  pose proof (R_run_nprog this (native m this args) (set_activeEffect None st))
    as Hn.
  destruct (run_nprog this _ _) as [[res | e] st2]; simpl in *;
    [| eapply R_trans; [apply R_none | exact Hn]].
  set (st3 := set_activeEffect (activeEffect st) st2).
  assert (R st st3) as H3 by (apply R_restore, Hn).
  set (st4 := trigger this (KStr m) st3).
  assert (R st st4) as H4 by (pose proof (R_trigger this (KStr m) st3); eauto).
  set (st5 := trigger this (KStr "length") st4).
  assert (R st st5) as H5
    by (pose proof (R_trigger this (KStr "length") st4); eauto).
  destruct (proxyParentMap st5 !! this) as [[pa k] |]; [| done].
  pose proof (R_trigger pa k st5). eauto.
Qed.

Lemma R_call_function f this args st :
  R st (call_function native f this args st).2.
Proof using R_refl R_trans R_create R_read R_heap R_trigger R_none R_restore.
  destruct f as [| | | | | | | [m | m | m]]; simpl;
    auto using R_instrumented, R_run_nprog.
Qed.

Lemma R_effect {A} (run : state → outcome A * state) fn st :
  (∀ s, R s (run s).2) → R st (effect run fn st).2.
Proof using R_trans R_none R_begin.
  intros Hrun. unfold effect, execute.
  pose proof (R_begin (CExecute fn) st) as Hb.
  set (st2 := set_activeEffect (Some (next_sub st)) _) in *.
  specialize (Hrun st2).
  destruct (run st2) as [[a | x] st3]; simpl in *;
    pose proof (R_none st3); eauto.
Qed.

Lemma R_createEffect fn st : R st (createEffect fn st).2.
Proof using R_refl R_register.
  unfold createEffect. destruct (activeComponentEffects st); simpl; [| done].
  apply R_register.
Qed.

Theorem R_run_prog p st : R st (run_prog native p st).2.
Proof using All.
  revert st.
  induction p as [| c IHc | e | o k cont IH | o k v cont IH | o k cont IH
                  | o m args cont IH | o pa k cont IH | fn IHfn cont IH
                  | d cont IH | fn IHfn cont IH | body IHb cont IH];
    intros st; simpl; try done.
  - pose proof (R_js_get o k st) as Hg.
    destruct (js_get o k st) as [v st1]. simpl in Hg.
    eapply R_trans; [exact Hg | apply IH].
  - pose proof (R_assign o k v st) as Hs.
    destruct (assign o k v st) as [[u | e] st1]; simpl in *; [| done].
    eapply R_trans; [exact Hs | apply IH].
  - pose proof (R_delete_property o k st) as Hd.
    destruct (delete_property o k st) as [[u | e] st1]; simpl in *; [| done].
    eapply R_trans; [exact Hd | apply IH].
  - pose proof (R_js_get o (KStr m) st) as Hg.
    destruct (js_get o (KStr m) st) as [f st1]. simpl in Hg.
    pose proof (R_call_function f o args st1) as Hc.
    destruct (call_function native f o args st1) as [[v | e] st2];
      simpl in *; [| eauto].
    eapply R_trans; [| apply IH]. eauto.
  - pose proof (R_create o pa k st) as Hc.
    destruct (createState o pa k st) as [p st1]. simpl in Hc.
    eapply R_trans; [exact Hc | apply IH].
  - pose proof (R_effect (run_prog native fn) fn st IHfn) as He.
    destruct (effect (run_prog native fn) fn st) as [[d | e] st1];
      simpl in *; [| done].
    eapply R_trans; [exact He | apply IH].
  - eapply R_trans; [apply R_dispose | apply IH].
  - pose proof (R_createEffect fn st) as Hc.
    destruct (createEffect fn st) as [[u | e] st1]; simpl in *; [| done].
    eapply R_trans; [exact Hc | apply IH].
  - specialize (IHb st).
    destruct (run_prog native body st) as [[r | e] st1]; simpl in *;
      (eapply R_trans; [exact IHb | apply IH]).
Qed.

Section Flush.

Hypothesis R_log_run : ∀ e st, R st (log_run e st).
Hypothesis R_rerun : ∀ e st,
  R st (set_activeEffect (Some e) (cleanup e (log_run e st))).
Hypothesis R_set_cleanup : ∀ r fn c st, R st (set_cleanup r fn c st).

Lemma R_call_sub e st : R st (call_sub native e st).2.
Proof using All.
  unfold call_sub. pose proof (R_log_run e st) as H0.
  destruct (closures (log_run e st) !! e) as [[fn | fn c] |]; simpl;
    [| | done].
  - unfold execute. pose proof (R_rerun e st) as Hb.
    set (st2 := set_activeEffect (Some e) _) in *.
    pose proof (R_run_prog fn st2) as Hr.
    destruct (run_prog native fn st2) as [[r | x] st3]; simpl in *;
      pose proof (R_none st3); eauto.
  - eapply R_trans; [exact H0 |]. unfold effectRunner, run_cleanup.
    destruct c as [c |].
    + pose proof (R_run_prog c (log_run e st)) as H1.
      destruct (run_prog native c (log_run e st)) as [[r | x] s1];
        simpl in *; [| done].
      pose proof (R_run_prog fn s1) as H2.
      destruct (run_prog native fn s1) as [[r' | x] s2]; simpl in *; eauto.
    + pose proof (R_run_prog fn (log_run e st)) as H2.
      destruct (run_prog native fn (log_run e st)) as [[r' | x] s2];
        simpl in *; eauto.
Qed.

Lemma R_run_batch l st : R st (run_batch native l st).2.
Proof using All.
  revert st. induction l as [| e l IH]; intros st; simpl; [done |].
  pose proof (R_call_sub e st) as H.
  destruct (call_sub native e st) as [[u | x] st1]; simpl in *; [| done].
  eapply R_trans; [exact H | apply IH].
Qed.

End Flush.

End Preserve.

(** ** Fields the elementary updates leave alone *)

Lemma trace_track t k st : trace (track t k st) = trace st.
Proof. unfold track. by destruct (activeEffect st). Qed.
Lemma next_sub_track t k st : next_sub (track t k st) = next_sub st.
Proof. unfold track. by destruct (activeEffect st). Qed.
Lemma scheduler_track t k st :
  pendingEffects (track t k st) = pendingEffects st ∧
  isFlushPending (track t k st) = isFlushPending st ∧
  microtasks (track t k st) = microtasks st.
Proof. unfold track. by destruct (activeEffect st). Qed.
Lemma activeEffect_track t k st :
  activeEffect (track t k st) = activeEffect st.
Proof. unfold track. by destruct (activeEffect st) eqn:E. Qed.

Lemma trace_cleanup e st : trace (cleanup e st) = trace st.
Proof. unfold cleanup. by destruct (effectDepsMap st !! e). Qed.
Lemma next_sub_cleanup e st : next_sub (cleanup e st) = next_sub st.
Proof. unfold cleanup. by destruct (effectDepsMap st !! e). Qed.
Lemma scheduler_cleanup e st :
  pendingEffects (cleanup e st) = pendingEffects st ∧
  isFlushPending (cleanup e st) = isFlushPending st ∧
  microtasks (cleanup e st) = microtasks st.
Proof. unfold cleanup. by destruct (effectDepsMap st !! e). Qed.
Lemma activeEffect_cleanup e st :
  activeEffect (cleanup e st) = activeEffect st.
Proof. unfold cleanup. by destruct (effectDepsMap st !! e). Qed.

Lemma trace_queueEffect e st :
  trace (queueEffect e st) = trace st ++ [EQueue e].
Proof. unfold queueEffect. simpl. by destruct (isFlushPending st). Qed.
Lemma next_sub_queueEffect e st : next_sub (queueEffect e st) = next_sub st.
Proof. unfold queueEffect. simpl. by destruct (isFlushPending st). Qed.
Lemma pending_queueEffect e st :
  pendingEffects (queueEffect e st) = set_add e (pendingEffects st).
Proof. unfold queueEffect. simpl. by destruct (isFlushPending st). Qed.
Lemma targetMap_queueEffect e st :
  targetMap (queueEffect e st) = targetMap st.
Proof. unfold queueEffect. simpl. by destruct (isFlushPending st). Qed.
Lemma flush_scheduled_queueEffect e st :
  isFlushPending (queueEffect e st) = true ∧
  (sched_ok st → 0 < microtasks (queueEffect e st)).
Proof.
  unfold queueEffect, sched_ok. simpl.
  destruct (isFlushPending st); simpl; split; auto with lia.
Qed.

(** ** Subscriber invocations recorded by client code

    Whatever client code does, the only subscriber functions it invokes are
    the [execute] closures it allocates itself, each once, at creation. *)

Lemma grows_same st st' :
  next_sub st' = next_sub st → trace st' = trace st → grows st st'.
Proof.
  intros Hn Ht. split; [lia |]. exists []. rewrite app_nil_r.
  split_and!; [done | constructor |]. intros e H. by apply elem_of_nil in H.
Qed.

Lemma grows_silent st st' x :
  next_sub st' = next_sub st → trace st' = trace st ++ [x] →
  runs [x] = [] → grows st st'.
Proof.
  intros Hn Ht Hx. split; [lia |]. exists [x]. rewrite Hx.
  split_and!; [done | constructor |]. intros e H. by apply elem_of_nil in H.
Qed.

Lemma grows_trans st1 st2 st3 : grows st1 st2 → grows st2 st3 → grows st1 st3.
Proof.
  intros [Hn1 (ev1 & Ht1 & Hd1 & Hf1)] [Hn2 (ev2 & Ht2 & Hd2 & Hf2)].
  split; [lia |]. exists (ev1 ++ ev2). rewrite runs_app.
  split_and!.
  - by rewrite Ht2, Ht1, app_assoc.
  - apply NoDup_app. split_and!; [done | | done].
    intros e He1 He2. apply Hf1 in He1. apply Hf2 in He2. lia.
  - intros e [He | He]%elem_of_app; [apply Hf1 in He | apply Hf2 in He]; lia.
Qed.

Lemma grows_run_prog p st : grows st (run_prog native p st).2.
Proof.
  apply R_run_prog.
  - intros s. by apply grows_same.
  - apply grows_trans.
  - intros h s. by apply grows_same.
  - intros t k s. eapply (grows_silent _ _ (ERead (activeEffect s) t k)).
    + by rewrite next_sub_track.
    + by rewrite trace_track.
    + done.
  - apply trigger_respects; [intros s; by apply grows_same | apply grows_trans |].
    intros e s. eapply (grows_silent _ _ (EQueue e)).
    + by rewrite next_sub_queueEffect.
    + by rewrite trace_queueEffect.
    + done.
  - apply createState_respects; intros; by apply grows_same.
  - intros s. by apply grows_same.
  - intros s s2 H. exact H.
  - intros [e] s. apply grows_same; simpl;
      [apply next_sub_cleanup | apply trace_cleanup].
  - intros c s. split; [simpl; rewrite next_sub_cleanup; simpl; lia |].
    exists [ERun (next_sub s)]. simpl. rewrite trace_cleanup, next_sub_cleanup.
    split_and!; [done | apply NoDup_singleton |].
    intros e He. apply list_elem_of_singleton in He. simpl. lia.
  - intros x s. by apply grows_same.
Qed.

Lemma grows_call_sub e st :
  let st' := (call_sub native e st).2 in
  next_sub st ≤ next_sub st' ∧
  ∃ ev, trace st' = trace st ++ ERun e :: ev ∧ NoDup (runs ev) ∧
        ∀ x, x ∈ runs ev → next_sub st ≤ x < next_sub st'.
Proof.
  assert (∀ s, grows (log_run e st) s →
               next_sub st ≤ next_sub s ∧
               ∃ ev, trace s = trace st ++ ERun e :: ev ∧ NoDup (runs ev) ∧
                     ∀ x, x ∈ runs ev → next_sub st ≤ x < next_sub s) as Hk.
  { intros s [Hn (ev & Ht & Hd & Hf)]. split; [done |]. exists ev.
    simpl in Ht. rewrite <- app_assoc in Ht. done. }
  simpl. unfold call_sub.
  destruct (closures (log_run e st) !! e) as [[fn | fn c] |]; simpl.
  - apply Hk. unfold execute.
    set (s2 := set_activeEffect (Some e) (cleanup e (log_run e st))).
    assert (grows (log_run e st) s2) as H2
      by (apply grows_same; unfold s2; simpl;
          [by rewrite next_sub_cleanup | by rewrite trace_cleanup]).
    pose proof (grows_run_prog fn s2) as H3.
    destruct (run_prog native fn s2) as [[r | x] s3]; simpl in *;
      (eapply grows_trans; [exact H2 |]);
      (eapply grows_trans; [exact H3 |]); by apply grows_same.
  - apply Hk. unfold effectRunner, run_cleanup.
    destruct c as [c |].
    + pose proof (grows_run_prog c (log_run e st)) as H1.
      destruct (run_prog native c (log_run e st)) as [[r | x] s1];
        simpl in *; [| done].
      pose proof (grows_run_prog fn s1) as H2.
      destruct (run_prog native fn s1) as [[r' | x] s2]; simpl in *.
      * eapply grows_trans; [exact H1 |]. eapply grows_trans; [exact H2 |].
        by apply grows_same.
      * eapply grows_trans; [exact H1 | exact H2].
    + pose proof (grows_run_prog fn (log_run e st)) as H2.
      destruct (run_prog native fn (log_run e st)) as [[r' | x] s2];
        simpl in *; [| done].
      eapply grows_trans; [exact H2 |]. by apply grows_same.
  - apply (Hk (log_run e st)). by apply grows_same.
Qed.

Lemma filter_none {A} (P : A → Prop) `{∀ x, Decision (P x)} (l : list A) :
  (∀ x, x ∈ l → ¬ P x) → filter P l = [].
Proof.
  induction l as [| x l IH]; intros Hl; [done |].
  rewrite filter_cons_False by (apply Hl; left).
  apply IH. intros y Hy. apply Hl. by right.
Qed.

Lemma filter_all {A} (P : A → Prop) `{∀ x, Decision (P x)} (l : list A) :
  (∀ x, x ∈ l → P x) → filter P l = l.
Proof.
  induction l as [| x l IH]; intros Hl; [done |].
  rewrite filter_cons_True by (apply Hl; left).
  f_equal. apply IH. intros y Hy. apply Hl. by right.
Qed.

(** One flush: the subscribers of the drawn batch are invoked in batch
    order, up to the first that throws; every other invocation is the first
    run of an effect created during the flush. *)
Lemma run_batch_trace l st b :
  b ≤ next_sub st → (∀ e, e ∈ l → e < b) →
  let st' := (run_batch native l st).2 in
  next_sub st ≤ next_sub st' ∧
  ∃ ev n, trace st' = trace st ++ ev ∧
          filter (λ e, e < b) (runs ev) = take n l ∧
          ((run_batch native l st).1 = Normal tt → n = length l) ∧
          NoDup (filter (λ e, b ≤ e) (runs ev)) ∧
          ∀ x, x ∈ runs ev → x < b ∨ next_sub st ≤ x < next_sub st'.
Proof.
  revert st. induction l as [| e l IH]; intros st Hb Hl; simpl.
  - split; [done |]. exists [], 0. rewrite app_nil_r.
    split_and!; [done | done | done | constructor |].
    intros x Hx. by apply elem_of_nil in Hx.
  - destruct (grows_call_sub e st) as (Hn1 & ev1 & Ht1 & Hd1 & Hf1).
    assert (e < b) as He by (apply Hl; left).
    assert (filter (λ x, x < b) (runs ev1) = []) as Hold1.
    { apply filter_none. intros x Hx. apply Hf1 in Hx. lia. }
    assert (filter (λ x, b ≤ x) (runs ev1) = runs ev1) as Hnew1.
    { apply filter_all. intros x Hx. apply Hf1 in Hx. lia. }
    destruct (call_sub native e st) as [[u | x] st1]; simpl in *.
    + destruct (IH st1) as (Hn2 & ev2 & n2 & Ht2 & Ho2 & Hc2 & Hd2 & Hf2);
        [lia | intros y Hy; apply Hl; by right |].
      split; [lia |]. exists (ERun e :: ev1 ++ ev2), (S n2).
      split_and!.
      * rewrite Ht2, Ht1, <- app_assoc. done.
      * change (runs (ERun e :: ev1 ++ ev2)) with (e :: runs (ev1 ++ ev2)).
        rewrite filter_cons_True by done. rewrite runs_app, filter_app.
        rewrite Hold1, Ho2. done.
      * intros Ho. f_equal. auto.
      * change (runs (ERun e :: ev1 ++ ev2)) with (e :: runs (ev1 ++ ev2)).
        rewrite filter_cons_False by lia. rewrite runs_app, filter_app, Hnew1.
        apply NoDup_app. split_and!; [done | | done].
        intros y Hy1 Hy2. apply Hf1 in Hy1.
        apply list_elem_of_filter in Hy2 as [Hy2 Hy3].
        apply Hf2 in Hy3. lia.
      * change (runs (ERun e :: ev1 ++ ev2)) with (e :: runs (ev1 ++ ev2)).
        rewrite runs_app. intros y Hy.
        apply elem_of_cons in Hy as [-> | Hy]; [by left |].
        apply elem_of_app in Hy as [Hy | Hy].
        -- apply Hf1 in Hy. right. lia.
        -- apply Hf2 in Hy. lia.
    + split; [done |]. exists (ERun e :: ev1), 1.
      change (runs (ERun e :: ev1)) with (e :: runs ev1).
      split_and!.
      * done.
      * rewrite filter_cons_True by done. rewrite Hold1. simpl.
        by destruct l.
      * done.
      * rewrite filter_cons_False by lia. by rewrite Hnew1.
      * intros y Hy. apply elem_of_cons in Hy as [-> | Hy]; [by left |].
        apply Hf1 in Hy. right. lia.
Qed.

(** Invocation counts in one flush, from the trace of the batch. *)
Lemma run_batch_counts l st e :
  NoDup l → (∀ x, x ∈ l → x < next_sub st) →
  let st' := (run_batch native l st).2 in
  ∃ ev, trace st' = trace st ++ ev ∧
        run_count e ev ≤ 1 ∧
        (e < next_sub st → e ∉ l → run_count e ev = 0) ∧
        ((run_batch native l st).1 = Normal tt → e ∈ l → run_count e ev = 1).
Proof.
  intros Hnd Hl.
  destruct (run_batch_trace l st (next_sub st)) as
    (Hn & ev & n & Ht & Ho & Hc & Hd & Hf); [done | done |].
  simpl. exists ev. split; [done |]. unfold run_count.
  destruct (decide (e < next_sub st)) as [He | He].
  - assert (filter (λ x, x = e) (runs ev) =
            filter (λ x, x = e) (take n l)) as ->.
    { rewrite <- Ho. rewrite list_filter_filter. apply list_filter_iff.
      intros x. split; [intros ->; done | tauto]. }
    assert (NoDup (take n l)) as Hnt.
    { exact (sublist_NoDup _ _ Hnd (sublist_take _ _)). }
    split_and!.
    + clear -Hnt. induction Hnt as [| x l' Hx Hnd IH]; [simpl; lia |].
      destruct (decide (x = e)) as [-> | Hxe].
      * rewrite filter_cons_True by done. simpl.
        rewrite filter_none; [simpl; lia |]. intros y Hy ->. done.
      * rewrite filter_cons_False by done. done.
    + intros _ Hnl. rewrite filter_none; [done |].
      intros x Hx ->. apply Hnl.
      apply elem_of_take in Hx as (i & Hi & _).
      by eapply list_elem_of_lookup_2.
    + intros Hok Hel. specialize (Hc Hok). subst n. rewrite take_ge by done.
      clear -Hnd Hel. induction Hnd as [| x l' Hx Hnd IH];
        [by apply elem_of_nil in Hel |].
      destruct (decide (x = e)) as [-> | Hxe].
      * rewrite filter_cons_True by done. simpl.
        rewrite filter_none; [done |]. intros y Hy ->. done.
      * rewrite filter_cons_False by done. apply IH.
        apply elem_of_cons in Hel as [-> | Hel]; done.
  - assert (filter (λ x, x = e) (runs ev) =
            filter (λ x, x = e) (filter (λ x, next_sub st ≤ x) (runs ev)))
      as ->.
    { rewrite list_filter_filter. apply list_filter_iff.
      intros x. split; [intros ->; split; [done | lia] | tauto]. }
    split_and!.
    + clear -Hd. induction Hd as [| x l' Hx Hnd IH]; [simpl; lia |].
      destruct (decide (x = e)) as [-> | Hxe].
      * rewrite filter_cons_True by done. simpl.
        rewrite filter_none; [simpl; lia |]. intros y Hy ->. done.
      * rewrite filter_cons_False by done. done.
    + intros. lia.
    + intros _ Hel. apply Hl in Hel. lia.
Qed.

(** ** What stays in the pending batch

    Nothing but [flushEffects] itself removes a subscriber from the pending
    set, the set never holds a subscriber twice, and a non-empty pending set
    always has its flush scheduled. *)

Lemma kept_same st st' ev :
  trace st' = trace st ++ ev → (∀ e, EQueue e ∉ ev) →
  pendingEffects st' = pendingEffects st →
  isFlushPending st' = isFlushPending st → microtasks st' = microtasks st →
  kept st st'.
Proof.
  intros Ht Hev Hp Hf Hm. exists ev. unfold batch_scheduled, sched_ok.
  rewrite Hp, Hf, Hm. split_and!; auto. intros e He. by apply Hev in He.
Qed.

Lemma kept_refl st : kept st st.
Proof.
  apply (kept_same st st []); auto using app_nil_r.
  intros e. apply not_elem_of_nil.
Qed.

Lemma kept_trans st1 st2 st3 : kept st1 st2 → kept st2 st3 → kept st1 st3.
Proof.
  intros (ev1 & Ht1 & Hp1 & Hq1 & Hd1 & Hs1) (ev2 & Ht2 & Hp2 & Hq2 & Hd2 & Hs2).
  exists (ev1 ++ ev2). split_and!; auto.
  - by rewrite Ht2, Ht1, app_assoc.
  - intros e [He | He]%elem_of_app; auto.
Qed.

Lemma kept_queueEffect e st : kept st (queueEffect e st).
Proof.
  exists [EQueue e]. rewrite trace_queueEffect, pending_queueEffect.
  split_and!; [done | | | apply NoDup_set_add |].
  - intros x Hx. apply elem_of_set_add. by right.
  - intros x Hx. apply list_elem_of_singleton in Hx. injection Hx as ->.
    apply elem_of_set_add. by left.
  - intros [_ Hs]. destruct (flush_scheduled_queueEffect e st) as [Hf Hm].
    split; [done |]. intros _. by apply Hm.
Qed.

Local Ltac kept_silent :=
  first [ apply kept_refl
        | eapply (kept_same _ _ []); simpl;
          [by rewrite app_nil_r | intros ?; apply not_elem_of_nil
          | done | done | done] ].

Lemma kept_track t k st : kept st (track t k (log_read t k st)).
Proof.
  destruct (scheduler_track t k (log_read t k st)) as (Hp & Hf & Hm).
  eapply (kept_same _ _ [ERead (activeEffect st) t k]); try done.
  - by rewrite trace_track.
  - intros e He. by apply list_elem_of_singleton in He.
Qed.

Lemma kept_cleanup e st : kept st (cleanup e st).
Proof.
  destruct (scheduler_cleanup e st) as (Hp & Hf & Hm).
  eapply (kept_same _ _ []); try done.
  - rewrite trace_cleanup. by rewrite app_nil_r.
  - intros x. apply not_elem_of_nil.
Qed.

Lemma kept_log_run e st : kept st (log_run e st).
Proof.
  eapply (kept_same _ _ [ERun e]); try done.
  intros x Hx. by apply list_elem_of_singleton in Hx.
Qed.

Lemma kept_begin c st :
  kept st (set_activeEffect (Some (next_sub st))
             (cleanup (next_sub st) (log_run (next_sub st) (alloc_sub c st)))).
Proof.
  apply (kept_trans _ (alloc_sub c st)); [kept_silent |].
  apply (kept_trans _ (log_run (next_sub st) (alloc_sub c st)));
    [apply kept_log_run |].
  apply (kept_trans _ (cleanup (next_sub st)
                         (log_run (next_sub st) (alloc_sub c st))));
    [apply kept_cleanup | kept_silent].
Qed.

Lemma kept_run_prog p st : kept st (run_prog native p st).2.
Proof.
  apply R_run_prog.
  - apply kept_refl.
  - apply kept_trans.
  - intros; kept_silent.
  - apply kept_track.
  - apply trigger_respects;
      [apply kept_refl | apply kept_trans | apply kept_queueEffect].
  - apply createState_respects; intros; kept_silent.
  - intros; kept_silent.
  - intros s s2 H. exact H.
  - intros [e] s. eapply kept_trans; [apply (kept_cleanup e) |]. kept_silent.
  - apply kept_begin.
  - intros; kept_silent.
Qed.

Lemma kept_run_batch l st : kept st (run_batch native l st).2.
Proof.
  apply R_run_batch.
  - apply kept_refl.
  - apply kept_trans.
  - intros; kept_silent.
  - apply kept_track.
  - apply trigger_respects;
      [apply kept_refl | apply kept_trans | apply kept_queueEffect].
  - apply createState_respects; intros; kept_silent.
  - intros; kept_silent.
  - intros s s2 H. exact H.
  - intros [e] s. eapply kept_trans; [apply (kept_cleanup e) |]. kept_silent.
  - apply kept_begin.
  - intros; kept_silent.
  - apply kept_log_run.
  - intros e s. apply (kept_trans _ (log_run e s)); [apply kept_log_run |].
    apply (kept_trans _ (cleanup e (log_run e s)));
      [apply kept_cleanup | kept_silent].
  - intros; kept_silent.
Qed.

(** ** Forward edges come from tracked reads *)

Lemma tracked_same e st st' ev :
  trace st' = trace st ++ ev →
  (∀ t k, e ∈ forward st' t k → e ∈ forward st t k) → tracked e st st'.
Proof. intros Ht Hf. exists ev. split; [done |]. auto. Qed.

Lemma tracked_refl e st : tracked e st st.
Proof. apply (tracked_same e st st []); [by rewrite app_nil_r | auto]. Qed.

Lemma tracked_trans e st1 st2 st3 :
  tracked e st1 st2 → tracked e st2 st3 → tracked e st1 st3.
Proof.
  intros (ev1 & Ht1 & Hf1) (ev2 & Ht2 & Hf2). exists (ev1 ++ ev2).
  split; [by rewrite Ht2, Ht1, app_assoc |].
  intros t k H. setoid_rewrite elem_of_app.
  apply Hf2 in H as [H | H]; [| auto]. apply Hf1 in H as [H | H]; auto.
Qed.

Lemma tracked_read e t k st : tracked e st (track t k (log_read t k st)).
Proof.
  exists [ERead (activeEffect st) t k]. split; [by rewrite trace_track |].
  intros t' k' H. destruct (activeEffect st) as [a |] eqn:Ha.
  - rewrite (forward_track _ _ _ a) in H by done.
    case_decide as Hd; [| by left]. injection Hd as <- <-.
    apply elem_of_set_add in H as [-> | H]; [right; by left | by left].
  - rewrite track_inactive in H by done. by left.
Qed.

Lemma tracked_queueEffect e x st : tracked e st (queueEffect x st).
Proof.
  apply (tracked_same _ _ _ [EQueue x]); [apply trace_queueEffect |].
  unfold forward. by rewrite targetMap_queueEffect.
Qed.

Lemma tracked_cleanup e x st : tracked e st (cleanup x st).
Proof.
  apply (tracked_same _ _ _ []); [by rewrite trace_cleanup, app_nil_r |].
  intros t k H. by apply elem_of_forward_cleanup in H as [H _].
Qed.

Local Ltac tracked_silent :=
  first [ apply tracked_refl
        | eapply (tracked_same _ _ _ []); simpl;
          [by rewrite app_nil_r | by auto] ].

Lemma tracked_run_prog e p st : tracked e st (run_prog native p st).2.
Proof.
  apply R_run_prog.
  - apply tracked_refl.
  - apply tracked_trans.
  - intros; tracked_silent.
  - apply tracked_read.
  - apply trigger_respects;
      [apply tracked_refl | apply tracked_trans | apply tracked_queueEffect].
  - apply createState_respects; intros; tracked_silent.
  - intros; tracked_silent.
  - intros s s2 H. exact H.
  - intros [x] s. eapply tracked_trans; [apply (tracked_cleanup e x) |].
    tracked_silent.
  - intros c s. apply (tracked_same _ _ _ [ERun (next_sub s)]).
    + simpl. by rewrite trace_cleanup.
    + intros t k H. by apply elem_of_forward_cleanup in H as [H _].
  - intros; tracked_silent.
Qed.

Lemma tracked_run_batch e l st : tracked e st (run_batch native l st).2.
Proof.
  apply R_run_batch.
  - apply tracked_refl.
  - apply tracked_trans.
  - intros; tracked_silent.
  - apply tracked_read.
  - apply trigger_respects;
      [apply tracked_refl | apply tracked_trans | apply tracked_queueEffect].
  - apply createState_respects; intros; tracked_silent.
  - intros; tracked_silent.
  - intros s s2 H. exact H.
  - intros [x] s. eapply tracked_trans; [apply (tracked_cleanup e x) |].
    tracked_silent.
  - intros c s. apply (tracked_same _ _ _ [ERun (next_sub s)]).
    + simpl. by rewrite trace_cleanup.
    + intros t k H. by apply elem_of_forward_cleanup in H as [H _].
  - intros; tracked_silent.
  - intros x s. by apply (tracked_same _ _ _ [ERun x]).
  - intros x s. apply (tracked_same _ _ _ [ERun x]).
    + simpl. by rewrite trace_cleanup.
    + intros t k H. by apply elem_of_forward_cleanup in H as [H _].
  - intros; tracked_silent.
Qed.

(** ** The mirror invariant *)

Lemma reverse_track t k st e :
  reverse (track t k st) e =
  if decide (activeEffect st = Some e) then reverse st e ++ [(t, k)]
  else reverse st e.
Proof.
  unfold track, reverse. destruct (activeEffect st) as [a |]; simpl.
  - case_decide as Hd.
    + injection Hd as ->. by rewrite lookup_insert_eq.
    + rewrite lookup_insert_ne by congruence. done.
  - done.
Qed.

Lemma mirror_read e t k st :
  mirror st e → mirror (track t k (log_read t k st)) e.
Proof.
  intros Hm t' k' H. rewrite reverse_track.
  change (activeEffect (log_read t k st)) with (activeEffect st).
  change (reverse (log_read t k st) e) with (reverse st e).
  destruct (activeEffect st) as [a |] eqn:Ha.
  - rewrite (forward_track _ _ _ a) in H by done.
    change (forward (log_read t k st)) with (forward st) in H.
    destruct (decide ((t, k) = (t', k'))) as [Hd | Hd].
    + injection Hd as <- <-. apply elem_of_set_add in H as [-> | H].
      * rewrite decide_True by done. apply elem_of_app. right. by left.
      * apply Hm in H.
        destruct (decide (Some a = Some e)); [apply elem_of_app; by left | done].
    + apply Hm in H.
      destruct (decide (Some a = Some e)); [apply elem_of_app; by left | done].
  - rewrite track_inactive in H by done. rewrite decide_False by done.
    by apply Hm.
Qed.

Lemma mirror_cleanup e x st : mirror st e → mirror (cleanup x st) e.
Proof.
  intros Hm t k H. apply elem_of_forward_cleanup in H as [H Hx].
  rewrite reverse_cleanup. case_decide as Hd.
  - subst x. destruct Hx as [Hx | Hx]; [done |]. by apply Hm in H.
  - by apply Hm.
Qed.

(** [cleanup] under the mirror invariant: no forward set holds [e]. *)
Lemma cleanup_clears e st t k : mirror st e → e ∉ forward (cleanup e st) t k.
Proof.
  intros Hm H. apply elem_of_forward_cleanup in H as [H [Hx | Hx]];
    [done |]. by apply Hm in H.
Qed.

Lemma mirror_dispose e d st : mirror st e → mirror (dispose d st) e.
Proof.
  destruct d as [x]. intros Hm t k H. unfold dispose in *.
  change (forward (set_graph _ _ (cleanup x st))) with
    (forward (cleanup x st)) in H.
  destruct (decide (x = e)) as [-> | Hne].
  - by apply cleanup_clears in H.
  - apply (mirror_cleanup e x) in Hm. apply Hm in H.
    unfold reverse in *. simpl. by rewrite lookup_delete_ne.
Qed.

Lemma mirror_queueEffect e x st : mirror st e → mirror (queueEffect x st) e.
Proof.
  intros Hm t k H. unfold forward, reverse in *.
  rewrite targetMap_queueEffect in H. apply Hm in H.
  unfold queueEffect. simpl. by destruct (isFlushPending st).
Qed.

Lemma mirror_run_prog e p st :
  mirror st e → mirror (run_prog native p st).2 e.
Proof.
  apply (R_run_prog (keeps (λ s, mirror s e))); unfold keeps.
  - auto.
  - auto.
  - auto.
  - intros t k s. apply mirror_read.
  - apply (trigger_respects (keeps (λ s, mirror s e))); unfold keeps;
      [auto | auto | intros x s; apply mirror_queueEffect].
  - apply (createState_respects (keeps (λ s, mirror s e))); unfold keeps;
      auto.
  - auto.
  - intros s s2 H. exact H.
  - intros d s. apply mirror_dispose.
  - intros c s Hm.
    exact (mirror_cleanup e (next_sub s)
             (log_run (next_sub s) (alloc_sub c s)) Hm).
  - auto.
Qed.

Lemma mirror_run_batch e l st :
  mirror st e → mirror (run_batch native l st).2 e.
Proof.
  apply (R_run_batch (keeps (λ s, mirror s e))); unfold keeps.
  - auto.
  - auto.
  - auto.
  - intros t k s. apply mirror_read.
  - apply (trigger_respects (keeps (λ s, mirror s e))); unfold keeps;
      [auto | auto | intros x s; apply mirror_queueEffect].
  - apply (createState_respects (keeps (λ s, mirror s e))); unfold keeps;
      auto.
  - auto.
  - intros s s2 H. exact H.
  - intros d s. apply mirror_dispose.
  - intros c s Hm.
    exact (mirror_cleanup e (next_sub s)
             (log_run (next_sub s) (alloc_sub c s)) Hm).
  - auto.
  - auto.
  - intros x s Hm. exact (mirror_cleanup e x (log_run x s) Hm).
  - auto.
Qed.

(** ** Claims on the interception layer *)

Lemma extends_refl st : extends st st.
Proof. by split. Qed.

Lemma extends_trans st1 st2 st3 :
  extends st1 st2 → extends st2 st3 → extends st1 st3.
Proof. intros [H1 H2] [H3 H4]. split; [congruence | auto]. Qed.

Lemma extends_track t k st : extends st (track t k (log_read t k st)).
Proof. unfold track. simpl. by destruct (activeEffect st). Qed.

Lemma extends_createState o pa k st : extends st (createState o pa k st).2.
Proof.
  unfold createState. destruct (proxyCache st !! o) as [p |] eqn:E; simpl;
    [apply extends_refl |].
  split; [done |]. simpl. intros o' p' H.
  rewrite lookup_insert_ne; [done |]. congruence.
Qed.

Lemma createState_cached o pa k st :
  proxyCache (createState o pa k st).2 !! o = Some (createState o pa k st).1.
Proof.
  unfold createState. destruct (proxyCache st !! o) as [p |] eqn:E; simpl;
    [done |]. by rewrite lookup_insert_eq.
Qed.

Lemma createState_hit o p pa k st :
  proxyCache st !! o = Some p → createState o pa k st = (p, st).
Proof. intros H. unfold createState. by rewrite H. Qed.

Lemma extends_js_get r k st : extends st (js_get r k st).2.
Proof.
  revert st. induction r as [a | id b t IH]; intros st; simpl;
    [apply extends_refl |].
  destruct (b && in_arrayInstrumentations k); simpl; [apply extends_refl |].
  specialize (IH st). destruct (js_get t k st) as [v st1]. simpl in IH.
  pose proof (extends_track t k st1) as Ht.
  destruct (as_object v) as [o |]; simpl.
  - pose proof (extends_createState o (Some t) (Some k)
                  (track t k (log_read t k st1))) as Hc.
    destruct (createState o (Some t) (Some k) _) as [p st3]. simpl in *.
    eauto using extends_trans.
  - eauto using extends_trans.
Qed.

Lemma raw_get_heap a k st st' : heap st' = heap st → raw_get a k st' = raw_get a k st.
Proof. intros H. unfold raw_get, get_obj. by rewrite H. Qed.

(** A read repeated later, with the heap untouched and the proxy cache only
    grown in between, yields the same value. *)
Lemma js_get_stable r k st st' :
  extends (js_get r k st).2 st' → (js_get r k st').1 = (js_get r k st).1.
Proof.
  revert st st'. induction r as [a | id b t IH]; intros st st' Hext; simpl.
  - simpl in Hext. apply raw_get_heap, Hext.
  - simpl in Hext.
    destruct (b && in_arrayInstrumentations k); simpl; [done |].
    pose proof (extends_js_get t k st') as Hg'.
    specialize (IH st st').
    destruct (js_get t k st) as [v st1]. simpl in *.
    pose proof (extends_track t k st1) as Ht.
    destruct (js_get t k st') as [v' st1']. simpl in *.
    destruct (as_object v) as [o |] eqn:Hv; simpl in *.
    + pose proof (extends_createState o (Some t) (Some k)
                    (track t k (log_read t k st1))) as Hc.
      pose proof (createState_cached o (Some t) (Some k)
                    (track t k (log_read t k st1))) as Hp.
      destruct (createState o (Some t) (Some k) _) as [p st3]. simpl in *.
      rewrite IH by eauto using extends_trans. rewrite Hv.
      pose proof (extends_track t k st1') as Ht'.
      assert (proxyCache (track t k (log_read t k st1')) !! o = Some p)
        as Hhit.
      { apply Ht', Hg', Hext, Hp. }
      by rewrite (createState_hit _ _ _ _ _ Hhit).
    + rewrite IH by eauto using extends_trans. by rewrite Hv.
Qed.

(** C3. Wrapping is idempotent per target: a repeated [createState] returns
    the wrapper of the first call and leaves every piece of bookkeeping as it
    was, whatever parent and key it is given; and two successive reads of one
    property through a wrapper return the same value, so a nested object is
    handed out as one and the same nested wrapper. *)
Theorem C3_identity_stability :
  (∀ o pa k pa' k' st,
     createState o pa' k' (createState o pa k st).2 =
     createState o pa k st) ∧
  (∀ w k st, (js_get w k (js_get w k st).2).1 = (js_get w k st).1).
Proof.
  split.
  - intros o pa k pa' k' st.
    rewrite (createState_hit _ _ _ _ _ (createState_cached o pa k st)).
    by destruct (createState o pa k st).
  - intros w k st. apply js_get_stable, extends_refl.
Qed.

(** C8. Outside an open registration context [createEffect] throws the usage
    error at once: the call itself returns the exception, client code after
    it does not run, and the state (the registration list included) is left
    exactly as it was. *)
Theorem C8_createEffect_outside_setup fn cont st :
  activeComponentEffects st = None →
  createEffect fn st =
    (Throw (UsageError
       "createEffect can only be called inside a reactive component setup"),
     st) ∧
  run_prog native (PCreateEffect fn cont) st =
    (Throw (UsageError
       "createEffect can only be called inside a reactive component setup"),
     st).
Proof.
  intros H. simpl. unfold createEffect. by rewrite H.
Qed.

(** C9. Deleting a property through a wrapper goes to the underlying plain
    object without passing through the dependency graph or the scheduler:
    targetMap, effectDepsMap, the pending set, the flush flag, the microtask
    queue, the active slot and the trace are all unchanged.  When the
    deletion succeeds the property is gone from the target; it fails only on
    an array's ["length"], and then nothing at all changes. *)
Theorem C9_delete_not_intercepted w k st :
  let b := (js_delete w k st).1 in
  let st' := (js_delete w k st).2 in
  (targetMap st' = targetMap st ∧ effectDepsMap st' = effectDepsMap st ∧
   pendingEffects st' = pendingEffects st ∧
   isFlushPending st' = isFlushPending st ∧ microtasks st' = microtasks st ∧
   activeEffect st' = activeEffect st ∧ trace st' = trace st) ∧
  (if b then props (get_obj (base w) st') !! k = None
   else st' = st ∧ k = KStr "length" ∧ is_array (get_obj (base w) st) = true).
Proof.
  induction w as [a | id b' t IH]; simpl; [| exact IH].
  unfold raw_delete.
  destruct (is_array (get_obj a st)) eqn:Ha; simpl.
  - destruct (bool_decide (k = KStr "length")) eqn:Hk; simpl.
    + apply bool_decide_eq_true in Hk. done.
    + split; [done |]. unfold get_obj. simpl. rewrite lookup_insert_eq.
      simpl. apply lookup_delete_eq.
  - split; [done |]. unfold get_obj. simpl. rewrite lookup_insert_eq.
    simpl. apply lookup_delete_eq.
Qed.

(** ** What a trigger does to the scheduler *)

Lemma sched_only_refl st : sched_only st st.
Proof.
  exists (pendingEffects st), (isFlushPending st), (microtasks st), (trace st).
  by destruct st.
Qed.

Lemma sched_only_trans st1 st2 st3 :
  sched_only st1 st2 → sched_only st2 st3 → sched_only st1 st3.
Proof.
  intros (p1 & f1 & m1 & t1 & ->) (p2 & f2 & m2 & t2 & ->).
  by exists p2, f2, m2, t2.
Qed.

Lemma sched_only_queueEffect e st : sched_only st (queueEffect e st).
Proof.
  unfold queueEffect. destruct (isFlushPending (log_queue e st)); by eexists _, _, _, _.
Qed.

Lemma sched_only_trigger t k st : sched_only st (trigger t k st).
Proof.
  apply trigger_respects.
  - apply sched_only_refl.
  - apply sched_only_trans.
  - apply sched_only_queueEffect.
Qed.

Lemma foldl_queue_spec l st :
  let st' := foldl (λ s e, queueEffect e s) st l in
  trace st' = trace st ++ map EQueue l ∧
  (∀ x, x ∈ pendingEffects st' ↔ x ∈ pendingEffects st ∨ x ∈ l) ∧
  (l ≠ [] → isFlushPending st' = true) ∧
  (sched_ok st → sched_ok st').
Proof.
  revert st. induction l as [| e l IH]; intros st; simpl.
  - rewrite app_nil_r. split_and!; [done | | done | done].
    intros x. rewrite elem_of_nil. tauto.
  - destruct (IH (queueEffect e st)) as (Ht & Hp & Hf & Hs).
    destruct (flush_scheduled_queueEffect e st) as [Hq Hm].
    split_and!.
    + rewrite Ht, trace_queueEffect, <- app_assoc. done.
    + intros x. rewrite Hp, pending_queueEffect, elem_of_set_add, elem_of_cons.
      tauto.
    + intros _. destruct l as [| e' l']; [done |]. by apply Hf.
    + intros Hok. apply Hs. intros _. by apply Hm.
Qed.

Lemma trigger_spec t k st :
  let st' := trigger t k st in
  trace st' = trace st ++ map EQueue (forward st t k) ∧
  (∀ x, x ∈ pendingEffects st' ↔
        x ∈ pendingEffects st ∨ x ∈ forward st t k) ∧
  (forward st t k ≠ [] → isFlushPending st' = true) ∧
  (sched_ok st → sched_ok st').
Proof. simpl. rewrite trigger_forward. apply foldl_queue_spec. Qed.

Lemma runs_map_EQueue l : runs (map EQueue l) = [].
Proof. by induction l. Qed.

Lemma trigger_frame t k st :
  let st' := trigger t k st in
  activeEffect st' = activeEffect st ∧ targetMap st' = targetMap st ∧
  effectDepsMap st' = effectDepsMap st ∧ heap st' = heap st ∧
  proxyParentMap st' = proxyParentMap st ∧ proxyCache st' = proxyCache st ∧
  next_id st' = next_id st ∧ next_sub st' = next_sub st ∧
  closures st' = closures st.
Proof. by destruct (sched_only_trigger t k st) as (p & f & m & tr & ->). Qed.

(** ** Instrumented array methods *)

Lemma chain_self r : r ∈ chain r.
Proof. destruct r; simpl; by left. Qed.

Lemma allocated_mono n n' r : n ≤ n' → allocated n r → allocated n' r.
Proof.
  intros Hn. induction r as [a | id b t IH]; simpl; [done |].
  intros [H1 H2]. split; [lia | auto].
Qed.

Lemma unlinked_refl p st : unlinked p st st.
Proof. by split. Qed.

Lemma unlinked_trans p st1 st2 st3 :
  unlinked p st1 st2 → unlinked p st2 st3 → unlinked p st1 st3.
Proof.
  intros [Hn1 H1] [Hn2 H2]. split; [lia |]. intros Ha Hp.
  apply H2; [by eapply allocated_mono | auto].
Qed.

Lemma unlinked_createState p o pa k st :
  unlinked p st (createState o pa k st).2.
Proof.
  unfold createState. destruct (proxyCache st !! o); simpl;
    [apply unlinked_refl |].
  split; simpl; [lia |]. intros Ha Hp.
  destruct pa as [pa |]; [| done]. destruct k as [k |]; [| done].
  rewrite lookup_insert_ne; [done |].
  intros <-. simpl in Ha. lia.
Qed.

Lemma unlinked_same p st st' :
  next_id st' = next_id st → proxyParentMap st' = proxyParentMap st →
  unlinked p st st'.
Proof. intros Hn Hp. split; [lia |]. by rewrite Hp. Qed.

Lemma unlinked_run_nprog p this q st : unlinked p st (run_nprog this q st).2.
Proof.
  apply R_run_nprog.
  - apply unlinked_refl.
  - apply unlinked_trans.
  - intros h s. by apply unlinked_same.
  - intros t k s. unfold track. simpl.
    destruct (activeEffect s); by apply unlinked_same.
  - intros t k s. destruct (trigger_frame t k s) as (_ & _ & _ & _ & Hp & _ & Hn & _).
    by apply unlinked_same.
  - apply unlinked_createState.
Qed.

(** With tracking suspended, reads change neither the graph nor the
    scheduler. *)
Lemma js_get_inactive r k st :
  activeEffect st = None →
  let st' := (js_get r k st).2 in
  activeEffect st' = None ∧ targetMap st' = targetMap st ∧
  pendingEffects st' = pendingEffects st.
Proof.
  revert st. induction r as [a | id b t IH]; intros st Ha; simpl; [done |].
  destruct (b && in_arrayInstrumentations k); simpl; [done |].
  specialize (IH st Ha). destruct (js_get t k st) as [v st1]. simpl in IH.
  destruct IH as (Ha1 & Ht1 & Hp1).
  rewrite track_inactive by done.
  destruct (as_object v) as [o |]; simpl; [| done].
  destruct (createState_cases o (Some t) (Some k) (log_read t k st1))
    as [Hc | (n & pc & pp & Hc)];
    destruct (createState o (Some t) (Some k) _) as [p st3]; simpl in *;
    subst st3; done.
Qed.

(** With tracking suspended, an assignment through a reference enqueues only
    subscribers of that reference's own targets. *)
Lemma js_set_inactive r k v st :
  activeEffect st = None →
  let st' := (js_set r k v st).2 in
  activeEffect st' = None ∧ targetMap st' = targetMap st ∧
  ∀ e, e ∈ pendingEffects st' →
       e ∈ pendingEffects st ∨ ∃ t, t ∈ chain r ∧ e ∈ forward st t k.
Proof.
  revert st. induction r as [a | id b t IH]; intros st Ha; simpl.
  - unfold raw_set. destruct (define_own k v _); simpl; auto.
  - destruct (js_get_inactive t k st Ha) as (Ha1 & Ht1 & Hp1).
    destruct (js_get t k st) as [old st1]. simpl in *.
    destruct (IH st1 Ha1) as (Ha2 & Ht2 & Hp2).
    assert (∀ x, forward st1 x k = forward st x k) as Hf1
      by (intros x; unfold forward; by rewrite Ht1).
    assert (∀ e, e ∈ pendingEffects (js_set t k v st1).2 →
                 e ∈ pendingEffects st ∨
                 ∃ t0, t0 ∈ Prx id b t :: chain t ∧ e ∈ forward st t0 k) as Hp3.
    { intros e He. apply Hp2 in He as [He | (t0 & Ht0 & He)].
      - left. by rewrite <- Hp1.
      - right. exists t0. rewrite <- Hf1. split; [by right | done]. }
    destruct (js_set t k v st1) as [[res | x] st2]; simpl in *;
      [| split_and!; [done | congruence | done]].
    destruct (strict_eq old v); [split_and!; [done | congruence | done] |].
    destruct (trigger_frame t k st2) as (Ha3 & Ht3 & _).
    destruct (trigger_spec t k st2) as (_ & Hp4 & _).
    split_and!; [congruence | congruence |].
    intros e He. apply Hp4 in He as [He | He]; [auto |].
    right. exists t. split; [right; apply chain_self |].
    unfold forward in *. by rewrite <- Ht1, <- Ht2.
Qed.

Lemma js_delete_frame r k st :
  let st' := (js_delete r k st).2 in
  activeEffect st' = activeEffect st ∧ targetMap st' = targetMap st ∧
  pendingEffects st' = pendingEffects st.
Proof.
  induction r as [a | id b t IH]; simpl; [| done].
  unfold raw_delete. by destruct (_ && _).
Qed.

Lemma run_nprog_inactive this q st :
  activeEffect st = None →
  let st' := (run_nprog this q st).2 in
  activeEffect st' = None ∧ targetMap st' = targetMap st ∧
  ∀ e, e ∈ pendingEffects st' →
       e ∈ pendingEffects st ∨ ∃ t k, t ∈ chain this ∧ e ∈ forward st t k.
Proof.
  revert st. induction q as [v | x | k cont IH | k v cont IH | k cont IH
                             | k cont IH]; intros st Ha; simpl; auto.
  - destruct (js_get_inactive this k st Ha) as (Ha1 & Ht1 & Hp1).
    destruct (js_get this k st) as [v st1]. simpl in *.
    destruct (IH v st1 Ha1) as (Ha2 & Ht2 & Hp2).
    split_and!; [done | congruence |].
    intros e He. apply Hp2 in He as [He | (t & k' & Ht & He)].
    + left. by rewrite <- Hp1.
    + right. exists t, k'. unfold forward in *. by rewrite <- Ht1.
  - unfold assign.
    destruct (js_set_inactive this k v st Ha) as (Ha1 & Ht1 & Hp1).
    assert (∀ e, e ∈ pendingEffects (js_set this k v st).2 →
                 e ∈ pendingEffects st ∨
                 ∃ t k', t ∈ chain this ∧ e ∈ forward st t k') as Hp1'.
    { intros e He. apply Hp1 in He as [He | (t & Ht & He)]; eauto. }
    destruct (js_set this k v st) as [[[|] | x] st1]; simpl in *; auto.
    destruct (IH st1 Ha1) as (Ha2 & Ht2 & Hp2).
    split_and!; [done | congruence |].
    intros e He. apply Hp2 in He as [He | (t & k' & Ht & He)]; [auto |].
    right. exists t, k'. unfold forward in *. by rewrite <- Ht1.
  - unfold delete_property.
    destruct (js_delete_frame this k st) as (Ha1 & Ht1 & Hp1).
    destruct (js_delete this k st) as [[|] st1]; simpl in *;
      [| split_and!; [congruence | done | rewrite Hp1; auto]].
    destruct (IH st1) as (Ha2 & Ht2 & Hp2); [congruence |].
    split_and!; [done | congruence |].
    intros e He. apply Hp2 in He as [He | (t & k' & Ht & He)].
    + left. by rewrite <- Hp1.
    + right. exists t, k'. unfold forward in *. by rewrite <- Ht1.
Qed.

(** The instrumented method on a receiver without parent linkage enqueues
    only subscribers of the receiver's own targets. *)
Lemma instrumented_unlinked m this args st e :
  allocated (next_id st) this → proxyParentMap st !! this = None →
  e ∈ pendingEffects (instrumented native m this args st).2 →
  e ∈ pendingEffects st ∨ ∃ t k, t ∈ chain this ∧ e ∈ forward st t k.
Proof.
  intros Hal Hpp. unfold instrumented.
  destruct (run_nprog_inactive this (native m this args)
              (set_activeEffect None st) eq_refl) as (Ha & Ht & Hp).
  destruct (unlinked_run_nprog this this (native m this args)
              (set_activeEffect None st)) as [_ Hu].
  specialize (Hu Hal Hpp).
  destruct (run_nprog this _ _) as [[res | x] st2]; simpl in *; [| auto].
  set (st3 := set_activeEffect (activeEffect st) st2) in *.
  set (st4 := trigger this (KStr m) st3) in *.
  set (st5 := trigger this (KStr "length") st4) in *.
  destruct (trigger_frame this (KStr m) st3) as (_ & Ht4 & _ & _ & Hp4 & _).
  destruct (trigger_frame this (KStr "length") st4) as (_ & Ht5 & _ & _ & Hp5 & _).
  destruct (trigger_spec this (KStr m) st3) as (_ & Hq4 & _).
  destruct (trigger_spec this (KStr "length") st4) as (_ & Hq5 & _).
  fold st4 in Ht4, Hp4, Hq4. fold st5 in Ht5, Hp5, Hq5.
  replace (proxyParentMap st5 !! this) with (@None (ref * key))
    by (rewrite Hp5, Hp4; done).
  assert (targetMap st3 = targetMap st) as Ht3 by exact Ht.
  intros He. apply Hq5 in He as [He | He].
  - apply Hq4 in He as [He | He]; [auto |].
    right. exists this, (KStr m). split; [apply chain_self |].
    unfold forward in *. by rewrite <- Ht3.
  - right. exists this, (KStr "length"). split; [apply chain_self |].
    unfold forward in *. by rewrite <- Ht3, <- Ht4.
Qed.

(** C10. Parent linkage is recorded only when a wrapper is first created: a
    [createState] call on a target whose wrapper is cached returns that
    wrapper and changes nothing, parent and key notwithstanding.  So when the
    cached wrapper has no parent linkage, an instrumented method called on it
    enqueues no subscriber beyond those tracked on the sequence's own
    targets: a subscriber that only holds the containing property is not
    notified. *)
Theorem C10_parent_linkage_only_at_first_wrap o p pa k st :
  proxyCache st !! o = Some p →
  createState o (Some pa) (Some k) st = (p, st) ∧
  (allocated (next_id st) p → proxyParentMap st !! p = None →
   ∀ m args e,
     e ∈ pendingEffects (instrumented native m p args st).2 →
     e ∈ pendingEffects st ∨ ∃ t k', t ∈ chain p ∧ e ∈ forward st t k').
Proof.
  intros Hc. split; [by apply createState_hit |].
  intros Hal Hpp m args e. by apply instrumented_unlinked.
Qed.

(** ** The active-subscriber slot *)

(** [execute] leaves the slot empty whatever it held before, on normal and
    on exceptional completion of the body. *)
Lemma execute_clears_slot {A} (run : state → outcome A * state) e st :
  activeEffect (execute run e st).2 = None.
Proof. unfold execute. by destruct (run _) as [[a | x] st3]. Qed.

Lemma effect_clears_slot {A} (run : state → outcome A * state) fn st :
  activeEffect (effect run fn st).2 = None.
Proof.
  unfold effect.
  pose proof (execute_clears_slot run (next_sub st)
                (log_run (next_sub st) (alloc_sub (CExecute fn) st))) as H.
  by destruct (execute run _ _) as [[a | x] st1].
Qed.

(** The first run of a scoped effect saves and restores the slot, also when
    the body throws. *)
Lemma reactiveEffectFn_restores_slot fn st :
  activeEffect (reactiveEffectFn native fn st).2 = activeEffect st.
Proof.
  unfold reactiveEffectFn. by destruct (run_prog native fn _) as [[c | x] st2].
Qed.

(** An instrumented array method restores the slot when the native method
    returns. *)
Lemma instrumented_restores_slot m this args st v :
  (instrumented native m this args st).1 = Normal v →
  activeEffect (instrumented native m this args st).2 = activeEffect st.
Proof.
  unfold instrumented.
  destruct (run_nprog this _ _) as [[res | x] st2]; simpl; [| done].
  intros _.
  set (st3 := set_activeEffect (activeEffect st) st2).
  set (st4 := trigger this (KStr m) st3).
  set (st5 := trigger this (KStr "length") st4).
  destruct (trigger_frame this (KStr m) st3) as (Ha4 & _).
  destruct (trigger_frame this (KStr "length") st4) as (Ha5 & _).
  fold st4 in Ha4. fold st5 in Ha5.
  assert (activeEffect st5 = activeEffect st) as H5 by (rewrite Ha5, Ha4; done).
  destruct (proxyParentMap st5 !! this) as [[pa k] |]; [| done].
  destruct (trigger_frame pa k st5) as (Ha6 & _). by rewrite Ha6.
Qed.

(** ** Writes at top level *)

Lemma subs_allocated_intro st :
  Forall (λ e, e < next_sub st)
         (pendingEffects st ++ graph_subs st ++ option_list (activeEffect st)) →
  subs_allocated st.
Proof.
  rewrite !Forall_app, !Forall_forall. intros (Hp & Hg & Ha).
  split_and!; [done | |].
  - intros t k e He. apply Hg. unfold graph_subs, forward, lookup_deps in *.
    destruct (targetMap st !! t) as [dm |] eqn:Et; simpl in He;
      [| by apply elem_of_nil in He].
    destruct (dm !! k) as [l |] eqn:Ek; simpl in He;
      [| by apply elem_of_nil in He].
    apply list_elem_of_join. eexists. split; [| apply list_elem_of_fmap].
    2: { exists (t, dm). split; [done |]. by apply elem_of_map_to_list. }
    simpl. apply list_elem_of_join. exists l. split; [done |].
    apply list_elem_of_fmap. exists (k, l). split; [done |].
    by apply elem_of_map_to_list.
  - intros e He. apply Ha. rewrite He. simpl. by left.
Qed.

Lemma quiet_refl st : quiet st st.
Proof. by split_and!. Qed.

Lemma quiet_trans st1 st2 st3 : quiet st1 st2 → quiet st2 st3 → quiet st1 st3.
Proof.
  intros (Hn1 & Hr1 & Hs1) (Hn2 & Hr2 & Hs2).
  split_and!; [congruence | congruence | auto].
Qed.

Lemma quiet_read t k st : quiet st (track t k (log_read t k st)).
Proof.
  split_and!.
  - by rewrite next_sub_track.
  - rewrite trace_track. simpl. rewrite runs_app. simpl. by rewrite app_nil_r.
  - intros (Hp & Hf & Ha). destruct (scheduler_track t k (log_read t k st))
      as (Hp' & _). unfold subs_allocated. rewrite next_sub_track.
    split_and!.
    + by rewrite Hp'.
    + intros t' k' e He. destruct (activeEffect st) as [a |] eqn:Eq.
      * rewrite (forward_track _ _ _ a) in He by done.
        destruct (decide ((t, k) = (t', k'))) as [Hd | Hd]; [| by eapply Hf].
        apply elem_of_set_add in He as [-> | He]; [by apply Ha |].
        by eapply Hf.
      * rewrite track_inactive in He by done. by eapply Hf.
    + rewrite activeEffect_track. exact Ha.
Qed.

Lemma quiet_trigger t k st : quiet st (trigger t k st).
Proof.
  destruct (trigger_spec t k st) as (Ht & Hp & _).
  destruct (trigger_frame t k st) as (Ha & Htm & _ & _ & _ & _ & _ & Hn & _).
  split_and!; [done | |].
  - rewrite Ht, runs_app, runs_map_EQueue. by rewrite app_nil_r.
  - intros (Hp0 & Hf0 & Ha0). unfold subs_allocated. rewrite Hn. split_and!.
    + intros e He. apply Hp in He as [He | He]; [auto | by eapply Hf0].
    + intros t' k' e He. unfold forward in *. rewrite Htm in He.
      by eapply Hf0.
    + by rewrite Ha.
Qed.

Lemma quiet_assign o k v st : quiet st (assign o k v st).2.
Proof.
  apply R_assign.
  - apply quiet_refl.
  - apply quiet_trans.
  - intros h s. by split_and!.
  - apply quiet_read.
  - apply quiet_trigger.
  - apply createState_respects; [apply quiet_refl |]. intros. by split_and!.
Qed.

Lemma quiet_writes ws st : quiet st (run_prog native (writes ws) st).2.
Proof.
  revert st. induction ws as [| [[o k] v] ws IH]; intros st; simpl;
    [apply quiet_refl |].
  pose proof (quiet_assign o k v st) as H.
  destruct (assign o k v st) as [[u | x] st1]; simpl in *; [| done].
  eapply quiet_trans; [exact H | apply IH].
Qed.

Lemma trace_app_inv (l ev ev' : list event) : l ++ ev = l ++ ev' → ev = ev'.
Proof. apply app_inv_head. Qed.

(** ** Invariants of reachable states *)

Lemma allocs_refl st : allocs st st.
Proof. by split. Qed.

Lemma allocs_trans st1 st2 st3 :
  allocs st1 st2 → allocs st2 st3 → allocs st1 st3.
Proof. intros [Hn1 H1] [Hn2 H2]. split; [lia | auto]. Qed.

Lemma quiet_allocs st st' : quiet st st' → allocs st st'.
Proof. intros (Hn & _ & H). split; [lia | done]. Qed.

(** Nothing new is pending or subscribed, and the slot holds what it held or
    an allocated subscriber. *)
Lemma allocs_sub st st' :
  next_sub st ≤ next_sub st' →
  (∀ x, x ∈ pendingEffects st' → x ∈ pendingEffects st) →
  (∀ t k x, x ∈ forward st' t k → x ∈ forward st t k ∨ x < next_sub st') →
  (∀ x, activeEffect st' = Some x →
        activeEffect st = Some x ∨ x < next_sub st') →
  allocs st st'.
Proof.
  intros Hn Hp Hf Ha. split; [done |]. intros (Hp0 & Hf0 & Ha0).
  split_and!.
  - intros x Hx. apply Hp, Hp0 in Hx. lia.
  - intros t k x Hx. apply Hf in Hx as [Hx | Hx]; [| done].
    apply Hf0 in Hx. lia.
  - intros x Hx. apply Ha in Hx as [Hx | Hx]; [| done]. apply Ha0 in Hx. lia.
Qed.

Lemma allocs_restore st st2 :
  allocs (set_activeEffect None st) st2 →
  allocs st (set_activeEffect (activeEffect st) st2).
Proof.
  intros [Hn H]. split; [done |]. intros (Hp & Hf & Ha).
  destruct H as (Hp2 & Hf2 & _); [by split_and! |].
  split_and!; [done | done |]. simpl in *. intros x Hx. apply Ha in Hx. lia.
Qed.

Lemma allocs_rerun e st :
  e < next_sub st →
  allocs st (set_activeEffect (Some e) (cleanup e (log_run e st))).
Proof.
  intros He. destruct (scheduler_cleanup e (log_run e st)) as (Hp & _).
  apply allocs_sub; simpl; rewrite ?next_sub_cleanup; simpl.
  - done.
  - by rewrite Hp.
  - intros t k x Hx. left. by apply elem_of_forward_cleanup in Hx as [Hx _].
  - intros x [= <-]. by right.
Qed.

Lemma allocs_begin c st :
  allocs st (set_activeEffect (Some (next_sub st))
               (cleanup (next_sub st)
                  (log_run (next_sub st) (alloc_sub c st)))).
Proof.
  destruct (scheduler_cleanup (next_sub st)
              (log_run (next_sub st) (alloc_sub c st))) as (Hp & _).
  apply allocs_sub; simpl; rewrite ?next_sub_cleanup; simpl.
  - lia.
  - by rewrite Hp.
  - intros t k x Hx. left. by apply elem_of_forward_cleanup in Hx as [Hx _].
  - intros x [= <-]. right. lia.
Qed.

Lemma allocs_dispose d st : allocs st (dispose d st).
Proof.
  destruct d as [e]. destruct (scheduler_cleanup e st) as (Hp & _).
  apply allocs_sub; simpl; rewrite ?next_sub_cleanup.
  - done.
  - by rewrite Hp.
  - intros t k x Hx. left. change (x ∈ forward (cleanup e st) t k) in Hx.
    by apply elem_of_forward_cleanup in Hx as [Hx _].
  - rewrite activeEffect_cleanup. auto.
Qed.

Lemma allocs_silent st st' :
  next_sub st' = next_sub st → pendingEffects st' = pendingEffects st →
  targetMap st' = targetMap st → activeEffect st' = activeEffect st →
  allocs st st'.
Proof.
  intros Hn Hp Ht Ha. split; [lia |]. unfold subs_allocated, forward.
  by rewrite Hn, Hp, Ht, Ha.
Qed.

Lemma allocs_none st : allocs st (set_activeEffect None st).
Proof. apply allocs_sub; simpl; auto. done. Qed.

Lemma allocs_run_prog p st : allocs st (run_prog native p st).2.
Proof.
  apply R_run_prog.
  - apply allocs_refl.
  - apply allocs_trans.
  - intros. by apply allocs_silent.
  - intros. apply quiet_allocs, quiet_read.
  - intros. apply quiet_allocs, quiet_trigger.
  - apply createState_respects; [apply allocs_refl |].
    intros. by apply allocs_silent.
  - apply allocs_none.
  - apply allocs_restore.
  - apply allocs_dispose.
  - apply allocs_begin.
  - intros. by apply allocs_silent.
Qed.

Lemma allocs_call_sub e st :
  e < next_sub st → allocs st (call_sub native e st).2.
Proof.
  intros He. unfold call_sub.
  destruct (closures (log_run e st) !! e) as [[fn | fn c] |]; simpl.
  - unfold execute. pose proof (allocs_rerun e st He) as H2.
    set (st2 := set_activeEffect (Some e) _) in *.
    pose proof (allocs_run_prog fn st2) as H3.
    destruct (run_prog native fn st2) as [[r | x] st3]; simpl in *;
      (eapply allocs_trans; [exact H2 |]);
      (eapply allocs_trans; [exact H3 | apply allocs_none]).
  - unfold effectRunner, run_cleanup. destruct c as [c |].
    + pose proof (allocs_run_prog c (log_run e st)) as H1.
      destruct (run_prog native c (log_run e st)) as [[r | x] s1];
        simpl in *; [| exact H1].
      pose proof (allocs_run_prog fn s1) as H2.
      destruct (run_prog native fn s1) as [[r' | x] s2]; simpl in *.
      * eapply allocs_trans; [exact H1 |]. eapply allocs_trans; [exact H2 |].
        by apply allocs_silent.
      * eapply allocs_trans; [exact H1 | exact H2].
    + pose proof (allocs_run_prog fn (log_run e st)) as H2.
      destruct (run_prog native fn (log_run e st)) as [[r' | x] s2];
        simpl in *; [| exact H2].
      eapply allocs_trans; [exact H2 |]. by apply allocs_silent.
  - by apply allocs_silent.
Qed.

Lemma allocs_run_batch l st :
  (∀ e, e ∈ l → e < next_sub st) → allocs st (run_batch native l st).2.
Proof.
  revert st. induction l as [| e l IH]; intros st Hl; simpl;
    [apply allocs_refl |].
  assert (e < next_sub st) as He by (apply Hl; left).
  pose proof (allocs_call_sub e st He) as H.
  destruct (call_sub native e st) as [[u | x] st1]; simpl in *; [| done].
  eapply allocs_trans; [exact H |]. apply IH.
  intros y Hy. destruct H as [Hn _].
  assert (y < next_sub st) by (apply Hl; by right). lia.
Qed.

Lemma elem_of_foldl_subscribe r deps tm t k x :
  x ∈ lookup_deps (foldl (subscribe r) tm deps) t k ↔
  x ∈ lookup_deps tm t k ∨ (x = r ∧ (t, k) ∈ deps).
Proof.
  revert tm. induction deps as [| d deps IH]; intros tm; simpl.
  - rewrite elem_of_nil. tauto.
  - rewrite IH, lookup_deps_subscribe, elem_of_cons.
    destruct (decide (d = (t, k))) as [Hd | Hd].
    + rewrite elem_of_set_add. subst d. tauto.
    + assert ((t, k) ≠ d) by congruence. tauto.
Qed.

Lemma kept_quiet st st' :
  trace st' = trace st → pendingEffects st' = pendingEffects st →
  isFlushPending st' = isFlushPending st → microtasks st' = microtasks st →
  kept st st'.
Proof.
  intros Ht Hp Hf Hm. apply (kept_same _ _ []); try done.
  - by rewrite app_nil_r.
  - intros ?. apply not_elem_of_nil.
Qed.

(** Mounting a scoped effect keeps every invariant. *)
Lemma mount_invariants fn st e :
  let st' := (reactiveEffectFn native fn st).2 in
  kept st st' ∧ allocs st st' ∧ (mirror st e → mirror st' e).
Proof.
  simpl. unfold reactiveEffectFn.
  set (r := next_sub st).
  set (st1 := set_activeEffect (Some r) (alloc_sub (CRunner fn None) st)).
  assert (kept st st1) as Hk1 by (by apply kept_quiet).
  assert (allocs st st1) as Ha1.
  { apply allocs_sub; simpl; [lia | done | auto |].
    intros x [= <-]. right. unfold r. lia. }
  pose proof (kept_run_prog fn st1) as Hk2.
  pose proof (allocs_run_prog fn st1) as Ha2.
  pose proof (mirror_run_prog e fn st1) as Hm2.
  destruct (run_prog native fn st1) as [[c | x] st2]; simpl in *.
  - split_and!.
    + eapply kept_trans; [exact Hk1 |]. eapply kept_trans; [exact Hk2 |].
      by apply kept_quiet.
    + split; [destruct Ha1, Ha2; simpl in *; lia |]. intros H0.
      destruct Ha1 as [Hn1 Ha1], Ha2 as [Hn2 Ha2].
      destruct (Ha2 (Ha1 H0)) as (Hp & Hf & _).
      destruct H0 as (_ & _ & Hact).
      split_and!; simpl in *.
      * done.
      * intros t k x Hx. unfold forward in Hx. simpl in Hx.
        apply elem_of_foldl_subscribe in Hx as [Hx | [-> _]];
          [by eapply Hf | unfold r; lia].
      * intros x Hx. apply Hact in Hx. lia.
    + intros Hm t k Hx. specialize (Hm2 Hm). unfold forward in Hx.
      simpl in Hx. apply elem_of_foldl_subscribe in Hx as [Hx | [-> Hx]].
      * by apply Hm2 in Hx.
      * exact Hx.
  - split_and!.
    + eapply kept_trans; [exact Hk1 |]. eapply kept_trans; [exact Hk2 |].
      by apply kept_quiet.
    + split; [destruct Ha1, Ha2; simpl in *; lia |]. intros H0.
      destruct Ha1 as [Hn1 Ha1], Ha2 as [Hn2 Ha2].
      destruct (Ha2 (Ha1 H0)) as (Hp & Hf & _).
      destruct H0 as (_ & _ & Hact).
      split_and!; simpl in *; [done | done |].
      intros y Hy. apply Hact in Hy. lia.
    + intros Hm. exact (Hm2 Hm).
Qed.

(** Unmounting keeps the scheduler and allocation invariants, and the
    mirror invariant of every subscriber other than the unmounted runner. *)
Lemma unmount_scheduler r deps st :
  let st' := (unmount native r deps st).2 in
  kept st st' ∧ allocs st st'.
Proof.
  simpl. unfold unmount, run_cleanup.
  assert (∀ s1, kept st s1 → allocs st s1 →
    kept st (set_graph (foldl (remove_dep r) (targetMap s1) deps)
               (delete r (effectDepsMap s1)) s1) ∧
    allocs st (set_graph (foldl (remove_dep r) (targetMap s1) deps)
                 (delete r (effectDepsMap s1)) s1)) as Hfin.
  { intros s1 Hk Ha. split.
    - eapply kept_trans; [exact Hk |]. by apply kept_quiet.
    - eapply allocs_trans; [exact Ha |].
      apply allocs_sub; simpl; [done | done | | auto].
      intros t k x Hx. left. unfold forward in *. simpl in Hx.
      by apply elem_of_foldl_remove_dep in Hx as [Hx _]. }
  destruct (match closures st !! r with
            | Some (CRunner _ c) => c
            | _ => None
            end) as [c |].
  - pose proof (kept_run_prog c st) as Hk.
    pose proof (allocs_run_prog c st) as Ha.
    destruct (run_prog native c st) as [[u | x] s1]; simpl in *;
      [by apply Hfin | done].
  - simpl. apply Hfin; [apply kept_refl | apply allocs_refl].
Qed.

Lemma unmount_mirror r deps st e :
  r ≠ e → mirror st e → mirror (unmount native r deps st).2 e.
Proof.
  intros Hne. unfold unmount, run_cleanup.
  assert (∀ s1, mirror s1 e →
    mirror (set_graph (foldl (remove_dep r) (targetMap s1) deps)
              (delete r (effectDepsMap s1)) s1) e) as Hfin.
  { intros s1 Hm t k Hx. unfold forward, reverse in *.
    simpl in *. apply elem_of_foldl_remove_dep in Hx as [Hx _].
    apply Hm in Hx. by rewrite lookup_delete_ne. }
  destruct (match closures st !! r with
            | Some (CRunner _ c) => c
            | _ => None
            end) as [c |].
  - pose proof (mirror_run_prog e c st) as Hm.
    destruct (run_prog native c st) as [[u | x] s1]; simpl in *; auto.
  - simpl. apply Hfin.
Qed.

(** In every reachable state the pending set is duplicate-free with its
    flush scheduled and every known subscriber is an allocated function; the
    forward edges of a subscriber that was never unmounted are mirrored in
    its reverse entry. *)
Theorem reachable_invariants avoid st :
  reachable native avoid st →
  NoDup (pendingEffects st) ∧ batch_scheduled st ∧ subs_allocated st ∧
  (∀ e, avoid = Some e → mirror st e).
Proof.
  assert (∀ s s', kept s s' → allocs s s' →
    (∀ e, avoid = Some e → mirror s e → mirror s' e) →
    NoDup (pendingEffects s) ∧ batch_scheduled s ∧ subs_allocated s ∧
      (∀ e, avoid = Some e → mirror s e) →
    NoDup (pendingEffects s') ∧ batch_scheduled s' ∧ subs_allocated s' ∧
      (∀ e, avoid = Some e → mirror s' e)) as Hstep.
  { intros s s' (ev & _ & _ & _ & Hd & Hb) [_ Ha] Hm (H1 & H2 & H3 & H4).
    split_and!; auto. }
  induction 1 as [h | st p _ IH | st p _ IH | st o st' _ IH Hrun
                  | st fn _ IH | st r deps Hne _ IH].
  - split_and!; [constructor | by split | |].
    + split_and!; simpl; [| | done].
      * intros x Hx. by apply elem_of_nil in Hx.
      * intros t k x Hx. by apply elem_of_nil in Hx.
    + intros e _ t k Hx. by apply elem_of_nil in Hx.
  - eapply Hstep; [apply kept_run_prog | apply allocs_run_prog | | exact IH].
    intros e _. apply mirror_run_prog.
  - unfold with_registration.
    pose proof (kept_run_prog p (set_activeComponentEffects (Some []) st)) as Hk.
    pose proof (allocs_run_prog p (set_activeComponentEffects (Some []) st))
      as Ha.
    pose proof (λ e, mirror_run_prog e p
                       (set_activeComponentEffects (Some []) st)) as Hm.
    destruct (run_prog native p _) as [o st1]. simpl in *.
    apply (Hstep st1 (set_activeComponentEffects None st1));
      [by apply kept_quiet | by apply allocs_silent | auto |].
    apply (Hstep (set_activeComponentEffects (Some []) st) st1);
      [exact Hk | exact Ha | auto |].
    apply (Hstep st (set_activeComponentEffects (Some []) st));
      [by apply kept_quiet | by apply allocs_silent | auto | exact IH].
  - unfold run_microtask in Hrun. destruct (microtasks st) as [| n]; [done |].
    injection Hrun as Hrun. unfold flushEffects in Hrun. simpl in Hrun.
    destruct IH as (H1 & H2 & H3 & H4).
    set (s0 := set_scheduler [] false n _) in Hrun.
    replace st' with (run_batch native (pendingEffects st) s0).2
      by (by rewrite Hrun).
    eapply (Hstep s0); [apply kept_run_batch | apply allocs_run_batch | |].
    + destruct H3 as (Hp & _). exact Hp.
    + intros e _. apply mirror_run_batch.
    + split_and!; [constructor | by split | | exact H4].
      destruct H3 as (Hp & Hf & Ha). split_and!; [| exact Hf | exact Ha].
      intros x Hx. by apply elem_of_nil in Hx.
  - eapply Hstep; [| | | exact IH].
    + by destruct (mount_invariants fn st 0) as (Hk & _).
    + by destruct (mount_invariants fn st 0) as (_ & Ha & _).
    + intros e _. by destruct (mount_invariants fn st e) as (_ & _ & Hm).
  - eapply Hstep; [| | | exact IH].
    + by destruct (unmount_scheduler r deps st) as (Hk & _).
    + by destruct (unmount_scheduler r deps st) as (_ & Ha).
    + intros e He. apply unmount_mirror. congruence.
Qed.

(** ** Claims on the dependency graph and the scheduler *)

(** Batching, from the invariants it needs. *)
Lemma batching_general ws st :
  NoDup (pendingEffects st) → subs_allocated st →
  let st1 := (run_prog native (writes ws) st).2 in
  runs (trace st1) = runs (trace st) ∧
  NoDup (pendingEffects st1) ∧
  (∀ e, ∃ ev, trace (flushEffects native st1).2 = trace st1 ++ ev ∧
              run_count e ev ≤ 1) ∧
  (∀ t k s, runs (trace (trigger t k s)) = runs (trace s)).
Proof.
  intros Hnd Hal. simpl.
  destruct (quiet_writes ws st) as (Hn & Hr & Hs).
  destruct (kept_run_prog (writes ws) st) as (ev & _ & _ & _ & Hd & _).
  specialize (Hs Hal). specialize (Hd Hnd). destruct Hs as (Hp & _).
  split_and!; [done | done | |].
  - intros e. unfold flushEffects.
    destruct (run_batch_counts (pendingEffects (run_prog native (writes ws) st).2)
                (set_scheduler [] false
                   (microtasks (run_prog native (writes ws) st).2)
                   (run_prog native (writes ws) st).2) e Hd Hp)
      as (ev' & Ht & Hc & _).
    exists ev'. split; [exact Ht | exact Hc].
  - intros t k s. destruct (quiet_trigger t k s) as (_ & H & _). exact H.
Qed.

(** Edge clearing, from the mirror invariant. *)
Lemma clear_edges_general e fn st :
  mirror st e → closures st !! e = Some (CExecute fn) →
  (∀ t k, e ∉ forward (cleanup e st) t k) ∧
  let st' := (call_sub native e st).2 in
  mirror st' e ∧
  ∃ ev, trace st' = trace st ++ ev ∧
        ∀ t k, (ERead (Some e) t k) ∉ ev →
               (e ∉ forward st' t k) ∧
               (∀ ev', trace (trigger t k st') = trace st' ++ ev' →
                       EQueue e ∉ ev') ∧
               (e ∈ pendingEffects (trigger t k st') →
                e ∈ pendingEffects st').
Proof.
  intros Hm Hc. split; [intros t k; by apply cleanup_clears |].
  simpl. unfold call_sub. change (closures (log_run e st)) with (closures st).
  rewrite Hc. unfold execute.
  assert (mirror (log_run e st) e) as Hm0 by exact Hm.
  set (st2 := set_activeEffect (Some e) (cleanup e (log_run e st))).
  assert (mirror st2 e) as Hm2 by (by apply (mirror_cleanup e e) in Hm0).
  assert (∀ t k, e ∉ forward st2 t k) as Hf2
    by (intros t k; by apply (cleanup_clears e (log_run e st))).
  assert (trace st2 = trace st ++ [ERun e]) as Ht2
    by (unfold st2; simpl; by rewrite trace_cleanup).
  pose proof (mirror_run_prog e fn st2 Hm2) as Hm3.
  destruct (tracked_run_prog e fn st2) as (ev3 & Ht3 & Hf3).
  assert (∀ s3, s3 = (run_prog native fn st2).2 →
    mirror (set_activeEffect None s3) e ∧
    ∃ ev, trace (set_activeEffect None s3) = trace st ++ ev ∧
      ∀ t k, (ERead (Some e) t k) ∉ ev →
        (e ∉ forward (set_activeEffect None s3) t k) ∧
        (∀ ev', trace (trigger t k (set_activeEffect None s3)) =
                trace (set_activeEffect None s3) ++ ev' → EQueue e ∉ ev') ∧
        (e ∈ pendingEffects (trigger t k (set_activeEffect None s3)) →
         e ∈ pendingEffects (set_activeEffect None s3))) as Hgoal.
  { intros s3 ->. split; [exact Hm3 |].
    exists (ERun e :: ev3). split.
    { simpl. rewrite Ht3, Ht2, <- app_assoc. done. }
    intros t k Hnr.
    assert (e ∉ forward (set_activeEffect None (run_prog native fn st2).2) t k)
      as Hnf.
    { intros He. apply Hf3 in He as [He | He]; [by apply Hf2 in He |].
      apply Hnr. by right. }
    destruct (trigger_spec t k
                (set_activeEffect None (run_prog native fn st2).2))
      as (Htr & Hpe & _).
    split_and!; [done | |].
    - intros ev' Hev'. rewrite Htr in Hev'. apply trace_app_inv in Hev'.
      subst ev'. intros Hin. apply list_elem_of_fmap in Hin as (x & Hx & Hin).
      injection Hx as <-. done.
    - intros He. apply Hpe in He as [He | He]; done. }
  destruct (run_prog native fn st2) as [[r | x] s3]; simpl in *;
    by apply Hgoal.
Qed.

(** One flush, from the invariants it needs. *)
Lemma flush_general st :
  NoDup (pendingEffects st) →
  Forall (λ e, e < next_sub st) (pendingEffects st) →
  let batch := pendingEffects st in
  let o := (flushEffects native st).1 in
  let st' := (flushEffects native st).2 in
  flushEffects native st =
    run_batch native batch (set_scheduler [] false (microtasks st) st) ∧
  ∃ ev n, trace st' = trace st ++ ev ∧
          old_runs (next_sub st) ev = take n batch ∧
          (o = Normal tt → n = length batch) ∧
          (∀ e, run_count e ev ≤ 1) ∧
          (o = Normal tt → ∀ e, e ∈ batch → run_count e ev = 1) ∧
          (∀ e, EQueue e ∈ ev → e ∈ pendingEffects st') ∧
          NoDup (pendingEffects st') ∧
          (pendingEffects st' ≠ [] →
           isFlushPending st' = true ∧ 0 < microtasks st').
Proof.
  intros Hnd Hal. simpl. split; [done |].
  rewrite Forall_forall in Hal. unfold flushEffects.
  set (s0 := set_scheduler [] false (microtasks st) st).
  destruct (run_batch_trace (pendingEffects st) s0 (next_sub st))
    as (_ & ev & n & Ht & Ho & Hc & _); [done | done |].
  destruct (kept_run_batch (pendingEffects st) s0)
    as (ev' & Ht' & _ & Hq & Hd & Hs).
  assert (ev' = ev) as -> by (rewrite Ht in Ht'; by apply trace_app_inv in Ht').
  exists ev, n. split_and!; try done.
  - intros e. destruct (run_batch_counts (pendingEffects st) s0 e Hnd Hal)
      as (ev1 & Ht1 & Hc1 & _).
    assert (ev1 = ev) as -> by (rewrite Ht in Ht1; by apply trace_app_inv in Ht1).
    done.
  - intros Hok e He.
    destruct (run_batch_counts (pendingEffects st) s0 e Hnd Hal)
      as (ev1 & Ht1 & _ & _ & Hc1).
    assert (ev1 = ev) as -> by (rewrite Ht in Ht1; by apply trace_app_inv in Ht1).
    auto.
  - apply Hd. constructor.
  - intros Hne. destruct Hs as [Hs1 Hs2]; [by split |].
    split; [auto |]. apply Hs2. auto.
Qed.

(** A tracked write, from the invariants it needs. *)
Lemma tracked_write_general st id b a k v e r st1 :
  e ∈ forward st (Obj a) k →
  NoDup (pendingEffects st) → sched_ok st →
  Forall (λ x, x < next_sub st) (pendingEffects st ++ forward st (Obj a) k) →
  js_set (Prx id b (Obj a)) k v st = (Normal r, st1) →
  runs (trace st1) = runs (trace st) ∧
  if strict_eq (raw_get a k st) v
  then pendingEffects st1 = pendingEffects st ∧
       isFlushPending st1 = isFlushPending st ∧
       microtasks st1 = microtasks st ∧
       (e ∉ pendingEffects st →
        ∀ o st2, run_microtask native st1 = Some (o, st2) →
                 ∃ ev, trace st2 = trace st1 ++ ev ∧ run_count e ev = 0)
  else e ∈ pendingEffects st1 ∧
       ∃ o st2, run_microtask native st1 = Some (o, st2) ∧
                ∃ ev, trace st2 = trace st1 ++ ev ∧ run_count e ev ≤ 1 ∧
                      (o = Normal tt → run_count e ev = 1).
Proof.
  intros He Hnd Hok Hal Hset. rewrite Forall_app, !Forall_forall in Hal.
  destruct Hal as [Hap Haf]. simpl in Hset. unfold raw_set in Hset.
  destruct (define_own k v (get_obj a st)) as [o' | x]; [| done].
  set (s2 := set_heap (<[a := o']> (heap st)) st) in *.
  destruct (strict_eq (raw_get a k st) v) eqn:Heq.
  - injection Hset as <- <-. split; [done |]. split_and!; try done.
    intros Hne o st2 Hrun. unfold run_microtask in Hrun. simpl in Hrun.
    destruct (microtasks st) as [| n]; [done |]. injection Hrun as Hrun.
    unfold flushEffects in Hrun. simpl in Hrun.
    set (s0 := set_scheduler [] false n _) in Hrun.
    destruct (run_batch_counts (pendingEffects st) s0 e Hnd Hap)
      as (ev & Ht & _ & Hz & _).
    rewrite Hrun in Ht. simpl in Ht. exists ev. split; [exact Ht |].
    apply Hz; [by apply Haf | done].
  - injection Hset as <- <-.
    destruct (trigger_spec (Obj a) k s2) as (Ht & Hp & Hf & Hs).
    destruct (trigger_frame (Obj a) k s2) as (_ & _ & _ & _ & _ & _ & _ & Hn & _).
    assert (NoDup (pendingEffects (trigger (Obj a) k s2))) as Hnd1.
    { destruct (trigger_respects kept kept_refl kept_trans kept_queueEffect
                  (Obj a) k s2) as (ev & _ & _ & _ & Hd & _). by apply Hd. }
    assert (∀ x, x ∈ pendingEffects (trigger (Obj a) k s2) →
                 x < next_sub (trigger (Obj a) k s2)) as Hal1.
    { intros x Hx. rewrite Hn. apply Hp in Hx as [Hx | Hx]; auto. }
    assert (e ∈ pendingEffects (trigger (Obj a) k s2)) as He1
      by (apply Hp; by right).
    split; [rewrite Ht, runs_app, runs_map_EQueue; by rewrite app_nil_r |].
    split; [done |].
    assert (isFlushPending (trigger (Obj a) k s2) = true) as Hfp.
    { apply Hf. intros Hnil. change (forward s2) with (forward st) in Hnil.
      rewrite Hnil in He. by apply elem_of_nil in He. }
    assert (0 < microtasks (trigger (Obj a) k s2)) as Hmt by (by apply Hs).
    unfold run_microtask.
    destruct (microtasks (trigger (Obj a) k s2)) as [| n]; [lia |].
    eexists _, _. split; [by rewrite <- surjective_pairing |].
    unfold flushEffects. simpl.
    set (s0 := set_scheduler [] false n _).
    destruct (run_batch_counts (pendingEffects (trigger (Obj a) k s2)) s0 e
                Hnd1 Hal1) as (ev & Ht1 & Hc1 & _ & Hc2).
    exists ev. split_and!; [exact Ht1 | exact Hc1 |].
    intros Hok'. by apply Hc2.
Qed.

(** A read through a wrapper while [e] is the active subscriber, of a key
    the [get] trap does not divert to the instrumentations, files [e] in the
    forward set of (target, key). *)
Lemma tracked_read_subscribes id b t k st e :
  activeEffect st = Some e → b && in_arrayInstrumentations k = false →
  e ∈ forward (js_get (Prx id b t) k st).2 t k.
Proof.
  intros Ha Hk. simpl. rewrite Hk.
  assert (activeEffect (js_get t k st).2 = Some e) as Ha1.
  { clear Hk. revert st Ha. induction t as [a | id' b' t' IH]; intros st Ha;
      simpl; [done |].
    destruct (b' && in_arrayInstrumentations k); simpl; [done |].
    specialize (IH st Ha). destruct (js_get t' k st) as [v st1]. simpl in IH.
    assert (activeEffect (track t' k (log_read t' k st1)) = Some e) as Ht
      by (by rewrite activeEffect_track).
    destruct (as_object v) as [o |]; simpl; [| done].
    destruct (createState_cases o (Some t') (Some k)
                (track t' k (log_read t' k st1)))
      as [Hc | (n & pc & pp & Hc)];
      destruct (createState o (Some t') (Some k) _) as [p st3]; simpl in *;
      subst st3; done. }
  destruct (js_get t k st) as [v st1]. simpl in Ha1.
  assert (e ∈ forward (track t k (log_read t k st1)) t k) as Hin.
  { rewrite (forward_track _ _ _ e) by done. rewrite decide_True by done.
    apply elem_of_set_add. by left. }
  destruct (as_object v) as [o |]; simpl; [| done].
  destruct (createState_cases o (Some t) (Some k)
              (track t k (log_read t k st1)))
    as [Hc | (n & pc & pp & Hc)];
    destruct (createState o (Some t) (Some k) _) as [p st3]; simpl in *;
    subst st3; done.
Qed.

(** What an instrumented method does enqueue when the native method
    returns: the subscribers filed under its receiver at the method's name
    and at ["length"], and those of the receiver's parent linkage. *)
Lemma instrumented_triggers m this args st res st2 x :
  run_nprog this (native m this args) (set_activeEffect None st) =
    (Normal res, st2) →
  x ∈ forward st2 this (KStr m) ∨ x ∈ forward st2 this (KStr "length") ∨
  (∃ pa k, proxyParentMap st2 !! this = Some (pa, k) ∧
           x ∈ forward st2 pa k) →
  x ∈ pendingEffects (instrumented native m this args st).2.
Proof.
  intros Hrun Hx. unfold instrumented. rewrite Hrun. simpl.
  set (st3 := set_activeEffect (activeEffect st) st2).
  set (st4 := trigger this (KStr m) st3).
  set (st5 := trigger this (KStr "length") st4).
  destruct (trigger_frame this (KStr m) st3) as (_ & Ht4 & _ & _ & Hp4 & _).
  destruct (trigger_frame this (KStr "length") st4)
    as (_ & Ht5 & _ & _ & Hp5 & _).
  destruct (trigger_spec this (KStr m) st3) as (_ & Hq4 & _).
  destruct (trigger_spec this (KStr "length") st4) as (_ & Hq5 & _).
  fold st4 in Ht4, Hp4, Hq4. fold st5 in Ht5, Hp5, Hq5.
  assert (∀ t k, forward st4 t k = forward st2 t k) as Hf4
    by (intros; unfold forward; by rewrite Ht4).
  assert (∀ t k, forward st5 t k = forward st2 t k) as Hf5
    by (intros; unfold forward; by rewrite Ht5, Ht4).
  assert (x ∈ pendingEffects st5 ∨
          ∃ pa k, proxyParentMap st5 !! this = Some (pa, k) ∧
                  x ∈ forward st5 pa k) as [H5 | (pa & k & Hpa & H5)].
  { destruct Hx as [Hx | [Hx | (pa & k & Hpa & Hx)]].
    - left. apply Hq5. left. apply Hq4. by right.
    - left. apply Hq5. right. by rewrite Hf4.
    - right. exists pa, k. rewrite Hp5, Hp4, Hf5. done. }
  - destruct (proxyParentMap st5 !! this) as [[pa k] |]; [| done].
    apply trigger_spec. by left.
  - rewrite Hpa. apply trigger_spec. by right.
Qed.

(** ** The claims on reachable states *)


(** C2. In a reachable state, any number of synchronous writes runs no
    subscriber; they leave the pending set free of duplicates, however many
    edges reached a subscriber, so that in the flush that follows every
    subscriber runs at most once; and [trigger] itself never runs a
    subscriber. *)
Theorem C2_batching ws avoid st :
  reachable native avoid st →
  let st1 := (run_prog native (writes ws) st).2 in
  runs (trace st1) = runs (trace st) ∧
  NoDup (pendingEffects st1) ∧
  (∀ e, ∃ ev, trace (flushEffects native st1).2 = trace st1 ++ ev ∧
              run_count e ev ≤ 1) ∧
  (∀ t k s, runs (trace (trigger t k s)) = runs (trace s)).
Proof.
  intros Hr.
  destruct (reachable_invariants avoid st Hr) as (Hnd & _ & Hal & _).
  by apply batching_general.
Qed.



End Properties.

(** * Scenarios *)

(** C6, at the failing input.  A root array [[1, 2, 3]] is wrapped and an
    effect reads its length, so the effect is filed in the forward set of
    (array, ["length"]).  [push(4)] through the wrapper completes and the
    array now has length 4, yet nothing is enqueued and no flush is
    scheduled: the instrumented method triggers on its receiver, the
    wrapper, while the subscriber is filed under the wrapped array. *)
Theorem C6_push_misses_length_subscriber :
  forward st_seq (Obj 0) klength = [0] ∧
  (run_prog host_native (PCall wseq "push" [VNum 4] (λ _, PRet)) st_seq).1 =
    Normal None ∧
  array_length (get_obj 0 st_seq_pushed) = 4 ∧
  forward st_seq_pushed (Obj 0) klength = [0] ∧
  forward st_seq_pushed wseq klength = [] ∧
  pendingEffects st_seq_pushed = [] ∧
  isFlushPending st_seq_pushed = false ∧
  microtasks st_seq_pushed = 0 ∧
  trace st_seq_pushed = trace st_seq ++ [ERead None (Obj 0) klength].
Proof. vm_compute. repeat split. Qed.

(** The parent path of the instrumented methods does reach its subscribers:
    an effect holding [state.items] is enqueued by a push on the nested
    wrapper. *)
Example parent_propagation :
  proxyParentMap st_nested_first !! witems = Some (Obj 1, kitems) ∧
  pendingEffects
    (run_prog host_native (PCall witems "push" [VNum 3] (λ _, PRet))
       st_nested_first).2 = [0].
Proof. vm_compute. repeat split. Qed.

(** [pop] reaches length subscribers only through the [set] trap of the
    native method's own write to ["length"]. *)
Example pop_notifies_through_set_trap :
  trace (run_prog host_native (PCall wseq "pop" [] (λ _, PRet)) st_seq).2 =
  trace st_seq ++ [ERead None (Obj 0) klength; ERead None (Obj 0) (KIdx 2);
                   EQueue 0].
Proof. vm_compute. reflexivity. Qed.

(** C7, at the failing input.  An effect whose body first creates another
    effect and then reads [state.a]: the inner [execute] leaves the slot
    empty instead of restoring the outer subscriber, so the outer read is
    made with no active subscriber and the outer effect is subscribed to
    nothing.  In general [effect] leaves the slot empty whatever it held
    before, so it never restores an occupied slot. *)
Theorem C7_nested_effect_clears_outer_slot :
  trace st_nested = [ERun 0; ERun 1; ERead None (Obj 0) ka] ∧
  forward st_nested (Obj 0) ka = [] ∧
  (∀ (run : state → outcome (option prog) * state) fn st e,
     activeEffect (effect run fn (set_activeEffect (Some e) st)).2 = None).
Proof.
  split; [vm_compute; reflexivity |]. split; [vm_compute; reflexivity |].
  intros run fn st e. apply effect_clears_slot.
Qed.

(** Three writes to three properties one effect reads: one re-run. *)
Example batching_three_writes :
  let st1 := (run_prog host_native (writes three_writes) st_abc).2 in
  pendingEffects st1 = [0] ∧ microtasks st1 = 1 ∧
  runs (trace (flushEffects host_native st1).2) = runs (trace st1) ++ [0].
Proof. vm_compute. repeat split. Qed.

(** After the flag flipped and the effect re-ran, a write to the property it
    stopped reading enqueues nothing. *)
Example pruning_after_flag_flip :
  let st1 := (flushEffects host_native st_flag).2 in
  forward st1 (Obj 0) ka = [] ∧ forward st1 (Obj 0) kb = [0] ∧
  pendingEffects (js_set w0 ka (VNum 5) st1).2 = [].
Proof. vm_compute. repeat split. Qed.



Lemma C2_witness :
  let st1 := (run_prog host_native (writes three_writes) st_abc).2 in
  runs (trace st1) = runs (trace st_abc) ∧
  NoDup (pendingEffects st1) ∧
  (∀ e, ∃ ev, trace (flushEffects host_native st1).2 = trace st1 ++ ev ∧
              run_count e ev ≤ 1) ∧
  (∀ t k s, runs (trace (trigger t k s)) = runs (trace s)).
Proof.
  apply (C2_batching host_native three_writes None st_abc).
  apply reach_client, reach_init.
Defined.





Lemma C8_witness :
  createEffect PRet (init ∅) =
    (Throw (UsageError
       "createEffect can only be called inside a reactive component setup"),
     init ∅) ∧
  run_prog host_native (PCreateEffect PRet PRet) (init ∅) =
    (Throw (UsageError
       "createEffect can only be called inside a reactive component setup"),
     init ∅).
Proof.
  apply (C8_createEffect_outside_setup host_native PRet PRet (init ∅)).
  reflexivity.
Defined.

Lemma C10_witness :
  createState (Obj 0) (Some (Obj 1)) (Some kitems) st_root_first =
    (wseq, st_root_first) ∧
  ∀ m args e,
    e ∈ pendingEffects (instrumented host_native m wseq args st_root_first).2 →
    e ∈ pendingEffects st_root_first ∨
    ∃ t k', t ∈ chain wseq ∧ e ∈ forward st_root_first t k'.
Proof.
  destruct (C10_parent_linkage_only_at_first_wrap host_native (Obj 0) wseq
              (Obj 1) kitems st_root_first) as [H1 H2].
  - vm_compute. reflexivity.
  - split; [exact H1 |]. apply H2.
    + vm_compute. split; [repeat constructor | exact I].
    + vm_compute. reflexivity.
Defined.

(** The array wrapped as a root before its record: the effect holding
    [state.items] is not enqueued by a push through the wrapper. *)
Example root_first_push_unnoticed :
  forward st_root_first (Obj 1) kitems = [0] ∧
  (js_get wrec kitems st_root_first).1 = VRef wseq ∧
  pendingEffects
    (run_prog host_native (PCall wseq "push" [VNum 3] (λ _, PRet))
       st_root_first).2 = [].
Proof. vm_compute. repeat split. Qed.

(** * Further properties of the runtime *)

(** ** State predicates kept by every step

    A predicate on states that every elementary update of the module's
    variables preserves holds in every reachable state. *)

Section Invariant.

Variable native : string → ref → list value → nprog.
Variable P : state → Prop.
Hypothesis P_heap : ∀ h st, P st → P (set_heap h st).
Hypothesis P_trace : ∀ t st, P st → P (set_trace t st).
Hypothesis P_active : ∀ x st, P st → P (set_activeEffect x st).
Hypothesis P_register : ∀ x st, P st → P (set_activeComponentEffects x st).
Hypothesis P_closures : ∀ c n st, P st → P (set_closures c n st).
Hypothesis P_track : ∀ t k st, P st → P (track t k st).
Hypothesis P_queue : ∀ e st, P st → P (queueEffect e st).
Hypothesis P_create : ∀ o pa k st, P st → P (createState o pa k st).2.
Hypothesis P_cleanup : ∀ e st, P st → P (cleanup e st).
Hypothesis P_dispose : ∀ d st, P st → P (dispose d st).
Hypothesis P_subscribe : ∀ r st,
  P st →
  P (set_graph (foldl (subscribe r) (targetMap st) (reverse st r))
               (effectDepsMap st) st).
Hypothesis P_unsubscribe : ∀ r deps st,
  P st →
  P (set_graph (foldl (remove_dep r) (targetMap st) deps)
               (delete r (effectDepsMap st)) st).
Hypothesis P_turn : ∀ n st,
  P st → microtasks st = S n → P (set_scheduler [] false n st).

Lemma keeps_run_prog p st : P st → P (run_prog native p st).2.
Proof using P_heap P_trace P_active P_register P_closures P_track P_queue
  P_create P_cleanup P_dispose.
  apply (R_run_prog native (keeps P)); unfold keeps.
  - auto.
  - auto.
  - auto.
  - intros t k s. unfold log_read. auto.
  - apply (trigger_respects (λ s s', P s → P s')); auto.
  - auto.
  - auto.
  - auto.
  - auto.
  - intros c s H. apply P_active, P_cleanup. unfold log_run. apply P_trace.
    unfold alloc_sub. by apply P_closures.
  - auto.
Qed.

Lemma keeps_run_batch l st : P st → P (run_batch native l st).2.
Proof using P_heap P_trace P_active P_register P_closures P_track P_queue
  P_create P_cleanup P_dispose.
  apply (R_run_batch native (keeps P)); unfold keeps.
  - auto.
  - auto.
  - auto.
  - intros t k s. unfold log_read. auto.
  - apply (trigger_respects (λ s s', P s → P s')); auto.
  - auto.
  - auto.
  - auto.
  - auto.
  - intros c s H. apply P_active, P_cleanup. unfold log_run. apply P_trace.
    unfold alloc_sub. by apply P_closures.
  - auto.
  - intros e s H. unfold log_run. auto.
  - intros e s H. apply P_active, P_cleanup. unfold log_run. auto.
  - intros r fn c s H. unfold set_cleanup. auto.
Qed.

Lemma keeps_mount fn st : P st → P (reactiveEffectFn native fn st).2.
Proof using P_heap P_trace P_active P_register P_closures P_track P_queue
  P_create P_cleanup P_dispose P_subscribe.
  intros H. unfold reactiveEffectFn.
  set (st1 := set_activeEffect _ (alloc_sub _ st)).
  assert (P st1) as H1 by (apply P_active; unfold alloc_sub; auto).
  pose proof (keeps_run_prog fn st1 H1) as H2.
  destruct (run_prog native fn st1) as [[c | x] st2]; simpl in *; [| auto].
  apply (P_subscribe (next_sub st)
           (set_activeEffect (activeEffect st)
              (set_cleanup (next_sub st) fn c st2))).
  apply P_active. unfold set_cleanup. auto.
Qed.

Lemma keeps_unmount r deps st : P st → P (unmount native r deps st).2.
Proof using P_heap P_trace P_active P_register P_closures P_track P_queue
  P_create P_cleanup P_dispose P_unsubscribe.
  intros H. unfold unmount, run_cleanup.
  destruct (match closures st !! r with
            | Some (CRunner _ c) => c | _ => None end) as [c |].
  - pose proof (keeps_run_prog c st H) as H1.
    destruct (run_prog native c st) as [[u | x] st1]; simpl in *; auto.
  - simpl. auto.
Qed.

Theorem reachable_keeps avoid st :
  (∀ h, P (init h)) → reachable native avoid st → P st.
Proof using All.
  intros P_init Hr. induction Hr as [h | st p _ IH | st p _ IH
    | st o st' _ IH Ht | st fn _ IH | st r deps _ _ IH].
  - apply P_init.
  - by apply keeps_run_prog.
  - unfold with_registration.
    pose proof (keeps_run_prog p _ (P_register (Some []) st IH)) as H.
    destruct (run_prog native p _) as [o st1]. simpl in *. auto.
  - unfold run_microtask in Ht. destruct (microtasks st) as [| n] eqn:Em;
      [done |].
    injection Ht as Ht. unfold flushEffects in Ht. simpl in Ht.
    pose proof (keeps_run_batch (pendingEffects st)
                  (set_scheduler [] false n st) (P_turn n st IH Em)) as H.
    change (set_scheduler [] false n
              (set_scheduler (pendingEffects st) (isFlushPending st) n st))
      with (set_scheduler [] false n st) in Ht.
    rewrite Ht in H. exact H.
  - by apply keeps_mount.
  - by apply keeps_unmount.
Qed.

End Invariant.

Section Further.

Variable native : string → ref → list value → nprog.

(** ** The scheduler *)

Lemma set_add_not_nil e l : set_add e l ≠ [].
Proof.
  intros H. assert (e ∈ set_add e l) as Hin by (apply elem_of_set_add; auto).
  rewrite H in Hin. by apply not_elem_of_nil in Hin.
Qed.

Lemma effectDepsMap_queueEffect e st :
  effectDepsMap (queueEffect e st) = effectDepsMap st.
Proof. unfold queueEffect. simpl. by destruct (isFlushPending st). Qed.

Lemma trigger_frame_queue e st :
  proxyCache (queueEffect e st) = proxyCache st ∧
  next_id (queueEffect e st) = next_id st.
Proof. unfold queueEffect. simpl. by destruct (isFlushPending st). Qed.

Lemma one_flush_same st st' :
  pendingEffects st' = pendingEffects st →
  isFlushPending st' = isFlushPending st → microtasks st' = microtasks st →
  one_flush st → one_flush st'.
Proof. unfold one_flush. intros -> -> ->. done. Qed.

Lemma reachable_one_flush avoid st :
  reachable native avoid st → one_flush st.
Proof.
  apply (reachable_keeps native one_flush).
  - intros h s. by apply one_flush_same.
  - intros t s. by apply one_flush_same.
  - intros x s. by apply one_flush_same.
  - intros x s. by apply one_flush_same.
  - intros c n s. by apply one_flush_same.
  - intros t k s. destruct (scheduler_track t k s) as (? & ? & ?).
    by apply one_flush_same.
  - intros e s [Hm Hf]. unfold one_flush.
    destruct (flush_scheduled_queueEffect e s) as [-> _].
    rewrite pending_queueEffect. split.
    + unfold queueEffect. simpl. destruct (isFlushPending s); simpl; lia.
    + split; [intros _; apply set_add_not_nil | done].
  - intros o pa k s.
    destruct (createState_cases o pa k s) as [-> | (n & pc & pp & ->)];
      [done | by apply one_flush_same].
  - intros e s. destruct (scheduler_cleanup e s) as (? & ? & ?).
    by apply one_flush_same.
  - intros [e] s. destruct (scheduler_cleanup e s) as (? & ? & ?).
    by apply one_flush_same.
  - intros r s. by apply one_flush_same.
  - intros r deps s. by apply one_flush_same.
  - intros n s [Hm _] Hn. unfold one_flush. simpl. rewrite Hn in Hm.
    destruct (isFlushPending s); [| done]. split; [lia |].
    split; [done | intros H; by destruct H].
  - intros h. unfold one_flush. simpl. split; [done |].
    split; [done | intros H; by destruct H].
Qed.

(** X1.  Between scheduling turns the scheduler's bookkeeping is exact: one
    flush microtask is queued while [isFlushPending] is set and none
    otherwise, and [isFlushPending] is set exactly when the pending set is
    not empty. *)
Theorem X1_one_flush_queued avoid st :
  reachable native avoid st →
  microtasks st = (if isFlushPending st then 1 else 0) ∧
  (isFlushPending st = true ↔ pendingEffects st ≠ []).
Proof. apply reachable_one_flush. Qed.

Lemma foldl_queue_prefix l st :
  pendingEffects st `prefix_of`
  pendingEffects (foldl (λ s e, queueEffect e s) st l).
Proof.
  revert st. induction l as [| e l IH]; intros s; simpl; [done |].
  etrans; [| apply IH]. rewrite pending_queueEffect. apply set_add_prefix.
Qed.

(** X5.  [trigger] on an edge without subscribers (unknown target, unknown
    key, or a set emptied by cleanups) changes nothing.  Otherwise it only
    appends to the pending set: what was pending keeps its place, the
    subscribers of the edge are added, a flush is marked pending, and the
    graph, the heap and the record of subscriber runs stay as they were. *)
Theorem X5_trigger_enqueues t k st :
  let st' := trigger t k st in
  (forward st t k = [] → st' = st) ∧
  pendingEffects st `prefix_of` pendingEffects st' ∧
  (∀ x, x ∈ pendingEffects st' ↔
        x ∈ pendingEffects st ∨ x ∈ forward st t k) ∧
  (forward st t k ≠ [] → isFlushPending st' = true) ∧
  targetMap st' = targetMap st ∧ effectDepsMap st' = effectDepsMap st ∧
  heap st' = heap st ∧ runs (trace st') = runs (trace st).
Proof.
  intros st'.
  destruct (trigger_spec t k st) as (Htr & Hq & Hfl & _).
  destruct (trigger_frame t k st) as (_ & Htm & Hed & Hh & _).
  split_and!; try done.
  - intros He. unfold st'. rewrite trigger_forward, He. done.
  - unfold st'. rewrite trigger_forward. apply foldl_queue_prefix.
  - fold st' in Htr. rewrite Htr, runs_app, runs_map_EQueue.
    by rewrite app_nil_r.
Qed.

(** ** The active-subscriber slot *)

Lemma slot_refl st : slot_rel st st.
Proof. by left. Qed.

Lemma slot_trans st1 st2 st3 : slot_rel st1 st2 → slot_rel st2 st3 → slot_rel st1 st3.
Proof. unfold slot_rel. intros [H1 | H1] [H2 | H2]; rewrite ?H2, ?H1; auto. Qed.

Lemma slot_same st st' : activeEffect st' = activeEffect st → slot_rel st st'.
Proof. by left. Qed.

Lemma slot_read t k st : slot_rel st (track t k (log_read t k st)).
Proof. apply slot_same. by rewrite activeEffect_track. Qed.

Lemma slot_trigger t k st : slot_rel st (trigger t k st).
Proof. apply slot_same. by destruct (trigger_frame t k st) as (-> & _). Qed.

Lemma slot_create o pa k st : slot_rel st (createState o pa k st).2.
Proof.
  destruct (createState_cases o pa k st) as [-> | (n & pc & pp & ->)];
    by apply slot_same.
Qed.

Lemma slot_restore st st2 :
  slot_rel (set_activeEffect None st) st2 →
  slot_rel st (set_activeEffect (activeEffect st) st2).
Proof. intros _. by left. Qed.

Lemma slot_run_prog p st : slot_rel st (run_prog native p st).2.
Proof.
  revert st.
  induction p as [| c IHc | e | o k cont IH | o k v cont IH | o k cont IH
                  | o m args cont IH | o pa k cont IH | fn IHfn cont IH
                  | d cont IH | fn IHfn cont IH | body IHb cont IH];
    intros st; simpl; try apply slot_refl.
  - pose proof (R_js_get slot_rel slot_refl slot_trans slot_read slot_create
                  o k st) as Hg.
    destruct (js_get o k st) as [v st1]. simpl in Hg.
    eapply slot_trans; [exact Hg | apply IH].
  - pose proof (R_assign slot_rel slot_refl slot_trans
                  (λ h s, slot_same s (set_heap h s) eq_refl)
                  slot_read slot_trigger slot_create o k v st) as Hs.
    destruct (assign o k v st) as [[u | e] st1]; simpl in *; [| done].
    eapply slot_trans; [exact Hs | apply IH].
  - pose proof (R_delete_property slot_rel slot_refl
                  (λ h s, slot_same s (set_heap h s) eq_refl) o k st) as Hd.
    destruct (delete_property o k st) as [[u | e] st1]; simpl in *; [| done].
    eapply slot_trans; [exact Hd | apply IH].
  - pose proof (R_js_get slot_rel slot_refl slot_trans slot_read slot_create
                  o (KStr m) st) as Hg.
    destruct (js_get o (KStr m) st) as [f st1]. simpl in Hg.
    pose proof (R_call_function native slot_rel slot_refl slot_trans
                  (λ h s, slot_same s (set_heap h s) eq_refl)
                  slot_read slot_trigger slot_create
                  (λ s, or_intror eq_refl) slot_restore f o args st1) as Hc.
    destruct (call_function native f o args st1) as [[v | e] st2];
      simpl in *; [| eapply slot_trans; eauto].
    eapply slot_trans; [| apply IH]. eapply slot_trans; eauto.
  - pose proof (slot_create o pa k st) as Hc.
    destruct (createState o pa k st) as [p st1]. simpl in Hc.
    eapply slot_trans; [exact Hc | apply IH].
  - pose proof (effect_clears_slot (run_prog native fn) fn st) as He.
    destruct (effect (run_prog native fn) fn st) as [[d | e] st1];
      simpl in *; [| by right].
    eapply slot_trans; [right; exact He | apply IH].
  - eapply slot_trans; [| apply IH]. apply slot_same.
    destruct d as [e]. unfold dispose. simpl. apply activeEffect_cleanup.
  - unfold createEffect. destruct (activeComponentEffects st); simpl;
      [| apply slot_refl].
    eapply slot_trans; [| apply IH]. by apply slot_same.
  - specialize (IHb st).
    destruct (run_prog native body st) as [[r | e] st1]; simpl in *;
      (eapply slot_trans; [exact IHb | apply IH]).
Qed.

Lemma slot_empty_run_prog p st :
  activeEffect st = None → activeEffect (run_prog native p st).2 = None.
Proof.
  intros H. destruct (slot_run_prog p st) as [H1 | H1]; congruence.
Qed.

Lemma slot_empty_call_sub e st :
  activeEffect st = None → activeEffect (call_sub native e st).2 = None.
Proof.
  intros H. unfold call_sub.
  destruct (closures (log_run e st) !! e) as [[fn | fn c] |]; simpl;
    [apply execute_clears_slot | | done].
  unfold effectRunner, run_cleanup. destruct c as [c |].
  - pose proof (slot_empty_run_prog c (log_run e st) H) as H1.
    destruct (run_prog native c (log_run e st)) as [[r | x] s1];
      simpl in *; [| done].
    pose proof (slot_empty_run_prog fn s1 H1) as H2.
    by destruct (run_prog native fn s1) as [[r' | x] s2].
  - pose proof (slot_empty_run_prog fn (log_run e st) H) as H2.
    by destruct (run_prog native fn (log_run e st)) as [[r' | x] s2].
Qed.

Lemma slot_empty_run_batch l st :
  activeEffect st = None → activeEffect (run_batch native l st).2 = None.
Proof.
  revert st. induction l as [| e l IH]; intros st H; simpl; [done |].
  pose proof (slot_empty_call_sub e st H) as H1.
  destruct (call_sub native e st) as [[u | x] st1]; simpl in *; [| done].
  by apply IH.
Qed.

Lemma reachable_slot_empty avoid st :
  reachable native avoid st → activeEffect st = None.
Proof.
  intros Hr. induction Hr as [h | st p _ IH | st p _ IH
    | st o st' _ IH Ht | st fn _ IH | st r deps _ _ IH].
  - done.
  - by apply slot_empty_run_prog.
  - unfold with_registration.
    pose proof (slot_empty_run_prog p
                  (set_activeComponentEffects (Some []) st) IH) as H.
    by destruct (run_prog native p _) as [o st1].
  - unfold run_microtask in Ht. destruct (microtasks st) as [| n]; [done |].
    injection Ht as Ht. unfold flushEffects in Ht.
    pose proof (slot_empty_run_batch (pendingEffects st)
                  (set_scheduler [] false n st) IH) as H.
    simpl in Ht.
    change (set_scheduler [] false n
              (set_scheduler (pendingEffects st) (isFlushPending st) n st))
      with (set_scheduler [] false n st) in Ht.
    by rewrite Ht in H.
  - rewrite reactiveEffectFn_restores_slot. exact IH.
  - unfold unmount, run_cleanup.
    destruct (match closures st !! r with
              | Some (CRunner _ c) => c | _ => None end) as [c |];
      [| done].
    pose proof (slot_empty_run_prog c st IH) as H.
    by destruct (run_prog native c st) as [[u | x] st1].
Qed.

Lemma js_get_inactive_graph r k st :
  activeEffect st = None →
  effectDepsMap (js_get r k st).2 = effectDepsMap st.
Proof.
  revert st. induction r as [a | id b t IH]; intros st Ha; simpl; [done |].
  destruct (b && in_arrayInstrumentations k); simpl; [done |].
  specialize (IH st Ha).
  destruct (js_get_inactive t k st Ha) as (Ha1 & _).
  destruct (js_get t k st) as [v st1]. simpl in *.
  rewrite track_inactive by done.
  destruct (as_object v) as [o |]; simpl; [| done].
  destruct (createState_cases o (Some t) (Some k) (log_read t k st1))
    as [Hc | (n & pc & pp & Hc)];
    destruct (createState o (Some t) (Some k) _) as [p st3]; simpl in *;
    subst st3; done.
Qed.

(** X2.  Between scheduling turns no subscriber is active, so a read made at
    top level, through any wrapper, records no dependency and enqueues
    nothing. *)
Theorem X2_slot_empty_between_turns avoid st :
  reachable native avoid st →
  activeEffect st = None ∧
  ∀ r k, targetMap (js_get r k st).2 = targetMap st ∧
         effectDepsMap (js_get r k st).2 = effectDepsMap st ∧
         pendingEffects (js_get r k st).2 = pendingEffects st.
Proof.
  intros Hr. pose proof (reachable_slot_empty avoid st Hr) as Ha.
  split; [done |]. intros r k.
  destruct (js_get_inactive r k st Ha) as (_ & Ht & Hp).
  split_and!; [done | by apply js_get_inactive_graph | done].
Qed.

(** X14.  An instrumented array method whose native method throws does not
    restore the active subscriber: the state is as the native method left it,
    with the slot empty, so the reads that follow record no dependency even
    inside an effect. *)
Theorem X14_mutator_exception_drops_slot m this args st x st' :
  instrumented native m this args st = (Throw x, st') →
  activeEffect st' = None ∧
  st' = (run_nprog this (native m this args) (set_activeEffect None st)).2 ∧
  ∀ r k, targetMap (js_get r k st').2 = targetMap st' ∧
         effectDepsMap (js_get r k st').2 = effectDepsMap st'.
Proof.
  intros H. unfold instrumented in H.
  destruct (run_nprog_inactive this (native m this args)
              (set_activeEffect None st) eq_refl) as (Ha & _).
  destruct (run_nprog this (native m this args) (set_activeEffect None st))
    as [[res | e] st2]; [done |].
  injection H as _ <-. simpl in Ha. split_and!; [done | done |].
  intros r k. destruct (js_get_inactive r k st2 Ha) as (_ & Ht & _).
  split; [done | by apply js_get_inactive_graph].
Qed.

(** ** The two indexes of the graph *)

Lemma mirror_back_same st st' :
  targetMap st' = targetMap st → effectDepsMap st' = effectDepsMap st →
  (∀ e, mirror_back st e) → ∀ e, mirror_back st' e.
Proof.
  unfold mirror_back, reverse, forward. intros -> ->. done.
Qed.

Lemma mirror_back_track t k st :
  (∀ e, mirror_back st e) → ∀ e, mirror_back (track t k st) e.
Proof.
  intros H e t' k' Hin. destruct (activeEffect st) as [a |] eqn:Ea;
    [| rewrite track_inactive in * by done; by apply H].
  rewrite reverse_track in Hin. rewrite (forward_track _ _ _ a) by done.
  destruct (decide ((t, k) = (t', k'))) as [Heq | Hne].
  - apply elem_of_set_add. injection Heq as <- <-.
    destruct (decide (activeEffect st = Some e)) as [Hd | Hd].
    + left. congruence.
    + right. by apply H.
  - apply H. destruct (decide (activeEffect st = Some e)); [| done].
    apply elem_of_app in Hin as [Hin | Hin]; [done |].
    apply list_elem_of_singleton in Hin. congruence.
Qed.

Lemma mirror_back_cleanup x st :
  (∀ e, mirror_back st e) → ∀ e, mirror_back (cleanup x st) e.
Proof.
  intros H e t k Hin. rewrite reverse_cleanup in Hin.
  destruct (decide (x = e)) as [-> | Hne];
    [by apply not_elem_of_nil in Hin |].
  apply elem_of_forward_cleanup. split; [by apply H | left; congruence].
Qed.

Lemma mirror_back_dispose d st :
  (∀ e, mirror_back st e) → ∀ e, mirror_back (dispose d st) e.
Proof.
  destruct d as [x]. intros H e t k Hin.
  pose proof (mirror_back_cleanup x st H e t k) as Hc.
  unfold dispose, reverse, forward in *. simpl in *.
  destruct (decide (x = e)) as [-> | Hne].
  - rewrite lookup_delete_eq in Hin. by apply not_elem_of_nil in Hin.
  - rewrite lookup_delete_ne in Hin by done. by apply Hc.
Qed.

Lemma reachable_mirror_back avoid st :
  reachable native avoid st → ∀ e, mirror_back st e.
Proof.
  apply (reachable_keeps native (λ s, ∀ e, mirror_back s e)).
  - intros h s. by apply mirror_back_same.
  - intros t s. by apply mirror_back_same.
  - intros x s. by apply mirror_back_same.
  - intros x s. by apply mirror_back_same.
  - intros c n s. by apply mirror_back_same.
  - apply mirror_back_track.
  - intros e s. apply mirror_back_same;
      [apply targetMap_queueEffect | apply effectDepsMap_queueEffect].
  - intros o pa k s.
    destruct (createState_cases o pa k s) as [-> | (n & pc & pp & ->)];
      [done | by apply mirror_back_same].
  - apply mirror_back_cleanup.
  - apply mirror_back_dispose.
  - intros r s H e t k Hin. unfold forward. simpl.
    apply elem_of_foldl_subscribe. left. by apply H.
  - intros r deps s H e t k Hin. unfold forward, reverse in *. simpl in *.
    destruct (decide (r = e)) as [-> | Hne].
    + rewrite lookup_delete_eq in Hin. by apply not_elem_of_nil in Hin.
    + rewrite lookup_delete_ne in Hin by done.
      apply elem_of_foldl_remove_dep. split; [by apply H | left; congruence].
  - intros n s H _. revert H. by apply mirror_back_same.
  - intros h e t k Hin. unfold reverse in Hin. simpl in Hin.
    rewrite lookup_empty in Hin. by apply not_elem_of_nil in Hin.
Qed.

(** X3.  The forward and the reverse index agree: in every reachable state
    a subscriber that was never unmounted is in the forward set of an edge
    exactly when its reverse entry lists that edge. *)
Theorem X3_graph_indexes_agree e st t k :
  reachable native (Some e) st →
  (e ∈ forward st t k ↔ (t, k) ∈ reverse st e).
Proof.
  intros Hr. split.
  - destruct (reachable_invariants native (Some e) st Hr) as (_ & _ & _ & Hm).
    by apply Hm.
  - by apply (reachable_mirror_back (Some e) st Hr).
Qed.

Lemma graph_createState o pa k st :
  targetMap (createState o pa k st).2 = targetMap st ∧
  effectDepsMap (createState o pa k st).2 = effectDepsMap st.
Proof.
  by destruct (createState_cases o pa k st) as [-> | (n & pc & pp & ->)].
Qed.

Lemma js_get_plain id b a k st :
  b && in_arrayInstrumentations k = false →
  js_get (Prx id b (Obj a)) k st =
  let st2 := track (Obj a) k (log_read (Obj a) k st) in
  match as_object (raw_get a k st) with
  | Some o =>
      let '(p, st3) := createState o (Some (Obj a)) (Some k) st2 in
      (VRef p, st3)
  | None => (raw_get a k st, st2)
  end.
Proof. intros H. simpl. by rewrite H. Qed.

(** X4.  A tracked read through a wrapper appends the edge to the active
    subscriber's reverse entry every time, also when the edge is already
    there, while the forward set takes the subscriber once: a repeated read
    leaves the forward index as it is and makes the reverse entry longer. *)
Theorem X4_repeated_read_grows_reverse id b a k e st :
  activeEffect st = Some e → b && in_arrayInstrumentations k = false →
  let st1 := (js_get (Prx id b (Obj a)) k st).2 in
  reverse st1 e = reverse st e ++ [(Obj a, k)] ∧
  (∀ t' k', forward st1 t' k' =
            if decide ((Obj a, k) = (t', k'))
            then set_add e (forward st (Obj a) k) else forward st t' k') ∧
  (e ∈ forward st (Obj a) k → ∀ t' k', forward st1 t' k' = forward st t' k').
Proof.
  intros Ha Hb st1.
  set (s0 := track (Obj a) k (log_read (Obj a) k st)).
  assert (targetMap st1 = targetMap s0 ∧ effectDepsMap st1 = effectDepsMap s0)
    as [Ht He].
  { unfold st1. rewrite js_get_plain by done. simpl. fold s0.
    destruct (as_object (raw_get a k st)) as [o |]; [| done].
    pose proof (graph_createState o (Some (Obj a)) (Some k) s0) as H.
    by destruct (createState o _ _ s0). }
  assert (reverse st1 e = reverse st e ++ [(Obj a, k)]) as Hrev.
  { unfold reverse at 1. rewrite He.
    change (default [] (effectDepsMap s0 !! e)) with (reverse s0 e).
    unfold s0. rewrite reverse_track. simpl. by rewrite decide_True. }
  assert (∀ t' k', forward st1 t' k' =
            if decide ((Obj a, k) = (t', k'))
            then set_add e (forward st (Obj a) k) else forward st t' k')
    as Hfw.
  { intros t' k'. unfold forward at 1. rewrite Ht.
    change (lookup_deps (targetMap s0) t' k') with (forward s0 t' k').
    unfold s0. by rewrite (forward_track _ _ _ e). }
  split_and!; [done | done |].
  intros Hin t' k'. rewrite Hfw. case_decide as Hd; [| done].
  injection Hd as <- <-. unfold set_add. by rewrite decide_True.
Qed.

(** ** Disposal of free-standing effects *)

(** X26.  [effect] invokes its body once, synchronously, as a new
    subscriber: no further invocation of that subscriber happens before
    [effect] returns, the slot is empty afterwards, the result is the
    subscriber's disposer or the body's exception, and the subscriber is
    filed only under edges whose read was tracked for it in that run. *)
Theorem X26_effect_runs_once_at_creation avoid fn st :
  reachable native avoid st →
  let e := next_sub st in
  let st' := (effect (run_prog native fn) fn st).2 in
  activeEffect st' = None ∧
  ((effect (run_prog native fn) fn st).1 = Normal (Disposer e) ∨
   ∃ x, (effect (run_prog native fn) fn st).1 = Throw x) ∧
  ∃ ev, trace st' = trace st ++ ERun e :: ev ∧ run_count e ev = 0 ∧
        ∀ t k, e ∈ forward st' t k → ERead (Some e) t k ∈ ev.
Proof.
  intros Hr e st'.
  destruct (reachable_invariants native avoid st Hr)
    as (_ & _ & (_ & Hfa & _) & _).
  split; [apply effect_clears_slot |].
  unfold st', effect, execute.
  set (st2 := set_activeEffect (Some (next_sub st))
                (cleanup (next_sub st)
                   (log_run (next_sub st) (alloc_sub (CExecute fn) st)))).
  assert (trace st2 = trace st ++ [ERun e]) as Ht2.
  { unfold st2. simpl. by rewrite trace_cleanup. }
  assert (next_sub st2 = S e) as Hn2.
  { unfold st2. simpl. by rewrite next_sub_cleanup. }
  assert (∀ t k, e ∉ forward st2 t k) as Hf2.
  { intros t k Hin.
    change (forward st2 t k)
      with (forward (cleanup (next_sub st)
                       (log_run (next_sub st) (alloc_sub (CExecute fn) st)))
              t k) in Hin.
    apply elem_of_forward_cleanup in Hin as [Hin _].
    apply Hfa in Hin. unfold e in Hin. lia. }
  destruct (grows_run_prog native fn st2) as (_ & ev & He & _ & Hfresh).
  destruct (tracked_run_prog native e fn st2) as (ev' & He' & Htr).
  rewrite He in He'. apply trace_app_inv in He'. subst ev'.
  assert (run_count e ev = 0) as Hc.
  { unfold run_count. rewrite filter_none; [done |].
    intros y Hy ->. apply Hfresh in Hy. lia. }
  destruct (run_prog native fn st2) as [[u | x] st3]; simpl in *.
  - split; [by left |]. exists ev. rewrite He, Ht2, <- app_assoc.
    split_and!; [done | done |]. intros t k Hin.
    destruct (Htr t k Hin) as [H | H]; [by apply Hf2 in H | done].
  - split; [right; eauto |]. exists ev. rewrite He, Ht2, <- app_assoc.
    split_and!; [done | done |]. intros t k Hin.
    destruct (Htr t k Hin) as [H | H]; [by apply Hf2 in H | done].
Qed.

Lemma disposed_same e st st' :
  next_sub st' = next_sub st → activeEffect st' = activeEffect st →
  pendingEffects st' = pendingEffects st → targetMap st' = targetMap st →
  disposed e st → disposed e st'.
Proof. unfold disposed, forward. intros -> -> -> ->. done. Qed.

Lemma disposed_read e t k st :
  disposed e st → disposed e (track t k (log_read t k st)).
Proof.
  intros (Hn & Ha & Hp & Hf).
  destruct (scheduler_track t k (log_read t k st)) as (Hpe & _).
  split_and!.
  - by rewrite next_sub_track.
  - by rewrite activeEffect_track.
  - by rewrite Hpe.
  - intros t' k' Hin. destruct (activeEffect st) as [x |] eqn:Ex.
    + rewrite (forward_track _ _ _ x) in Hin by done.
      destruct (decide ((t, k) = (t', k'))); [| by apply Hf in Hin].
      apply elem_of_set_add in Hin as [-> | Hin]; [done |].
      by apply Hf in Hin.
    + rewrite track_inactive in Hin by done. by apply Hf in Hin.
Qed.

Lemma disposed_trigger e t k st : disposed e st → disposed e (trigger t k st).
Proof.
  intros (Hn & Ha & Hp & Hf).
  destruct (trigger_frame t k st)
    as (Ha' & Ht & _ & _ & _ & _ & _ & Hn' & _).
  split_and!.
  - by rewrite Hn'.
  - by rewrite Ha'.
  - intros Hin. apply (trigger_spec t k st) in Hin as [Hin | Hin];
      [done | by apply Hf in Hin].
  - intros t' k'. unfold forward. rewrite Ht. apply Hf.
Qed.

Lemma disposed_cleanup e x st : disposed e st → disposed e (cleanup x st).
Proof.
  intros (Hn & Ha & Hp & Hf).
  destruct (scheduler_cleanup x st) as (Hpe & _). split_and!.
  - by rewrite next_sub_cleanup.
  - by rewrite activeEffect_cleanup.
  - by rewrite Hpe.
  - intros t k Hin. apply elem_of_forward_cleanup in Hin as [Hin _].
    by apply Hf in Hin.
Qed.

Lemma disposed_dispose e d st : disposed e st → disposed e (dispose d st).
Proof.
  destruct d as [x]. intros H. apply (disposed_cleanup e x) in H.
  revert H. unfold dispose. by apply disposed_same.
Qed.

Lemma disposed_begin e c st :
  disposed e st →
  disposed e (set_activeEffect (Some (next_sub st))
                (cleanup (next_sub st)
                   (log_run (next_sub st) (alloc_sub c st)))).
Proof.
  intros (Hn & Ha & Hp & Hf).
  assert (disposed e (log_run (next_sub st) (alloc_sub c st))) as H0
    by (split_and!; [simpl; lia | done | done | done]).
  apply (disposed_cleanup e (next_sub st)) in H0.
  destruct H0 as (Hn0 & _ & Hp0 & Hf0).
  split_and!; [done | | done | done].
  simpl. intros [= Heq]. lia.
Qed.

Lemma disposed_run_prog e p st :
  disposed e st → disposed e (run_prog native p st).2.
Proof.
  apply (R_run_prog native (keeps (disposed e))); unfold keeps.
  - auto.
  - auto.
  - intros h s. by apply disposed_same.
  - intros t k s. apply disposed_read.
  - intros t k s. apply disposed_trigger.
  - intros o pa k s.
    destruct (createState_cases o pa k s) as [-> | (n & pc & pp & ->)];
      [done | by apply disposed_same].
  - intros s (Hn & Ha & Hp & Hf). by split_and!.
  - intros s s2 H (Hn & Ha & Hp & Hf).
    destruct H as (Hn2 & _ & Hp2 & Hf2); [by split_and! |].
    by split_and!.
  - intros d s. apply disposed_dispose.
  - intros c s. apply disposed_begin.
  - intros x s. by apply disposed_same.
Qed.

Lemma disposed_call_sub e x st :
  x ≠ e → disposed e st → disposed e (call_sub native x st).2.
Proof.
  intros Hne Hd. unfold call_sub.
  assert (disposed e (log_run x st)) as H0 by by apply (disposed_same e st).
  destruct (closures (log_run x st) !! x) as [[fn | fn c] |]; simpl;
    [| | done].
  - unfold execute.
    set (st2 := set_activeEffect (Some x) (cleanup x (log_run x st))).
    assert (disposed e st2) as H2.
    { apply (disposed_cleanup e x) in H0.
      destruct H0 as (Hn & _ & Hp & Hf). split_and!; try done.
      simpl. congruence. }
    pose proof (disposed_run_prog e fn st2 H2) as H3.
    destruct (run_prog native fn st2) as [[u | y] st3]; simpl in *;
      destruct H3 as (Hn & _ & Hp & Hf); by split_and!.
  - unfold effectRunner, run_cleanup.
    assert (∀ s fn', disposed e s →
              disposed e
                (match run_prog native fn' s with
                 | (Normal c', s2) => (Normal tt, set_cleanup x fn' c' s2)
                 | (Throw y, s2) => (Throw y, s2)
                 end).2) as Hrun.
    { intros s fn' Hs. pose proof (disposed_run_prog e fn' s Hs) as H.
      by destruct (run_prog native fn' s) as [[c' | y] s2]. }
    destruct c as [c |]; [| by apply Hrun].
    pose proof (disposed_run_prog e c (log_run x st) H0) as H1.
    destruct (run_prog native c (log_run x st)) as [[u | y] s1];
      simpl in *; [| done].
    by apply Hrun.
Qed.

Lemma disposed_run_batch e l st :
  e ∉ l → disposed e st → disposed e (run_batch native l st).2.
Proof.
  revert st. induction l as [| x l IH]; intros st Hl Hd; simpl; [done |].
  apply not_elem_of_cons in Hl as [Hne Hl].
  pose proof (disposed_call_sub e x st (not_eq_sym Hne) Hd) as H1.
  destruct (call_sub native x st) as [[u | y] st1]; simpl in *; [| done].
  by apply IH.
Qed.

Lemma disposed_mount e fn st :
  disposed e st → disposed e (reactiveEffectFn native fn st).2.
Proof.
  intros Hd. unfold reactiveEffectFn.
  set (st1 := set_activeEffect _ (alloc_sub _ st)).
  assert (disposed e st1) as H1.
  { destruct Hd as (Hn & Ha & Hp & Hf). unfold st1. split_and!; try done.
    - simpl. lia.
    - simpl. intros [= Heq]. lia. }
  pose proof (disposed_run_prog e fn st1 H1) as H2.
  destruct Hd as (Hn0 & Ha0 & _ & _).
  destruct (run_prog native fn st1) as [[c | x] st2]; simpl in *;
    destruct H2 as (Hn & _ & Hp & Hf); split_and!; try done.
  intros t k Hin. unfold forward in Hin. simpl in Hin.
  apply elem_of_foldl_subscribe in Hin as [Hin | [Heq _]];
    [by apply Hf in Hin | lia].
Qed.

Lemma disposed_unmount e r deps st :
  disposed e st → disposed e (unmount native r deps st).2.
Proof.
  intros Hd. unfold unmount, run_cleanup.
  assert (∀ s, disposed e s →
            disposed e
              (set_graph (foldl (remove_dep r) (targetMap s) deps)
                         (delete r (effectDepsMap s)) s)) as Hrem.
  { intros s (Hn & Ha & Hp & Hf). split_and!; try done.
    intros t k Hin. unfold forward in Hin. simpl in Hin.
    apply elem_of_foldl_remove_dep in Hin as [Hin _]. by apply Hf in Hin. }
  destruct (match closures st !! r with
            | Some (CRunner _ c) => c | _ => None end) as [c |].
  - pose proof (disposed_run_prog e c st Hd) as H1.
    destruct (run_prog native c st) as [[u | x] st1]; simpl in *; auto.
  - simpl. auto.
Qed.


(** X7.  Disposal does not cancel a run that is already queued: an effect
    disposed while it is in the pending set stays there, and the next flush
    still invokes it, once if the flush completes. *)
Theorem X7_dispose_keeps_queued_run avoid e st :
  reachable native avoid st → e ∈ pendingEffects st →
  let st' := dispose (Disposer e) st in
  e ∈ pendingEffects st' ∧
  ∃ ev, trace (flushEffects native st').2 = trace st' ++ ev ∧
        ((flushEffects native st').1 = Normal tt → run_count e ev = 1).
Proof.
  intros Hr Hin st'.
  destruct (reachable_invariants native avoid st Hr)
    as (Hnd & _ & (Hpa & _) & _).
  assert (pendingEffects st' = pendingEffects st) as Hp.
  { unfold st', dispose. simpl. apply scheduler_cleanup. }
  assert (next_sub st' = next_sub st) as Hn.
  { unfold st', dispose. simpl. apply next_sub_cleanup. }
  split; [by rewrite Hp |].
  destruct (flush_general native st') as (_ & ev & n & He & _ & _ & _ & H1 & _).
  - by rewrite Hp.
  - rewrite Hp, Hn. apply Forall_forall. exact Hpa.
  - exists ev. split; [done |]. intros Ho. apply H1; [done | by rewrite Hp].
Qed.

(** X8.  Calling a disposer a second time changes nothing. *)
Theorem X8_dispose_idempotent d st : dispose d (dispose d st) = dispose d st.
Proof.
  destruct d as [e]. unfold dispose at 1.
  assert (effectDepsMap (dispose (Disposer e) st) !! e = None) as Hd
    by (unfold dispose; simpl; apply lookup_delete_eq).
  unfold cleanup at 1 2 3. rewrite Hd.
  rewrite delete_id by done. by destruct (dispose (Disposer e) st).
Qed.

(** X9.  An effect whose first run throws after a tracked read gets no
    disposer, since [effect] rethrows, but stays subscribed: it is in the
    forward set of the edge it read and a trigger of that edge enqueues
    it. *)
Theorem X9_throwing_effect_stays_subscribed id b t k x st :
  b && in_arrayInstrumentations k = false →
  let fn := PGet (Prx id b t) k (λ _, PThrow x) in
  let e := next_sub st in
  ∃ st', effect (run_prog native fn) fn st = (Throw x, st') ∧
         e ∈ forward st' t k ∧
         e ∈ pendingEffects (trigger t k st').
Proof.
  intros Hb fn e. unfold effect, execute.
  set (st2 := set_activeEffect (Some (next_sub st)) _).
  pose proof (tracked_read_subscribes id b t k st2 e eq_refl Hb) as Hin.
  assert (run_prog native fn st2 =
          (Throw x, (js_get (Prx id b t) k st2).2)) as Hrun.
  { unfold fn. cbn [run_prog]. by destruct (js_get (Prx id b t) k st2). }
  rewrite Hrun. eexists. split; [reflexivity |].
  split; [done |]. apply trigger_spec. by right.
Qed.

(** ** Wrappers *)

Lemma cache_wf_same st st' :
  proxyCache st' = proxyCache st → next_id st' = next_id st →
  cache_wf st → cache_wf st'.
Proof. unfold cache_wf. intros -> ->. done. Qed.

Lemma cache_wf_createState o pa k st :
  cache_wf st → cache_wf (createState o pa k st).2.
Proof.
  intros H. unfold createState.
  destruct (proxyCache st !! o) as [p |] eqn:E; simpl; [done |].
  intros o' p' Hl. simpl in Hl.
  destruct (decide (o = o')) as [<- | Hne].
  - rewrite lookup_insert_eq in Hl. injection Hl as <-. simpl. eauto.
  - rewrite lookup_insert_ne in Hl by done.
    destruct (H o' p' Hl) as (id & b & -> & Hlt). simpl. eauto with lia.
Qed.

Lemma cache_wf_read t k st : cache_wf st → cache_wf (track t k (log_read t k st)).
Proof.
  apply cache_wf_same; unfold track; simpl; by destruct (activeEffect st).
Qed.

Lemma reachable_cache_wf avoid st :
  reachable native avoid st → cache_wf st.
Proof.
  apply (reachable_keeps native cache_wf).
  - intros h s. by apply cache_wf_same.
  - intros t s. by apply cache_wf_same.
  - intros x s. by apply cache_wf_same.
  - intros x s. by apply cache_wf_same.
  - intros c n s. by apply cache_wf_same.
  - intros t k s. apply cache_wf_same; unfold track;
      by destruct (activeEffect s).
  - intros e s. destruct (trigger_frame_queue e s) as (? & ?).
    by apply cache_wf_same.
  - apply cache_wf_createState.
  - intros e s. apply cache_wf_same; unfold cleanup;
      by destruct (effectDepsMap s !! e).
  - intros [e] s. apply cache_wf_same; unfold dispose, cleanup; simpl;
      by destruct (effectDepsMap s !! e).
  - intros r s. by apply cache_wf_same.
  - intros r deps s. by apply cache_wf_same.
  - intros n s H _. revert H. by apply cache_wf_same.
  - intros h o p Hl. simpl in Hl. by rewrite lookup_empty in Hl.
Qed.

Lemma prx_neq id b t : Prx id b t ≠ t.
Proof.
  revert id b. induction t as [a | id' b' t IH]; intros id b H; [done |].
  injection H as _ _ H. by apply IH in H.
Qed.

Lemma createState_proxy o pa k st :
  cache_wf st → ∃ id b, (createState o pa k st).1 = Prx id b o.
Proof.
  intros H. unfold createState.
  destruct (proxyCache st !! o) as [p |] eqn:E; simpl; [| eauto].
  destruct (H o p E) as (id & b & -> & _). eauto.
Qed.

(** X10.  A cached wrapper is a proxy made over the very object it is cached
    for, under an identifier already handed out; it differs from its target,
    and no two targets share a wrapper. *)
Theorem X10_wrapper_of_target avoid st o p :
  reachable native avoid st → proxyCache st !! o = Some p →
  (∃ id b, p = Prx id b o ∧ id < next_id st) ∧ p ≠ o ∧
  ∀ o', proxyCache st !! o' = Some p → o' = o.
Proof.
  intros Hr Hl. pose proof (reachable_cache_wf avoid st Hr) as Hwf.
  destruct (Hwf o p Hl) as (id & b & -> & Hlt). split_and!.
  - eauto.
  - apply prx_neq.
  - intros o' Hl'. destruct (Hwf o' _ Hl') as (id' & b'' & Heq & _).
    by injection Heq.
Qed.

Lemma define_own_lookup k v o o' :
  define_own k v o = Normal o' →
  props o' !! k = Some v ∨
  (is_array o = true ∧ k = KStr "length" ∧ (v = VNull ∨ ∃ b, v = VBool b)).
Proof.
  unfold define_own. intros H.
  destruct (is_array o);
    [| injection H as <-; left; simpl; apply lookup_insert_eq].
  destruct k as [s | i | n].
  - destruct (decide (s = "length")) as [-> | Hs];
      [| injection H as <-; left; simpl; apply lookup_insert_eq].
    destruct v as [| | b | z | | | |]; simpl in H; try done.
    + right. eauto.
    + right. eauto.
    + destruct (decide (0 ≤ z ≤ 4294967295)%Z); [| done].
      injection H as <-. left. simpl. apply lookup_insert_eq.
  - left. destruct (decide (array_length o ≤ i ∧ is_array_index i = true));
      injection H as <-; simpl; [| apply lookup_insert_eq].
    rewrite lookup_insert_ne by done. apply lookup_insert_eq.
  - injection H as <-. left. simpl. apply lookup_insert_eq.
Qed.

Lemma stored_as_written_lookup k v o o' :
  define_own k v o = Normal o' → stored_as_written o k v = true →
  props o' !! k = Some v.
Proof.
  intros Hd Hs.
  destruct (define_own_lookup k v o o' Hd) as [H | (Ha & -> & Hv)]; [done |].
  unfold stored_as_written in Hs. rewrite Ha in Hs. simpl in Hs.
  by destruct Hv as [-> | [b ->]].
Qed.

Lemma raw_set_get a k v st r st1 :
  raw_set a k v st = (Normal r, st1) →
  (raw_get a k st1 = v ∨
   (is_array (get_obj a st) = true ∧ k = KStr "length" ∧
    (v = VNull ∨ ∃ b, v = VBool b))) ∧
  proxyCache st1 = proxyCache st ∧
  next_id st1 = next_id st ∧ targetMap st1 = targetMap st ∧
  pendingEffects st1 = pendingEffects st.
Proof.
  unfold raw_set. intros H.
  destruct (define_own k v (get_obj a st)) as [o' |] eqn:Ed; [| done].
  injection H as _ <-. split; [| done].
  destruct (define_own_lookup _ _ _ _ Ed) as [Hl | Hr]; [left | by right].
  unfold raw_get, get_obj. simpl. rewrite lookup_insert_eq. simpl.
  by rewrite Hl.
Qed.

Lemma js_set_plain id b a k v st r st1 :
  js_set (Prx id b (Obj a)) k v st = (Normal r, st1) →
  (raw_get a k st1 = v ∨
   (is_array (get_obj a st) = true ∧ k = KStr "length" ∧
    (v = VNull ∨ ∃ b, v = VBool b))) ∧
  proxyCache st1 = proxyCache st ∧
  next_id st1 = next_id st ∧ targetMap st1 = targetMap st ∧
  (strict_eq (raw_get a k st) v = false →
   ∀ x, x ∈ forward st (Obj a) k → x ∈ pendingEffects st1).
Proof.
  simpl. intros H.
  destruct (raw_set a k v st) as [[res | e] st2] eqn:Es; [| done].
  destruct (raw_set_get _ _ _ _ _ _ Es) as (Hg & Hc & Hn & Htm & Hpe).
  injection H as _ <-.
  destruct (strict_eq (raw_get a k st) v).
  - by split_and!.
  - destruct (trigger_frame (Obj a) k st2)
      as (_ & Ht & _ & Hh & _ & Hpc & Hni & _).
    split_and!.
    + by rewrite (raw_get_heap a k st2 _ Hh).
    + by rewrite Hpc.
    + by rewrite Hni.
    + by rewrite Ht.
    + intros _ x Hx. apply trigger_spec. right. unfold forward.
      by rewrite Htm.
Qed.

(** X11.  A write through a wrapper lands in the target, and a read of the
    same key through the wrapper gives the value back (a primitive as it
    is, an object as its cached wrapper).  This is for an ordinary key (an
    own property, or a key the prototype chain does not define) and, where
    the key is an array's ["length"], for a number.  The exception is a key
    that the [get] trap of a wrapped array diverts to the instrumentations:
    there the stored value cannot be read back through the wrapper. *)
Theorem X11_write_then_read id b a k v r st st1 :
  ordinary_key (get_obj a st) k = true →
  stored_as_written (get_obj a st) k v = true →
  js_set (Prx id b (Obj a)) k v st = (Normal r, st1) →
  let w := Prx id b (Obj a) in
  raw_get a k st1 = v ∧
  (b && in_arrayInstrumentations k = true →
   (js_get w k st1).1 = arrayInstrumentations k) ∧
  (b && in_arrayInstrumentations k = false →
   match as_object v with
   | None => (js_get w k st1).1 = v
   | Some o => ∃ p, (js_get w k st1).1 = VRef p ∧
                    proxyCache (js_get w k st1).2 !! o = Some p
   end).
Proof.
  intros _ Hsw H w.
  assert (raw_get a k st1 = v) as Hg.
  { destruct (js_set_plain _ _ _ _ _ _ _ _ H) as ([Hg | (Ha & -> & Hv)] & _);
      [done |].
    unfold stored_as_written in Hsw. rewrite Ha in Hsw. simpl in Hsw.
    by destruct Hv as [-> | [b' ->]]. }
  split_and!; [done | |].
  - intros Hb. unfold w. simpl. by rewrite Hb.
  - intros Hb. unfold w. rewrite js_get_plain by done. simpl. rewrite Hg.
    destruct (as_object v) as [o |]; [| done].
    pose proof (createState_cached o (Some (Obj a)) (Some k)
                  (track (Obj a) k (log_read (Obj a) k st1))) as Hc.
    destruct (createState o _ _ _) as [p s3]. simpl in *. eauto.
Qed.

(** X12.  Writing back what was just read is not a no-op for an
    object-valued property: the read returns a wrapper, which differs from
    the raw object stored in the target, so the [set] trap stores the wrapper
    in the target and enqueues every subscriber of the edge; the next read
    returns a wrapper of that wrapper, a different value again. *)
Theorem X12_write_back_triggers avoid id b a k o v st st1 r st2 :
  reachable native avoid st →
  b && in_arrayInstrumentations k = false →
  raw_get a k st = VRef o →
  js_get (Prx id b (Obj a)) k st = (v, st1) →
  js_set (Prx id b (Obj a)) k v st1 = (Normal r, st2) →
  v ≠ VRef o ∧ raw_get a k st2 = v ∧
  (∀ x, x ∈ forward st1 (Obj a) k → x ∈ pendingEffects st2) ∧
  (js_get (Prx id b (Obj a)) k st2).1 ≠ v.
Proof.
  intros Hr Hb Hraw Hg Hs.
  pose proof (reachable_cache_wf avoid st Hr) as Hwf.
  rewrite js_get_plain in Hg by done. simpl in Hg. rewrite Hraw in Hg.
  simpl in Hg.
  set (s0 := track (Obj a) k (log_read (Obj a) k st)) in Hg.
  assert (cache_wf s0) as Hwf0 by by apply cache_wf_read.
  destruct (createState_proxy o (Some (Obj a)) (Some k) s0 Hwf0)
    as (id' & b' & Hp).
  pose proof (cache_wf_createState o (Some (Obj a)) (Some k) s0 Hwf0) as Hwf1.
  assert (heap (createState o (Some (Obj a)) (Some k) s0).2 = heap st) as Hh.
  { destruct (createState_cases o (Some (Obj a)) (Some k) s0)
      as [-> | (n & pc & pp & ->)]; unfold s0, track; simpl;
      by destruct (activeEffect st). }
  destruct (createState o (Some (Obj a)) (Some k) s0) as [p s1].
  simpl in Hp, Hwf1, Hh. injection Hg as <- <-. subst p.
  assert (VRef (Prx id' b' o) ≠ VRef o) as Hne.
  { intros [= Heq]. by apply prx_neq in Heq. }
  destruct (js_set_plain _ _ _ _ _ _ _ _ Hs) as (Hg2 & Hc2 & Hn2 & _ & Htr).
  destruct Hg2 as [Hg2 | (_ & _ & [Hv | [bv Hv]])]; [| done | done].
  split_and!; try done.
  - apply Htr. rewrite (raw_get_heap a k st s1 Hh), Hraw.
    unfold strict_eq. by apply bool_decide_eq_false.
  - rewrite js_get_plain by done. simpl. rewrite Hg2. simpl.
    set (s3 := track (Obj a) k (log_read (Obj a) k st2)).
    assert (cache_wf s3) as Hwf3.
    { apply cache_wf_read. revert Hwf1. by apply cache_wf_same. }
    destruct (createState_proxy (Prx id' b' o) (Some (Obj a)) (Some k) s3 Hwf3)
      as (id2 & b2 & Hp2).
    destruct (createState (Prx id' b' o) (Some (Obj a)) (Some k) s3)
      as [p2 s4]. simpl in *. subst p2.
    intros Heq.
    assert (Prx id2 b2 (Prx id' b' o) = Prx id' b' o) as Heq' by congruence.
    by apply prx_neq in Heq'.
Qed.

(** X22.  A write through a wrapper enqueues only the subscribers of the
    written key, although on an array it can change another property: an
    array index (a numeric key below [2^32 - 1]) written at or past the
    length makes the array longer, and the subscribers of ["length"] are not
    enqueued for it. *)
Theorem X22_index_write_grows_length_silently id b a i v st r st1 :
  is_array (get_obj a st) = true → array_length (get_obj a st) ≤ i →
  is_array_index i = true →
  js_set (Prx id b (Obj a)) (KIdx i) v st = (Normal r, st1) →
  array_length (get_obj a st1) = S i ∧
  raw_get a (KStr "length") st1 = VNum (Z.of_nat (S i)) ∧
  ∀ x, x ∈ pendingEffects st1 →
       x ∈ pendingEffects st ∨ x ∈ forward st (Obj a) (KIdx i).
Proof.
  intros Harr Hlen Hidx H. simpl in H.
  unfold raw_set, define_own in H. rewrite Harr in H.
  rewrite decide_True in H by done.
  set (o' := {| is_array := true; props := _ |}) in H.
  set (s2 := set_heap (<[a := o']> (heap st)) st) in H.
  assert (get_obj a s2 = o') as Hg
    by (unfold get_obj, s2; simpl; by rewrite lookup_insert_eq).
  assert (∀ s, heap s = heap s2 → get_obj a s = o') as Hg'
    by (intros s Hs; unfold get_obj; rewrite Hs; exact Hg).
  assert (props o' !! KStr "length" = Some (VNum (Z.of_nat (S i)))) as Hl
    by (unfold o'; simpl; apply lookup_insert_eq).
  assert (∀ s, heap s = heap s2 →
            array_length (get_obj a s) = S i ∧
            raw_get a (KStr "length") s = VNum (Z.of_nat (S i))) as Hres.
  { intros s Hs. unfold raw_get. rewrite (Hg' s Hs). unfold array_length.
    rewrite Hl. split; [lia | done]. }
  injection H as _ <-.
  destruct (strict_eq (raw_get a (KIdx i) st) v).
  - destruct (Hres s2 eq_refl) as [H1 H2]. split_and!; [done | done |].
    intros x Hx. by left.
  - destruct (trigger_frame (Obj a) (KIdx i) s2) as (_ & _ & _ & Hh & _).
    destruct (Hres _ Hh) as [H1 H2]. split_and!; [done | done |].
    intros x Hx. by apply (trigger_spec (Obj a) (KIdx i) s2) in Hx.
Qed.

(** A numeric key from [2^32 - 1] on is an ordinary key of an array: a write
    to it leaves the length as it is. *)
Lemma write_beyond_index_range id b a i v st r st1 :
  is_array (get_obj a st) = true → is_array_index i = false →
  js_set (Prx id b (Obj a)) (KIdx i) v st = (Normal r, st1) →
  array_length (get_obj a st1) = array_length (get_obj a st) ∧
  raw_get a (KIdx i) st1 = v.
Proof.
  intros Harr Hidx H. simpl in H.
  unfold raw_set, define_own in H. rewrite Harr in H.
  rewrite decide_False in H by (rewrite Hidx; intros [_ ?]; done).
  set (o' := {| is_array := true; props := _ |}) in H.
  set (s2 := set_heap (<[a := o']> (heap st)) st) in H.
  assert (∀ s, heap s = heap s2 → get_obj a s = o') as Hg'
    by (intros s Hs; unfold get_obj; rewrite Hs; unfold s2; simpl;
        by rewrite lookup_insert_eq).
  assert (∀ s, heap s = heap s2 →
            array_length (get_obj a s) = array_length (get_obj a st) ∧
            raw_get a (KIdx i) s = v) as Hres.
  { intros s Hs. unfold raw_get. rewrite (Hg' s Hs). unfold array_length, o'.
    simpl. rewrite lookup_insert_eq. by rewrite lookup_insert_ne. }
  injection H as _ <-.
  destruct (strict_eq (raw_get a (KIdx i) st) v).
  - by apply Hres.
  - destruct (trigger_frame (Obj a) (KIdx i) s2) as (_ & _ & _ & Hh & _).
    by apply Hres.
Qed.

Lemma linkage_kept_refl p st : linkage_kept p st st.
Proof. by split. Qed.

Lemma linkage_kept_trans p st1 st2 st3 :
  linkage_kept p st1 st2 → linkage_kept p st2 st3 → linkage_kept p st1 st3.
Proof.
  intros [Hn1 H1] [Hn2 H2]. split; [lia |]. intros Ha.
  rewrite H2 by by eapply allocated_mono. auto.
Qed.

Lemma linkage_kept_same p st st' :
  next_id st' = next_id st → proxyParentMap st' = proxyParentMap st →
  linkage_kept p st st'.
Proof. intros Hn Hp. split; [lia |]. by rewrite Hp. Qed.

Lemma linkage_kept_createState p o pa k st :
  linkage_kept p st (createState o pa k st).2.
Proof.
  unfold createState. destruct (proxyCache st !! o); simpl;
    [apply linkage_kept_refl |].
  split; simpl; [lia |]. intros Ha.
  destruct pa as [pa |]; [| done]. destruct k as [k |]; [| done].
  rewrite lookup_insert_ne; [done |].
  intros <-. simpl in Ha. lia.
Qed.

Lemma linkage_kept_run_nprog p this q st :
  linkage_kept p st (run_nprog this q st).2.
Proof.
  apply R_run_nprog.
  - apply linkage_kept_refl.
  - apply linkage_kept_trans.
  - intros h s. by apply linkage_kept_same.
  - intros t k s. unfold track. simpl.
    destruct (activeEffect s); by apply linkage_kept_same.
  - intros t k s.
    destruct (trigger_frame t k s) as (_ & _ & _ & _ & Hp & _ & Hn & _).
    by apply linkage_kept_same.
  - apply linkage_kept_createState.
Qed.

Lemma parent_notified_general m this args st pa k res st' x :
  allocated (next_id st) this →
  proxyParentMap st !! this = Some (pa, k) →
  instrumented native m this args st = (Normal res, st') →
  x ∈ forward st pa k → x ∈ pendingEffects st'.
Proof.
  intros Ha Hp Hi Hx.
  pose proof (instrumented_triggers native m this args st) as Ht.
  unfold instrumented in Hi.
  destruct (run_nprog this (native m this args) (set_activeEffect None st))
    as [[res' | e] st2] eqn:Hrun; [| done].
  specialize (Ht res' st2 x eq_refl).
  assert (st' = (instrumented native m this args st).2) as ->.
  { unfold instrumented. rewrite Hrun. by injection Hi as _ <-. }
  apply Ht. right. right. exists pa, k.
  destruct (linkage_kept_run_nprog this this (native m this args)
              (set_activeEffect None st)) as [_ Hk].
  rewrite Hrun in Hk. simpl in Hk. rewrite Hk by done. split; [done |].
  destruct (run_nprog_inactive this (native m this args)
              (set_activeEffect None st) eq_refl) as (_ & Htm & _).
  rewrite Hrun in Htm. simpl in Htm. unfold forward. by rewrite Htm.
Qed.

(** X13.  An instrumented array method called on a wrapper that has parent
    linkage, and whose native method returns, enqueues every subscriber of
    the parent's edge. *)
Theorem X13_mutator_notifies_parent m this args st pa k res st' x :
  allocated (next_id st) this →
  proxyParentMap st !! this = Some (pa, k) →
  instrumented native m this args st = (Normal res, st') →
  x ∈ forward st pa k → x ∈ pendingEffects st'.
Proof. apply parent_notified_general. Qed.

(** X21.  An object first reached by a read through a wrapper gets parent
    linkage to the property that holds it, the reading effect is filed under
    that property, and a mutator call on the new wrapper that returns
    enqueues every subscriber of the holding property. *)
Theorem X21_nested_mutation_notifies_holder id b a k c m args st :
  b && in_arrayInstrumentations k = false →
  raw_get a k st = VRef (Obj c) → proxyCache st !! Obj c = None →
  let st1 := (js_get (Prx id b (Obj a)) k st).2 in
  ∃ p, (js_get (Prx id b (Obj a)) k st).1 = VRef p ∧
       proxyCache st1 !! Obj c = Some p ∧
       proxyParentMap st1 !! p = Some (Obj a, k) ∧
       (∀ e, activeEffect st = Some e → e ∈ forward st1 (Obj a) k) ∧
       ∀ res st2 x,
         instrumented native m p args st1 = (Normal res, st2) →
         x ∈ forward st1 (Obj a) k → x ∈ pendingEffects st2.
Proof.
  intros Hb Hraw Hc st1.
  pose proof (tracked_read_subscribes id b (Obj a) k st) as Htr.
  unfold st1. rewrite js_get_plain by done. simpl. rewrite Hraw. simpl.
  rewrite js_get_plain in Htr by done. simpl in Htr. rewrite Hraw in Htr.
  simpl in Htr.
  set (s0 := track (Obj a) k (log_read (Obj a) k st)) in *.
  assert (proxyCache s0 !! Obj c = None) as Hc0.
  { unfold s0, track. simpl. by destruct (activeEffect st). }
  assert (next_id s0 = next_id st) as Hn0.
  { unfold s0, track. simpl. by destruct (activeEffect st). }
  unfold createState in *. rewrite Hc0 in *. simpl in *.
  eexists. split; [reflexivity |]. split_and!.
  - apply lookup_insert_eq.
  - apply lookup_insert_eq.
  - intros e Ha. by apply Htr.
  - intros res st2 x Hi Hx.
    eapply (parent_notified_general m _ args _ (Obj a) k res st2 x);
      [| | exact Hi | exact Hx].
    + simpl. split; [lia | done].
    + simpl. apply lookup_insert_eq.
Qed.

Lemma paused_refl st : paused st st.
Proof. by intros H. Qed.

Lemma paused_trans st1 st2 st3 : paused st1 st2 → paused st2 st3 → paused st1 st3.
Proof.
  intros H1 H2 Ha. destruct (H1 Ha) as (Ha2 & Ht2 & He2).
  destruct (H2 Ha2) as (Ha3 & Ht3 & He3). split_and!; congruence.
Qed.

Lemma paused_run_nprog this q st : paused st (run_nprog this q st).2.
Proof.
  apply R_run_nprog.
  - apply paused_refl.
  - apply paused_trans.
  - by intros h s Ha.
  - intros t k s Ha. by rewrite track_inactive.
  - intros t k s Ha.
    by destruct (trigger_frame t k s) as (-> & -> & -> & _).
  - intros o pa k s Ha.
    by destruct (createState_cases o pa k s) as [-> | (n & pc & pp & ->)].
Qed.

(** X23.  An instrumented array method that returns records no dependency:
    tracking is paused while the native method reads and writes through the
    proxy, and afterwards the active subscriber is back and both indexes of
    the graph are as before the call. *)
Theorem X23_mutator_records_no_dependency m this args st res st' :
  instrumented native m this args st = (Normal res, st') →
  activeEffect st' = activeEffect st ∧ targetMap st' = targetMap st ∧
  effectDepsMap st' = effectDepsMap st.
Proof.
  intros H. unfold instrumented in H.
  destruct (paused_run_nprog this (native m this args)
              (set_activeEffect None st) eq_refl) as (_ & Ht & He).
  destruct (run_nprog this (native m this args) (set_activeEffect None st))
    as [[res' | e] st2]; [| done].
  simpl in Ht, He. injection H as _ <-.
  set (st3 := set_activeEffect (activeEffect st) st2).
  set (st4 := trigger this (KStr m) st3).
  set (st5 := trigger this (KStr "length") st4).
  destruct (trigger_frame this (KStr m) st3) as (Ha4 & Ht4 & He4 & _).
  destruct (trigger_frame this (KStr "length") st4) as (Ha5 & Ht5 & He5 & _).
  fold st4 in Ha4, Ht4, He4. fold st5 in Ha5, Ht5, He5.
  assert (activeEffect st5 = activeEffect st ∧ targetMap st5 = targetMap st ∧
          effectDepsMap st5 = effectDepsMap st) as (H1 & H2 & H3).
  { rewrite Ha5, Ha4, Ht5, Ht4, He5, He4. by split_and!. }
  destruct (proxyParentMap st5 !! this) as [[pa k] |]; [| done].
  destruct (trigger_frame pa k st5) as (-> & -> & -> & _). done.
Qed.

(** ** Scoped effects *)

Lemma run_registrations fns l st :
  run_prog native (registrations fns)
    (set_activeComponentEffects (Some l) st) =
  (Normal None, set_activeComponentEffects (Some (l ++ fns)) st).
Proof.
  revert l. induction fns as [| f fns IH]; intros l; simpl.
  - by rewrite app_nil_r.
  - unfold createEffect. simpl.
    change (set_activeComponentEffects (Some (l ++ [f]))
              (set_activeComponentEffects (Some l) st))
      with (set_activeComponentEffects (Some (l ++ [f])) st).
    rewrite IH. by rewrite <- app_assoc.
Qed.

(** X15.  [createEffect] called during a component's setup only registers:
    the functions come back to the host in registration order, nothing else
    in the state changes (no body has run), and the registration context is
    closed afterwards, so a later [createEffect] raises the usage error. *)
Theorem X15_registration_defers fns st :
  with_registration native (registrations fns) st =
    ((Normal None, fns), set_activeComponentEffects None st) ∧
  ∀ fn, (createEffect fn (with_registration native (registrations fns) st).2).1
        = Throw (UsageError
            "createEffect can only be called inside a reactive component setup").
Proof.
  assert (with_registration native (registrations fns) st =
            ((Normal None, fns), set_activeComponentEffects None st)) as H.
  { unfold with_registration. by rewrite (run_registrations fns [] st). }
  split; [done |]. intros fn. by rewrite H.
Qed.

Lemma unread_refl r st : unread r st st.
Proof.
  split; [done |]. intros _ H. split; [done |]. exists [].
  rewrite app_nil_r. split; [done |]. intros t k. apply not_elem_of_nil.
Qed.

Lemma unread_trans r st1 st2 st3 :
  unread r st1 st2 → unread r st2 st3 → unread r st1 st3.
Proof.
  intros [Hn1 H1] [Hn2 H2]. split; [lia |]. intros Hr Ha.
  destruct (H1 Hr Ha) as (Ha2 & ev1 & He1 & Hno1).
  destruct H2 as (Ha3 & ev2 & He2 & Hno2); [lia | done |].
  split; [done |]. exists (ev1 ++ ev2). rewrite He2, He1, app_assoc.
  split; [done |]. intros t k Hin.
  apply elem_of_app in Hin as [Hin | Hin]; [by apply Hno1 in Hin |].
  by apply Hno2 in Hin.
Qed.

Lemma unread_same r st st' ev :
  next_sub st' = next_sub st → activeEffect st' = activeEffect st →
  trace st' = trace st ++ ev → (∀ t k, ERead (Some r) t k ∉ ev) →
  unread r st st'.
Proof.
  intros Hn Ha He Hno. split; [lia |]. intros _ H. rewrite Ha.
  split; [done |]. by exists ev.
Qed.

Lemma unread_quiet r st st' :
  next_sub st' = next_sub st → activeEffect st' = activeEffect st →
  trace st' = trace st → unread r st st'.
Proof.
  intros Hn Ha He. apply (unread_same r st st' []); try done.
  - by rewrite app_nil_r.
  - intros t k. apply not_elem_of_nil.
Qed.

Lemma unread_read r t k st : unread r st (track t k (log_read t k st)).
Proof.
  split; [by rewrite next_sub_track |]. intros _ Ha.
  rewrite activeEffect_track. split; [done |].
  exists [ERead (activeEffect st) t k]. rewrite trace_track.
  split; [done |]. intros t' k' Hin. apply list_elem_of_singleton in Hin.
  congruence.
Qed.

Lemma unread_queueEffect r e st : unread r st (queueEffect e st).
Proof.
  apply (unread_same r _ _ [EQueue e]).
  - apply next_sub_queueEffect.
  - unfold queueEffect. simpl. by destruct (isFlushPending st).
  - apply trace_queueEffect.
  - intros t k Hin. by apply list_elem_of_singleton in Hin.
Qed.

Lemma unread_trigger r t k st : unread r st (trigger t k st).
Proof.
  apply (trigger_respects (unread r));
    [apply unread_refl | apply unread_trans | intros; apply unread_queueEffect].
Qed.

Lemma unread_create r o pa k st : unread r st (createState o pa k st).2.
Proof.
  destruct (createState_cases o pa k st) as [-> | (n & pc & pp & ->)];
    [apply unread_refl | by apply unread_quiet].
Qed.

Lemma unread_cleanup r e st : unread r st (cleanup e st).
Proof.
  apply unread_quiet;
    [apply next_sub_cleanup | apply activeEffect_cleanup | apply trace_cleanup].
Qed.

Lemma unread_dispose r d st : unread r st (dispose d st).
Proof.
  destruct d as [e]. unfold dispose. apply unread_quiet; simpl;
    [apply next_sub_cleanup | apply activeEffect_cleanup | apply trace_cleanup].
Qed.

Lemma unread_set_active r x st :
  x ≠ Some r → unread r st (set_activeEffect x st).
Proof.
  intros Hx. split; [done |]. intros _ _. split; [done |]. exists [].
  simpl. rewrite app_nil_r. split; [done |]. intros t k.
  apply not_elem_of_nil.
Qed.

Lemma unread_restore r st st2 :
  unread r (set_activeEffect None st) st2 →
  unread r st (set_activeEffect (activeEffect st) st2).
Proof.
  intros [Hn H]. split; [done |]. intros Hr Ha.
  destruct (H Hr) as (_ & ev & He & Hno); [done |]. split; [done |].
  by exists ev.
Qed.

Lemma unread_begin r c st :
  unread r st (set_activeEffect (Some (next_sub st))
                 (cleanup (next_sub st)
                    (log_run (next_sub st) (alloc_sub c st)))).
Proof.
  split; [simpl; rewrite next_sub_cleanup; simpl; lia |]. intros Hr _.
  split; [simpl; intros [= Heq]; lia |].
  exists [ERun (next_sub st)]. simpl. rewrite trace_cleanup.
  split; [done |]. intros t k Hin. by apply list_elem_of_singleton in Hin.
Qed.

Lemma unread_run_prog r p st : unread r st (run_prog native p st).2.
Proof.
  apply (R_run_prog native (unread r)).
  - apply unread_refl.
  - apply unread_trans.
  - intros h s. by apply unread_quiet.
  - apply unread_read.
  - apply unread_trigger.
  - apply unread_create.
  - intros s. by apply unread_set_active.
  - apply unread_restore.
  - apply unread_dispose.
  - apply unread_begin.
  - intros x s. by apply unread_quiet.
Qed.

(** Client code files an inactive subscriber under no new edge. *)
Lemma forward_kept_run_prog r p st :
  r < next_sub st → activeEffect st ≠ Some r →
  let st' := (run_prog native p st).2 in
  r < next_sub st' ∧ activeEffect st' ≠ Some r ∧
  ∀ t k, r ∈ forward st' t k → r ∈ forward st t k.
Proof.
  intros Hr Ha st'.
  destruct (unread_run_prog r p st) as [Hn H].
  destruct (H Hr Ha) as (Ha' & ev & He & Hno).
  split; [unfold st'; lia |]. split; [done |]. intros t k Hin.
  destruct (tracked_run_prog native r p st) as (ev' & He' & Ht).
  fold st' in He'. unfold st' in He'. rewrite He in He'.
  apply trace_app_inv in He'. subst ev'.
  destruct (Ht t k Hin) as [? | Hread]; [done |]. by apply Hno in Hread.
Qed.

Lemma runner_kept_refl r st : runner_kept r st st.
Proof. by split. Qed.

Lemma runner_kept_trans r st1 st2 st3 :
  runner_kept r st1 st2 → runner_kept r st2 st3 → runner_kept r st1 st3.
Proof.
  intros [Hn1 H1] [Hn2 H2]. split; [lia |]. intros Hr Hi.
  apply H2; [lia |]. by apply H1.
Qed.

Lemma runner_kept_same r st st' :
  next_sub st' = next_sub st → closures st' = closures st →
  runner_kept r st st'.
Proof.
  intros Hn Hc. split; [lia |]. unfold is_runner. by rewrite Hc.
Qed.

Lemma runner_kept_track r t k st : runner_kept r st (track t k st).
Proof.
  apply runner_kept_same; unfold track; by destruct (activeEffect st).
Qed.

Lemma runner_kept_cleanup r e st : runner_kept r st (cleanup e st).
Proof.
  apply runner_kept_same; unfold cleanup;
    by destruct (effectDepsMap st !! e).
Qed.

Lemma runner_kept_alloc r c st : runner_kept r st (alloc_sub c st).
Proof.
  split; [simpl; lia |]. intros Hr (fn & c' & Hc). exists fn, c'. simpl.
  rewrite lookup_insert_ne by lia. done.
Qed.

Lemma runner_kept_set_cleanup r r' fn c st :
  runner_kept r st (set_cleanup r' fn c st).
Proof.
  split; [done |]. intros Hr (fn' & c' & Hc). unfold is_runner. simpl.
  destruct (decide (r' = r)) as [-> | Hne].
  - rewrite lookup_insert_eq. eauto.
  - rewrite lookup_insert_ne by done. eauto.
Qed.

Lemma runner_kept_begin r c st :
  runner_kept r st (set_activeEffect (Some (next_sub st))
                      (cleanup (next_sub st)
                         (log_run (next_sub st) (alloc_sub c st)))).
Proof.
  eapply runner_kept_trans; [apply (runner_kept_alloc r c) |].
  eapply runner_kept_trans;
    [| apply (runner_kept_same r (cleanup (next_sub st)
                (log_run (next_sub st) (alloc_sub c st)))); done].
  eapply runner_kept_trans; [| apply runner_kept_cleanup].
  by apply runner_kept_same.
Qed.

Lemma runner_kept_run_prog r p st :
  runner_kept r st (run_prog native p st).2.
Proof.
  apply (R_run_prog native (runner_kept r)).
  - apply runner_kept_refl.
  - apply runner_kept_trans.
  - intros h s. by apply runner_kept_same.
  - intros t k s. eapply runner_kept_trans; [| apply runner_kept_track].
    by apply runner_kept_same.
  - intros t k s. destruct (trigger_frame t k s)
      as (_ & _ & _ & _ & _ & _ & _ & Hn & Hc).
    by apply runner_kept_same.
  - intros o pa k s.
    destruct (createState_cases o pa k s) as [-> | (n & pc & pp & ->)];
      [apply runner_kept_refl | by apply runner_kept_same].
  - intros s. by apply runner_kept_same.
  - intros s s2 [Hn H]. split; [done |]. exact H.
  - intros [e] s. unfold dispose.
    eapply runner_kept_trans; [apply (runner_kept_cleanup r e) |].
    by apply runner_kept_same.
  - apply runner_kept_begin.
  - intros x s. by apply runner_kept_same.
Qed.

Lemma scoped_run_prog r deps p st :
  scoped r deps st → scoped r deps (run_prog native p st).2.
Proof.
  intros (Hr & Ha & Hi & Hf).
  destruct (forward_kept_run_prog r p st Hr Ha) as (Hr' & Ha' & Hf').
  destruct (runner_kept_run_prog r p st) as [_ Hk].
  split_and!; [done | done | by apply Hk | intros t k Hin; by apply Hf, Hf'].
Qed.

Lemma scoped_same r deps st st' :
  next_sub st' = next_sub st → activeEffect st' = activeEffect st →
  closures st' = closures st → targetMap st' = targetMap st →
  scoped r deps st → scoped r deps st'.
Proof.
  unfold scoped, is_runner, forward. intros -> -> -> ->. done.
Qed.

Lemma scoped_call_sub r deps e st :
  scoped r deps st → scoped r deps (call_sub native e st).2.
Proof.
  intros Hs. unfold call_sub.
  assert (scoped r deps (log_run e st)) as H0 by by apply (scoped_same r deps st).
  destruct (closures (log_run e st) !! e) as [[fn | fn c] |] eqn:Ec;
    simpl; [| | done].
  - assert (e ≠ r) as Hne.
    { intros ->. destruct H0 as (_ & _ & (fn' & c' & Hc) & _). congruence. }
    unfold execute.
    set (st2 := set_activeEffect (Some e) (cleanup e (log_run e st))).
    assert (scoped r deps st2) as H2.
    { destruct H0 as (Hr & Ha & Hi & Hf). unfold st2.
      split_and!.
      - simpl. by rewrite next_sub_cleanup.
      - simpl. congruence.
      - destruct (runner_kept_cleanup r e (log_run e st)) as [_ Hk].
        by apply Hk.
      - intros t k Hin. apply Hf.
        change (forward (set_activeEffect (Some e) (cleanup e (log_run e st))) t k)
          with (forward (cleanup e (log_run e st)) t k) in Hin.
        apply elem_of_forward_cleanup in Hin as [Hin _]. exact Hin. }
    pose proof (scoped_run_prog r deps fn st2 H2) as H3.
    destruct (run_prog native fn st2) as [[u | x] st3]; simpl in *.
    + destruct H3 as (Hr & Ha & Hi & Hf). by split_and!.
    + destruct H3 as (Hr & Ha & Hi & Hf). by split_and!.
  - unfold effectRunner, run_cleanup.
    assert (∀ s fn', scoped r deps s →
              scoped r deps
                (match run_prog native fn' s with
                 | (Normal c', s2) => (Normal tt, set_cleanup e fn' c' s2)
                 | (Throw x, s2) => (Throw x, s2)
                 end).2) as Hrun.
    { intros s fn' Hsc. pose proof (scoped_run_prog r deps fn' s Hsc) as H.
      destruct (run_prog native fn' s) as [[c' | x] s2]; simpl in *; [| done].
      destruct H as (Hr & Ha & Hi & Hf). split_and!; try done.
      destruct (runner_kept_set_cleanup r e fn' c' s2) as [_ Hk].
      by apply Hk. }
    destruct c as [c |].
    + pose proof (scoped_run_prog r deps c (log_run e st) H0) as H1.
      destruct (run_prog native c (log_run e st)) as [[u | x] s1];
        simpl in *; [| done].
      by apply Hrun.
    + by apply Hrun.
Qed.

Lemma scoped_run_batch r deps l st :
  scoped r deps st → scoped r deps (run_batch native l st).2.
Proof.
  revert st. induction l as [| e l IH]; intros st H; simpl; [done |].
  pose proof (scoped_call_sub r deps e st H) as H1.
  destruct (call_sub native e st) as [[u | x] st1]; simpl in *; [| done].
  by apply IH.
Qed.

Lemma scoped_mount_other r deps fn st :
  scoped r deps st → scoped r deps (reactiveEffectFn native fn st).2.
Proof.
  intros Hs. unfold reactiveEffectFn.
  set (st1 := set_activeEffect _ (alloc_sub _ st)).
  assert (scoped r deps st1) as H1.
  { destruct Hs as (Hr & Ha & Hi & Hf). unfold st1. split_and!.
    - simpl. lia.
    - simpl. intros [= Heq]. lia.
    - destruct (runner_kept_alloc r (CRunner fn None) st) as [_ Hk].
      by apply Hk.
    - done. }
  pose proof (scoped_run_prog r deps fn st1 H1) as H2.
  destruct Hs as (Hr0 & Ha0 & _ & _).
  destruct (run_prog native fn st1) as [[c | x] st2]; simpl in *.
  - destruct H2 as (Hr & Ha & Hi & Hf). split_and!; try done.
    + destruct (runner_kept_set_cleanup r (next_sub st) fn c st2) as [_ Hk].
      by apply Hk.
    + intros t k Hin. apply Hf. unfold forward in Hin. simpl in Hin.
      apply elem_of_foldl_subscribe in Hin as [Hin | [Heq _]]; [done | lia].
  - destruct H2 as (Hr & Ha & Hi & Hf). by split_and!.
Qed.

Lemma scoped_unmount r deps r' deps' st :
  scoped r deps st → scoped r deps (unmount native r' deps' st).2.
Proof.
  intros Hs. unfold unmount, run_cleanup.
  assert (∀ s, scoped r deps s →
            scoped r deps
              (set_graph (foldl (remove_dep r') (targetMap s) deps')
                         (delete r' (effectDepsMap s)) s)) as Hrem.
  { intros s (Hr & Ha & Hi & Hf). split_and!; try done.
    intros t k Hin. apply Hf. unfold forward in Hin. simpl in Hin.
    by apply elem_of_foldl_remove_dep in Hin as [Hin _]. }
  destruct (match closures st !! r' with
            | Some (CRunner _ c) => c | _ => None end) as [c |].
  - pose proof (scoped_run_prog r deps c st Hs) as H1.
    destruct (run_prog native c st) as [[u | x] st1]; simpl in *; auto.
  - simpl. auto.
Qed.

Lemma mount_scoped_general fn st r deps st' :
  subs_allocated st →
  reactiveEffectFn native fn st = (Normal (r, deps), st') →
  r = next_sub st ∧ scoped r deps st' ∧ deps = reverse st' r ∧
  ∀ t k, (t, k) ∈ deps → r ∈ forward st' t k.
Proof.
  intros (Hp & Hf & Hact) Hm. unfold reactiveEffectFn in Hm.
  set (st1 := set_activeEffect (Some (next_sub st))
                (alloc_sub (CRunner fn None) st)) in Hm.
  assert (mirror st1 (next_sub st)) as Hm1.
  { intros t k Hin. apply Hf in Hin. lia. }
  pose proof (mirror_run_prog native (next_sub st) fn st1 Hm1) as Hm2.
  destruct (allocs_run_prog native fn st1) as [Hn _].
  destruct (run_prog native fn st1) as [[c | x] st2]; simpl in *; [| done].
  injection Hm as <- <- <-. split; [done |]. split_and!.
  - split_and!.
    + simpl. lia.
    + simpl. intros Ha. apply Hact in Ha. lia.
    + exists fn, c. simpl. by rewrite lookup_insert_eq.
    + intros t k Hin. unfold forward in Hin. simpl in Hin.
      apply elem_of_foldl_subscribe in Hin as [Hin | [_ Hin]]; [| done].
      by apply Hm2.
  - done.
  - intros t k Hin. unfold forward. simpl.
    apply elem_of_foldl_subscribe. by right.
Qed.

Lemma unmount_clears_general r deps st st' :
  scoped r deps st → unmount native r deps st = (Normal tt, st') →
  (∀ t k, r ∉ forward st' t k) ∧ effectDepsMap st' !! r = None ∧
  ∀ t k, r ∈ pendingEffects (trigger t k st') → r ∈ pendingEffects st'.
Proof.
  intros Hs Hu. unfold unmount, run_cleanup in Hu.
  assert (∀ s, scoped r deps s →
            ∀ t k, r ∉ forward
              (set_graph (foldl (remove_dep r) (targetMap s) deps)
                         (delete r (effectDepsMap s)) s) t k) as Hrem.
  { intros s (_ & _ & _ & Hf) t k Hin. unfold forward in Hin. simpl in Hin.
    apply elem_of_foldl_remove_dep in Hin as [Hin [Hne | Hnot]]; [done |].
    by apply Hnot, Hf. }
  assert ((∀ t k, r ∉ forward st' t k) ∧ effectDepsMap st' !! r = None)
    as [Hno Hed].
  { destruct (match closures st !! r with
              | Some (CRunner _ c) => c | _ => None end) as [c |].
    - pose proof (scoped_run_prog r deps c st Hs) as H1.
      destruct (run_prog native c st) as [[u | x] st1]; simpl in *;
        [| done].
      injection Hu as <-. split; [by apply Hrem |]. simpl.
      apply lookup_delete_eq.
    - injection Hu as <-. split; [by apply Hrem |]. simpl.
      apply lookup_delete_eq. }
  split_and!; try done. intros t k Hin.
  apply (trigger_spec t k st') in Hin as [Hin | Hin]; [done |].
  by apply Hno in Hin.
Qed.

(** X16.  When the mount of a scoped effect returns, its runner is a newly
    allocated function, the active-subscriber slot is empty again, and the
    runner is in the forward set of exactly the edges in [trackedDeps], which
    is its reverse entry. *)
Theorem X16_mount_subscribes avoid fn st r deps st' :
  reachable native avoid st →
  reactiveEffectFn native fn st = (Normal (r, deps), st') →
  r = next_sub st ∧ is_runner r st' ∧ deps = reverse st' r ∧
  activeEffect st' = None ∧
  ∀ t k, r ∈ forward st' t k ↔ (t, k) ∈ deps.
Proof.
  intros Hr Hm.
  destruct (reachable_invariants native avoid st Hr) as (_ & _ & Hsa & _).
  destruct (mount_scoped_general fn st r deps st' Hsa Hm)
    as (Heq & (_ & _ & Hi & Hf) & Hd & Hb).
  split_and!; try done.
  - assert (st' = (reactiveEffectFn native fn st).2) as -> by by rewrite Hm.
    rewrite reactiveEffectFn_restores_slot.
    by apply (reachable_slot_empty avoid).
  - intros t k. split; auto.
Qed.

(** X25.  A scoped effect whose body throws on mount after a tracked read
    hands back no unmount closure, since the exception propagates, and
    restores the active subscriber, but its runner stays in the forward set
    of the edge it read, and a trigger of that edge enqueues it. *)
Theorem X25_throwing_mount_stays_subscribed id b t k x st :
  b && in_arrayInstrumentations k = false →
  let fn := PGet (Prx id b t) k (λ _, PThrow x) in
  let r := next_sub st in
  ∃ st', reactiveEffectFn native fn st = (Throw x, st') ∧
         activeEffect st' = activeEffect st ∧
         r ∈ forward st' t k ∧
         r ∈ pendingEffects (trigger t k st').
Proof.
  intros Hb fn r. unfold reactiveEffectFn.
  set (st1 := set_activeEffect (Some (next_sub st)) _).
  pose proof (tracked_read_subscribes id b t k st1 r eq_refl Hb) as Hin.
  assert (run_prog native fn st1 =
          (Throw x, (js_get (Prx id b t) k st1).2)) as Hrun.
  { unfold fn. cbn [run_prog]. by destruct (js_get (Prx id b t) k st1). }
  rewrite Hrun. eexists. split; [reflexivity |].
  split_and!; [done | done |]. apply trigger_spec. by right.
Qed.

(** X17.  The subscriptions of a mounted scoped effect never grow beyond
    [trackedDeps]: whatever runs later (client code, a component's setup, a
    flush, in which the runner itself may be re-run, other mounts and
    unmounts), the runner is filed under no other edge, a re-run of its body
    tracking nothing. *)
Theorem X17_scoped_subscriptions_bounded r deps st :
  scoped r deps st →
  (∀ p, scoped r deps (run_prog native p st).2) ∧
  (∀ p, scoped r deps (with_registration native p st).2) ∧
  (∀ o st', run_microtask native st = Some (o, st') → scoped r deps st') ∧
  (∀ fn, scoped r deps (reactiveEffectFn native fn st).2) ∧
  (∀ r' deps', scoped r deps (unmount native r' deps' st).2).
Proof.
  intros Hs. split_and!.
  - intros p. by apply scoped_run_prog.
  - intros p. unfold with_registration.
    pose proof (scoped_run_prog r deps p
                  (set_activeComponentEffects (Some []) st)) as H.
    destruct (run_prog native p _) as [o st1]. simpl in *.
    apply (scoped_same r deps st1); try done. apply H.
    by apply (scoped_same r deps st).
  - intros o st' Ht. unfold run_microtask in Ht.
    destruct (microtasks st) as [| n]; [done |].
    injection Ht as Ht. unfold flushEffects in Ht. simpl in Ht.
    pose proof (scoped_run_batch r deps (pendingEffects st)
                  (set_scheduler [] false n st)) as H.
    change (set_scheduler [] false n
              (set_scheduler (pendingEffects st) (isFlushPending st) n st))
      with (set_scheduler [] false n st) in Ht.
    rewrite Ht in H. apply H. by apply (scoped_same r deps st).
  - intros fn. by apply scoped_mount_other.
  - intros r' deps'. by apply scoped_unmount.
Qed.

(** X18.  The unmount closure of a scoped effect, when the effect's cleanup
    callback does not throw, takes the runner out of every forward set and
    deletes its reverse entry; no later trigger enqueues it. *)
Theorem X18_unmount_unsubscribes r deps st st' :
  scoped r deps st → unmount native r deps st = (Normal tt, st') →
  (∀ t k, r ∉ forward st' t k) ∧ effectDepsMap st' !! r = None ∧
  ∀ t k, r ∈ pendingEffects (trigger t k st') → r ∈ pendingEffects st'.
Proof. apply unmount_clears_general. Qed.

(** X24.  Unmounting does not cancel a run that is already queued: a runner
    that is in the pending set when its unmount closure is called stays
    there, and the next flush still invokes it, once if the flush
    completes. *)
Theorem X24_unmount_keeps_queued_run r deps st :
  reachable native None st → r ∈ pendingEffects st →
  let st' := (unmount native r deps st).2 in
  r ∈ pendingEffects st' ∧
  ∃ ev, trace (flushEffects native st').2 = trace st' ++ ev ∧
        ((flushEffects native st').1 = Normal tt → run_count r ev = 1).
Proof.
  intros Hr Hin st'.
  assert (reachable native None st') as Hr'
    by (by apply reach_unmount).
  destruct (reachable_invariants native None st' Hr')
    as (Hnd & _ & (Hpa & _) & _).
  destruct (unmount_scheduler native r deps st) as ((ev0 & _ & Hk & _) & _).
  assert (r ∈ pendingEffects st') as Hin' by by apply Hk.
  split; [done |].
  destruct (flush_general native st') as (_ & ev & n & He & _ & _ & _ & H1 & _).
  - done.
  - apply Forall_forall. exact Hpa.
  - exists ev. split; [done |]. intros Ho. by apply H1.
Qed.

Lemma scoped_mount_effects r deps fns st :
  scoped r deps st → scoped r deps (mount_effects native fns st).2.
Proof.
  revert st. induction fns as [| fn fns IH]; intros st Hs; simpl; [done |].
  pose proof (scoped_mount_other r deps fn st Hs) as H1.
  destruct (reactiveEffectFn native fn st) as [[c | x] st1]; simpl in *;
    [| done].
  specialize (IH st1 H1).
  by destruct (mount_effects native fns st1) as [[cs | x] st2].
Qed.

Lemma scoped_unmount_effects r deps cs st :
  scoped r deps st → scoped r deps (unmount_effects native cs st).2.
Proof.
  revert st. induction cs as [| [r' deps'] cs IH]; intros st Hs; simpl;
    [done |].
  pose proof (scoped_unmount r deps r' deps' st Hs) as H1.
  destruct (unmount native r' deps' st) as [[u | x] st1]; simpl in *;
    [| done].
  by apply IH.
Qed.

Lemma mount_effects_scoped fns st cs st1 :
  subs_allocated st → mount_effects native fns st = (Normal cs, st1) →
  Forall (λ c, scoped c.1 c.2 st1) cs.
Proof.
  revert st cs. induction fns as [| fn fns IH]; intros st cs Hsa Hm;
    simpl in Hm.
  - injection Hm as <- <-. constructor.
  - destruct (reactiveEffectFn native fn st) as [[[r deps] | x] s1] eqn:Er;
      [| done].
    destruct (mount_scoped_general fn st r deps s1 Hsa Er) as (_ & Hs & _).
    destruct (mount_invariants native fn st 0) as (_ & [_ Hal] & _).
    rewrite Er in Hal. simpl in Hal.
    pose proof (scoped_mount_effects r deps fns s1 Hs) as Hs'.
    specialize (IH s1).
    destruct (mount_effects native fns s1) as [[cs' | x] s2]; [| done].
    injection Hm as <- <-. constructor; [done |].
    apply (IH cs'); [by apply Hal | done].
Qed.

Lemma unmount_effects_clears cs st st' :
  Forall (λ c, scoped c.1 c.2 st) cs →
  unmount_effects native cs st = (Normal tt, st') →
  Forall (λ c, ∀ t k, c.1 ∉ forward st' t k) cs.
Proof.
  revert st. induction cs as [| [r deps] cs IH]; intros st Hall Hu;
    simpl in Hu; [constructor |].
  apply Forall_cons in Hall as [Hr Hrest]. simpl in Hr.
  destruct (unmount native r deps st) as [[[] | x] st1] eqn:Eu; [| done].
  destruct (unmount_clears_general r deps st st1 Hr Eu) as (Hno & _).
  assert (scoped r [] st1) as Hr1.
  { pose proof (scoped_unmount r deps r deps st Hr) as H. rewrite Eu in H.
    destruct H as (? & ? & ? & _). split_and!; try done.
    intros t k Hin. by apply Hno in Hin. }
  constructor.
  - simpl. intros t k Hin.
    pose proof (scoped_unmount_effects r [] cs st1 Hr1) as H.
    rewrite Hu in H. destruct H as (_ & _ & _ & Hf).
    apply Hf in Hin. by apply not_elem_of_nil in Hin.
  - apply (IH st1); [| done].
    eapply Forall_impl; [exact Hrest |]. intros [r' deps'] Hs. simpl in *.
    pose proof (scoped_unmount r' deps' r deps st Hs) as H.
    by rewrite Eu in H.
Qed.

(** X19.  Mounting a component's registered effects gives one unmount
    closure per effect, and calling them all, after any client code in
    between, leaves none of the runners in any forward set. *)
Theorem X19_mount_unmount_all avoid fns st cs st1 p st3 :
  reachable native avoid st →
  mount_effects native fns st = (Normal cs, st1) →
  unmount_effects native cs (run_prog native p st1).2 = (Normal tt, st3) →
  length cs = length fns ∧
  ∀ r deps t k, (r, deps) ∈ cs → r ∉ forward st3 t k.
Proof.
  intros Hr Hm Hu.
  destruct (reachable_invariants native avoid st Hr) as (_ & _ & Hsa & _).
  pose proof (mount_effects_scoped fns st cs st1 Hsa Hm) as Hall.
  assert (Forall (λ c, scoped c.1 c.2 (run_prog native p st1).2) cs) as Hall'.
  { eapply Forall_impl; [exact Hall |]. intros [r deps] Hs.
    by apply scoped_run_prog. }
  pose proof (unmount_effects_clears cs _ st3 Hall' Hu) as Hc.
  split.
  - clear -Hm. revert st cs Hm. induction fns as [| fn fns IH];
      intros st cs Hm; simpl in Hm; [by injection Hm as <- _ |].
    destruct (reactiveEffectFn native fn st) as [[c | x] s1]; [| done].
    specialize (IH s1).
    destruct (mount_effects native fns s1) as [[cs' | x] s2]; [| done].
    injection Hm as <- <-. simpl. f_equal. by apply (IH cs').
  - intros r deps t k Hin. rewrite Forall_forall in Hc.
    apply (Hc (r, deps) Hin).
Qed.

End Further.

(** ** Shallow comparison *)

Lemma strict_eq_sym a b : strict_eq a b = strict_eq b a.
Proof.
  unfold strict_eq.
  destruct a, b; try done; apply bool_decide_ext; split; congruence.
Qed.

Lemma elem_of_object_keys a k st :
  k ∈ object_keys (Obj a) st ↔
  enumerable (get_obj a st) k = true ∧ is_Some (props (get_obj a st) !! k).
Proof.
  unfold object_keys. simpl. rewrite list_elem_of_filter.
  rewrite list_elem_of_fmap. split.
  - intros [He ([k' v] & -> & Hin)]. split; [done |].
    apply elem_of_map_to_list in Hin. simpl. eauto.
  - intros [He [v Hv]]. split; [done |]. exists (k, v).
    split; [done |]. by apply elem_of_map_to_list.
Qed.

Lemma NoDup_object_keys r st : NoDup (object_keys r st).
Proof.
  unfold object_keys. apply NoDup_filter, NoDup_fst_map_to_list.
Qed.

Lemma shallow_loop_plain a b keys st :
  shallow_loop (Obj a) (Obj b) keys st =
  (forallb (λ k, has_own (Obj b) k st &&
                 strict_eq (raw_get a k st) (raw_get b k st)) keys, st).
Proof.
  induction keys as [| k keys IH]; simpl; [done |].
  destruct (has_own (Obj b) k st); simpl; [| done].
  destruct (strict_eq (raw_get a k st) (raw_get b k st)); simpl; done.
Qed.

Lemma raw_get_own a k st v :
  props (get_obj a st) !! k = Some v → raw_get a k st = v.
Proof. unfold raw_get. by intros ->. Qed.

(** X20.  On two distinct plain objects of the same kind (two records or two
    arrays) [shallowEqual] reads without side effect, answers [true] exactly
    when they have the same enumerable string-keyed properties with pairwise
    [===] values, and is symmetric. *)
Theorem X20_shallowEqual_plain a b st :
  a ≠ b → is_array (get_obj a st) = is_array (get_obj b st) →
  (shallowEqual (VRef (Obj a)) (VRef (Obj b)) st).2 = st ∧
  ((shallowEqual (VRef (Obj a)) (VRef (Obj b)) st).1 = true ↔
   same_props (get_obj a st) (get_obj b st)) ∧
  (shallowEqual (VRef (Obj a)) (VRef (Obj b)) st).1 =
  (shallowEqual (VRef (Obj b)) (VRef (Obj a)) st).1.
Proof.
  intros Hab Harr.
  assert (∀ k, enumerable (get_obj a st) k = enumerable (get_obj b st) k)
    as Hen by (intros [s | i | n]; simpl; by rewrite ?Harr).
  assert (∀ x y st, x ≠ y →
            is_array (get_obj x st) = is_array (get_obj y st) →
            (shallowEqual (VRef (Obj x)) (VRef (Obj y)) st).2 = st ∧
            ((shallowEqual (VRef (Obj x)) (VRef (Obj y)) st).1 = true ↔
             same_props (get_obj x st) (get_obj y st))) as Hchar.
  { clear. intros a b st Hab Harr.
    assert (∀ k, enumerable (get_obj a st) k = enumerable (get_obj b st) k)
      as Hen by (intros [s | i | n]; simpl; by rewrite ?Harr).
    unfold shallowEqual.
    assert (strict_eq (VRef (Obj a)) (VRef (Obj b)) = false) as ->.
    { unfold strict_eq. apply bool_decide_eq_false. congruence. }
    simpl. destruct (decide (length (object_keys (Obj a) st) ≠
                             length (object_keys (Obj b) st))) as [Hl | Hl].
    - simpl. split; [done |]. split; [done |]. intros Hs. exfalso. apply Hl.
      apply Permutation_length, NoDup_Permutation;
        [apply NoDup_object_keys | apply NoDup_object_keys |].
      intros k. rewrite !elem_of_object_keys, <- Hen.
      split; intros [He Hi]; (split; [done |]); specialize (Hs k He);
        destruct (props (get_obj a st) !! k), (props (get_obj b st) !! k);
        try done; by destruct Hi.
    - rewrite shallow_loop_plain. simpl. split; [done |].
      apply dec_stable in Hl.
      rewrite forallb_forall. setoid_rewrite <- list_elem_of_In.
      split.
      + intros Hall k He.
        assert (∀ k, k ∈ object_keys (Obj a) st → k ∈ object_keys (Obj b) st)
          as Hsub.
        { intros k' Hk'. pose proof (Hall k' Hk') as Hc.
          apply andb_prop in Hc as [Hc _]. apply bool_decide_eq_true in Hc.
          apply elem_of_object_keys in Hk' as [He' _].
          apply elem_of_object_keys. by rewrite <- Hen. }
        assert (object_keys (Obj a) st ≡ₚ object_keys (Obj b) st) as Hperm.
        { apply submseteq_length_Permutation; [| lia].
          apply NoDup_submseteq; [apply NoDup_object_keys | done]. }
        destruct (props (get_obj a st) !! k) as [x |] eqn:Ea.
        * assert (k ∈ object_keys (Obj a) st) as Hk
            by (apply elem_of_object_keys; eauto).
          specialize (Hall k Hk). apply andb_prop in Hall as [Ho Hs].
          apply bool_decide_eq_true in Ho as [y Hy]. simpl in Hy.
          rewrite Hy. by rewrite (raw_get_own _ _ _ _ Ea),
            (raw_get_own _ _ _ _ Hy) in Hs.
        * destruct (props (get_obj b st) !! k) as [y |] eqn:Eb; [| done].
          assert (k ∈ object_keys (Obj b) st) as Hk
            by (apply elem_of_object_keys; rewrite <- Hen; eauto).
          rewrite <- Hperm in Hk. apply elem_of_object_keys in Hk as [_ Hi].
          rewrite Ea in Hi. by destruct Hi.
      + intros Hs k Hk. apply elem_of_object_keys in Hk as [He [x Hx]].
        specialize (Hs k He). rewrite Hx in Hs.
        destruct (props (get_obj b st) !! k) as [y |] eqn:Eb; [| done].
        apply andb_true_intro. split.
        * apply bool_decide_eq_true. simpl. rewrite Eb. eauto.
        * by rewrite (raw_get_own _ _ _ _ Hx), (raw_get_own _ _ _ _ Eb). }
  destruct (Hchar a b st Hab Harr) as [H2 H1].
  destruct (Hchar b a st (not_eq_sym Hab) (eq_sym Harr)) as [_ H1'].
  split; [done |]. split; [done |].
  assert (same_props (get_obj a st) (get_obj b st) ↔
          same_props (get_obj b st) (get_obj a st)) as Hsym.
  { unfold same_props. split; intros H k He.
    - rewrite <- Hen in He. specialize (H k He).
      destruct (props (get_obj a st) !! k), (props (get_obj b st) !! k);
        try done. by rewrite strict_eq_sym.
    - rewrite Hen in He. specialize (H k He).
      destruct (props (get_obj a st) !! k), (props (get_obj b st) !! k);
        try done. by rewrite strict_eq_sym. }
  destruct (shallowEqual (VRef (Obj a)) (VRef (Obj b)) st).1 eqn:E1,
           (shallowEqual (VRef (Obj b)) (VRef (Obj a)) st).1 eqn:E2;
    try done.
  - assert (false = true) by (apply H1', Hsym, H1; done). done.
  - assert (false = true) by (apply H1, Hsym, H1'; done). done.
Qed.


(** ** Instances *)

Lemma X1_witness :
  microtasks st_two_written =
    (if isFlushPending st_two_written then 1 else 0) ∧
  (isFlushPending st_two_written = true ↔ pendingEffects st_two_written ≠ []).
Proof.
  apply (X1_one_flush_queued host_native None st_two_written).
  apply reach_client, reach_client, reach_init.
Defined.

Lemma X2_witness :
  activeEffect st_one = None ∧
  ∀ r k, targetMap (js_get r k st_one).2 = targetMap st_one ∧
         effectDepsMap (js_get r k st_one).2 = effectDepsMap st_one ∧
         pendingEffects (js_get r k st_one).2 = pendingEffects st_one.
Proof.
  apply (X2_slot_empty_between_turns host_native None st_one).
  apply reach_client, reach_init.
Defined.

Lemma X3_witness :
  0 ∈ forward st_flag (Obj 0) kflag ∧
  (0 ∈ forward st_flag (Obj 0) kflag ↔ (Obj 0, kflag) ∈ reverse st_flag 0).
Proof.
  split; [apply (bool_decide_unpack _); vm_compute; exact I |].
  apply (X3_graph_indexes_agree host_native 0 st_flag (Obj 0) kflag).
  apply reach_client, reach_init.
Defined.

Lemma X4_witness :
  let st := set_activeEffect (Some 0) st_one in
  let st1 := (js_get w0 ka st).2 in
  reverse st1 0 = reverse st 0 ++ [(Obj 0, ka)] ∧
  (∀ t' k', forward st1 t' k' =
            if decide ((Obj 0, ka) = (t', k'))
            then set_add 0 (forward st (Obj 0) ka) else forward st t' k') ∧
  (0 ∈ forward st (Obj 0) ka → ∀ t' k', forward st1 t' k' = forward st t' k').
Proof.
  apply (X4_repeated_read_grows_reverse 0 false 0 ka 0
           (set_activeEffect (Some 0) st_one)); reflexivity.
Defined.


Lemma X7_witness :
  let st' := dispose (Disposer 0) st_one_written in
  (flushEffects host_native st').1 = Normal tt ∧
  0 ∈ pendingEffects st' ∧
  ∃ ev, trace (flushEffects host_native st').2 = trace st' ++ ev ∧
        ((flushEffects host_native st').1 = Normal tt → run_count 0 ev = 1).
Proof.
  split; [vm_compute; reflexivity |].
  apply (X7_dispose_keeps_queued_run host_native None 0 st_one_written).
  - apply reach_client, reach_client, reach_init.
  - apply (bool_decide_unpack _). vm_compute. exact I.
Defined.

Lemma X9_witness :
  ∃ st', effect (run_prog host_native (PGet w0 ka (λ _, PThrow TypeError)))
           (PGet w0 ka (λ _, PThrow TypeError)) st_one = (Throw TypeError, st') ∧
         next_sub st_one ∈ forward st' (Obj 0) ka ∧
         next_sub st_one ∈ pendingEffects (trigger (Obj 0) ka st').
Proof.
  apply (X9_throwing_effect_stays_subscribed host_native 0 false (Obj 0) ka
           TypeError st_one).
  reflexivity.
Defined.

Lemma X10_witness :
  (∃ id b, w0 = Prx id b (Obj 0) ∧ id < next_id st_one) ∧ w0 ≠ Obj 0 ∧
  ∀ o', proxyCache st_one !! o' = Some w0 → o' = Obj 0.
Proof.
  apply (X10_wrapper_of_target host_native None st_one (Obj 0) w0).
  - apply reach_client, reach_init.
  - vm_compute. reflexivity.
Defined.

Lemma X11_witness :
  let st1 := (js_set w0 ka (VNum 2) st_one).2 in
  raw_get 0 ka st1 = VNum 2 ∧
  (false && in_arrayInstrumentations ka = true →
   (js_get w0 ka st1).1 = arrayInstrumentations ka) ∧
  (false && in_arrayInstrumentations ka = false →
   (js_get w0 ka st1).1 = VNum 2).
Proof.
  apply (X11_write_then_read 0 false 0 ka (VNum 2) true st_one
           (js_set w0 ka (VNum 2) st_one).2).
  - vm_compute. reflexivity.
  - vm_compute. reflexivity.
  - vm_compute. reflexivity.
Defined.

Lemma X12_witness :
  let st1 := (js_get wrec_first kitems st_nested_first).2 in
  let st2 := (js_set wrec_first kitems (VRef witems) st1).2 in
  VRef witems ≠ VRef (Obj 0) ∧ raw_get 1 kitems st2 = VRef witems ∧
  (∀ x, x ∈ forward st1 (Obj 1) kitems → x ∈ pendingEffects st2) ∧
  (js_get wrec_first kitems st2).1 ≠ VRef witems.
Proof.
  apply (X12_write_back_triggers host_native None 0 false 1 kitems (Obj 0)
           (VRef witems) st_nested_first
           (js_get wrec_first kitems st_nested_first).2 true).
  - apply reach_client, reach_init.
  - reflexivity.
  - vm_compute. reflexivity.
  - vm_compute. reflexivity.
  - vm_compute. reflexivity.
Defined.

Lemma X13_witness :
  0 ∈ pendingEffects
        (instrumented host_native "push" witems [VNum 3] st_nested_first).2.
Proof.
  apply (X13_mutator_notifies_parent host_native "push" witems [VNum 3]
           st_nested_first (Obj 1) kitems (VNum 3)).
  - vm_compute. split; [repeat constructor | exact I].
  - vm_compute. reflexivity.
  - vm_compute. reflexivity.
  - apply (bool_decide_unpack _). vm_compute. exact I.
Defined.

Lemma X14_witness :
  let st := set_activeEffect (Some 0) st_seq in
  let st' := (instrumented throwing_native "sort" wseq [] st).2 in
  activeEffect st' = None ∧
  st' = (run_nprog wseq (throwing_native "sort" wseq [])
           (set_activeEffect None st)).2 ∧
  ∀ r k, targetMap (js_get r k st').2 = targetMap st' ∧
         effectDepsMap (js_get r k st').2 = effectDepsMap st'.
Proof.
  apply (X14_mutator_exception_drops_slot throwing_native "sort" wseq []
           (set_activeEffect (Some 0) st_seq) (UserError (VStr "compare"))).
  reflexivity.
Defined.

Lemma X16_witness :
  0 = next_sub st_wrapped ∧ is_runner 0 st_mounted ∧
  [(Obj 0, ka)] = reverse st_mounted 0 ∧ activeEffect st_mounted = None ∧
  ∀ t k, 0 ∈ forward st_mounted t k ↔ (t, k) ∈ [(Obj 0, ka)].
Proof.
  apply (X16_mount_subscribes host_native None (read_a w0) st_wrapped).
  - apply reach_client, reach_init.
  - vm_compute. reflexivity.
Defined.

(** The mounted scoped effect of the scenario is as [scoped] describes. *)
Lemma st_mounted_scoped : scoped 0 [(Obj 0, ka)] st_mounted.
Proof.
  apply (mount_scoped_general host_native (read_a w0) st_wrapped 0
           [(Obj 0, ka)] st_mounted).
  - destruct (reachable_invariants host_native None st_wrapped)
      as (_ & _ & H & _); [apply reach_client, reach_init | exact H].
  - vm_compute. reflexivity.
Qed.

Lemma X17_witness :
  (∀ p, scoped 0 [(Obj 0, ka)] (run_prog host_native p st_mounted).2) ∧
  (∀ p, scoped 0 [(Obj 0, ka)] (with_registration host_native p st_mounted).2) ∧
  (∀ o st', run_microtask host_native st_mounted = Some (o, st') →
            scoped 0 [(Obj 0, ka)] st') ∧
  (∀ fn, scoped 0 [(Obj 0, ka)] (reactiveEffectFn host_native fn st_mounted).2) ∧
  (∀ r' deps',
     scoped 0 [(Obj 0, ka)] (unmount host_native r' deps' st_mounted).2).
Proof.
  apply (X17_scoped_subscriptions_bounded host_native 0 [(Obj 0, ka)]
           st_mounted).
  apply st_mounted_scoped.
Defined.

Lemma X18_witness :
  let st' := (unmount host_native 0 [(Obj 0, ka)] st_mounted).2 in
  (∀ t k, 0 ∉ forward st' t k) ∧ effectDepsMap st' !! 0 = None ∧
  ∀ t k, 0 ∈ pendingEffects (trigger t k st') → 0 ∈ pendingEffects st'.
Proof.
  apply (X18_unmount_unsubscribes host_native 0 [(Obj 0, ka)] st_mounted).
  - apply st_mounted_scoped.
  - vm_compute. reflexivity.
Defined.

Lemma X19_witness :
  let cs := [(0, [(Obj 0, ka)]); (1, [(Obj 0, ka)])] in
  let st1 := (mount_effects host_native [read_a w0; read_a w0] st_wrapped).2 in
  let st3 := (unmount_effects host_native cs
                (run_prog host_native (PSet w0 ka (VNum 2) PRet) st1).2).2 in
  length cs = length [read_a w0; read_a w0] ∧
  ∀ r deps t k, (r, deps) ∈ cs → r ∉ forward st3 t k.
Proof.
  apply (X19_mount_unmount_all host_native None [read_a w0; read_a w0]
           st_wrapped [(0, [(Obj 0, ka)]); (1, [(Obj 0, ka)])]
           (mount_effects host_native [read_a w0; read_a w0] st_wrapped).2
           (PSet w0 ka (VNum 2) PRet)).
  - apply reach_client, reach_init.
  - vm_compute. reflexivity.
  - vm_compute. reflexivity.
Defined.

Lemma X20_witness :
  let st := init heap_pair in
  (shallowEqual (VRef (Obj 0)) (VRef (Obj 1)) st).2 = st ∧
  ((shallowEqual (VRef (Obj 0)) (VRef (Obj 1)) st).1 = true ↔
   same_props (get_obj 0 st) (get_obj 1 st)) ∧
  (shallowEqual (VRef (Obj 0)) (VRef (Obj 1)) st).1 =
  (shallowEqual (VRef (Obj 1)) (VRef (Obj 0)) st).1.
Proof.
  apply (X20_shallowEqual_plain 0 1 (init heap_pair)).
  - lia.
  - reflexivity.
Defined.

Lemma X21_witness :
  let st1 := (js_get wrec_first kitems st_items_wrapped).2 in
  ∃ p, (js_get wrec_first kitems st_items_wrapped).1 = VRef p ∧
       proxyCache st1 !! Obj 0 = Some p ∧
       proxyParentMap st1 !! p = Some (Obj 1, kitems) ∧
       (∀ e, activeEffect st_items_wrapped = Some e →
             e ∈ forward st1 (Obj 1) kitems) ∧
       ∀ res st2 x,
         instrumented host_native "push" p [VNum 3] st1 = (Normal res, st2) →
         x ∈ forward st1 (Obj 1) kitems → x ∈ pendingEffects st2.
Proof.
  apply (X21_nested_mutation_notifies_holder host_native 0 false 1 kitems 0
           "push" [VNum 3] st_items_wrapped).
  - reflexivity.
  - vm_compute. reflexivity.
  - vm_compute. reflexivity.
Defined.

Lemma X22_witness :
  let st1 := (js_set wseq (KIdx 5) (VNum 9) st_seq).2 in
  array_length (get_obj 0 st1) = 6 ∧
  raw_get 0 (KStr "length") st1 = VNum (Z.of_nat 6) ∧
  ∀ x, x ∈ pendingEffects st1 →
       x ∈ pendingEffects st_seq ∨ x ∈ forward st_seq (Obj 0) (KIdx 5).
Proof.
  apply (X22_index_write_grows_length_silently 0 true 0 5 (VNum 9) st_seq true).
  - vm_compute. reflexivity.
  - vm_compute. lia.
  - vm_compute. reflexivity.
  - vm_compute. reflexivity.
Defined.

Lemma X23_witness :
  let st := set_activeEffect (Some 0) st_seq in
  let st' := (instrumented host_native "push" wseq [VNum 4] st).2 in
  activeEffect st' = activeEffect st ∧ targetMap st' = targetMap st ∧
  effectDepsMap st' = effectDepsMap st.
Proof.
  apply (X23_mutator_records_no_dependency host_native "push" wseq [VNum 4]
           (set_activeEffect (Some 0) st_seq) (VNum 4)).
  vm_compute. reflexivity.
Defined.

Lemma X24_witness :
  let st' := (unmount host_native 0 [(Obj 0, ka)] st_mounted_written).2 in
  0 ∈ pendingEffects st' ∧
  ∃ ev, trace (flushEffects host_native st').2 = trace st' ++ ev ∧
        ((flushEffects host_native st').1 = Normal tt → run_count 0 ev = 1).
Proof.
  apply (X24_unmount_keeps_queued_run host_native 0 [(Obj 0, ka)]
           st_mounted_written).
  - apply reach_client, reach_mount, reach_client, reach_init.
  - apply (bool_decide_unpack _). vm_compute. exact I.
Defined.

Lemma X25_witness :
  ∃ st', reactiveEffectFn host_native (PGet w0 ka (λ _, PThrow TypeError))
           st_wrapped = (Throw TypeError, st') ∧
         activeEffect st' = activeEffect st_wrapped ∧
         next_sub st_wrapped ∈ forward st' (Obj 0) ka ∧
         next_sub st_wrapped ∈ pendingEffects (trigger (Obj 0) ka st').
Proof.
  apply (X25_throwing_mount_stays_subscribed host_native 0 false (Obj 0) ka
           TypeError st_wrapped).
  reflexivity.
Defined.

Lemma X26_witness :
  let e := next_sub st_one in
  let st' := (effect (run_prog host_native (read_a w0)) (read_a w0) st_one).2 in
  activeEffect st' = None ∧
  ((effect (run_prog host_native (read_a w0)) (read_a w0) st_one).1 =
     Normal (Disposer e) ∨
   ∃ x, (effect (run_prog host_native (read_a w0)) (read_a w0) st_one).1 =
          Throw x) ∧
  ∃ ev, trace st' = trace st_one ++ ERun e :: ev ∧ run_count e ev = 0 ∧
        ∀ t k, e ∈ forward st' t k → ERead (Some e) t k ∈ ev.
Proof.
  apply (X26_effect_runs_once_at_creation host_native None (read_a w0) st_one).
  apply reach_client, reach_init.
Defined.

(** A scoped effect unmounted while queued: the flush after the unmount runs
    its body once more. *)
Example unmounted_runner_still_runs :
  let st' := (unmount host_native 0 [(Obj 0, ka)] st_mounted_written).2 in
  pendingEffects st' = [0] ∧ forward st' (Obj 0) ka = [] ∧
  runs (trace (flushEffects host_native st').2) = runs (trace st') ++ [0].
Proof. vm_compute. repeat split. Qed.

(** [list.unshift(7, 8)] on the wrapper of [[1, 2, 3]] gives
    [[7, 8, 1, 2, 3]] and returns the new length. *)
Example unshift_prepends :
  let r := instrumented host_native "unshift" wseq [VNum 7; VNum 8] st_seq in
  r.1 = Normal (VNum 5) ∧
  map (λ i, raw_get 0 (KIdx i) r.2) [0; 1; 2; 3; 4] =
    [VNum 7; VNum 8; VNum 1; VNum 2; VNum 3] ∧
  array_length (get_obj 0 r.2) = 5.
Proof. vm_compute. repeat split. Qed.

(** [list.length = null] stores the number 0 and empties the array;
    [list.length = -1] raises [RangeError] and stores nothing. *)
Example length_write_coerces_or_throws :
  let r := js_set wseq klength VNull st_seq in
  r.1 = Normal true ∧ raw_get 0 klength r.2 = VNum 0 ∧
  raw_get 0 (KIdx 0) r.2 = VUndef ∧
  js_set wseq klength (VNum (-1)) st_seq = (Throw RangeError, st_seq).
Proof. vm_compute. repeat split. Qed.

(** An index written past the end of a watched array: the length becomes 6
    and the effect reading [list.length] is not enqueued. *)
Example index_write_unnoticed_by_length_watcher :
  forward st_seq (Obj 0) klength = [0] ∧
  array_length (get_obj 0 (js_set wseq (KIdx 5) (VNum 9) st_seq).2) = 6 ∧
  pendingEffects (js_set wseq (KIdx 5) (VNum 9) st_seq).2 = [].
Proof. vm_compute. repeat split. Qed.

(** Between an array and a record that looks like it the comparison is not
    symmetric: [{0: "x", length: 2}] equals [["x", "y"]] shallowly, since the
    array has an own ["length"], but not the other way round. *)
Example shallowEqual_array_and_record :
  (shallowEqual (VRef (Obj 0)) (VRef (Obj 1)) (init heap_pair)).1 = true ∧
  (shallowEqual (VRef (Obj 2)) (VRef (Obj 3)) (init heap_pair)).1 = true ∧
  (shallowEqual (VRef (Obj 3)) (VRef (Obj 2)) (init heap_pair)).1 = false.
Proof. vm_compute. repeat split. Qed.

(** A disposed effect that was still queued runs at the next flush and is
    subscribed again by the reads of that run. *)
Example disposed_effect_resubscribes :
  let st' := dispose (Disposer 1) st_two_written in
  forward st' (Obj 0) ka = [0] ∧
  forward (flushEffects host_native
             (js_set w0 ka (VNum 1) st').2).2 (Obj 0) ka = [0; 1].
Proof. vm_compute. repeat split. Qed.
